(** * Fake-news detection service: the layered decision engine

    A shallow embedding of [src/models/Main.py] (text normalizer,
    confidence estimator, layered decision engine, feature attribution)
    and the properties of its specification.

    Modelling conventions.
    - A Python [str] is a list of Unicode code points.  The Unicode
      tables behind [str.lower], [\s], [\w] and [\d] are parameters of
      the development; an ASCII instance is given further down.
    - [re.sub] is interpreted by a small backtracking matcher with the
      priorities of Python's [re] (ordered alternation, greedy
      repetition, one character of look-behind for [\b]).
    - Numbers are exact rationals: the development reasons about the
      arithmetic the program writes down, not about binary64 rounding
      error.  [np.exp] and [np.argsort] are parameters constrained by
      what the program relies on.
    - The pickled models and the vectorizer are external objects; every
      method call on them is recorded in a call log, and Python
      exceptions are explicit outcomes. *)

From Stdlib Require Import String Ascii.
From Stdlib Require Import List Bool Arith ZArith NArith.
From Stdlib Require Import QArith Qround Qabs Qpower Lia Lqa Permutation Sorted.
Import ListNotations.

Local Close Scope Q_scope.
Local Open Scope list_scope.

(* ================================================================= *)
(** ** Python strings *)

Definition char := N.
Definition str := list char.

(** A string literal of the program, as a list of code points. *)
Definition py (s : string) : str := map N_of_ascii (list_ascii_of_string s).

Fixpoint str_eqb (a b : str) : bool :=
  match a, b with
  | [], [] => true
  | x :: a', y :: b' => (x =? y)%N && str_eqb a' b'
  | _, _ => false
  end.

Fixpoint dropWhile {A} (p : A -> bool) (l : list A) : list A :=
  match l with
  | [] => []
  | x :: l' => if p x then dropWhile p l' else l
  end.

Fixpoint takeWhile {A} (p : A -> bool) (l : list A) : list A :=
  match l with
  | [] => []
  | x :: l' => if p x then x :: takeWhile p l' else []
  end.

(** [s.strip(chars)]: drop the characters satisfying [p] at both ends. *)
Definition py_strip (p : char -> bool) (s : str) : str :=
  rev (dropWhile p (rev (dropWhile p s))).

Definition SPACE : char := 32%N.
Definition DQUOTE : char := 34%N.

Definition in_range (lo hi c : char) : bool := ((lo <=? c) && (c <=? hi))%N.
(** [a-z] and [A-Z] *)
Definition is_ascii_lower (c : char) : bool := in_range 97%N 122%N c.
Definition is_ascii_upper (c : char) : bool := in_range 65%N 90%N c.

(* ================================================================= *)
(** ** Regular expressions (the fragment of [re] the program uses) *)

Inductive regex :=
| REps                          (* empty pattern *)
| RChar (c : char)              (* a literal character *)
| RSet (p : char -> bool)       (* a character class: \s \S \d \w [...] *)
| RSeq (r1 r2 : regex)
| RAlt (r1 r2 : regex)          (* r1|r2, r1 tried first *)
| RStar (r : regex)             (* greedy r* *)
| RWordB.                       (* \b *)

Definition RPlus (r : regex) : regex := RSeq r (RStar r).

Fixpoint RLit (s : str) : regex :=
  match s with
  | [] => REps
  | [c] => RChar c
  | c :: s' => RSeq (RChar c) (RLit s')
  end.

Section Matcher.
(** [\w] of the [re] module for [str] patterns. *)
Variable is_word : char -> bool.

Definition word_before (prev : option char) : bool :=
  match prev with Some c => is_word c | None => false end.
Definition word_after (s : str) : bool :=
  match s with c :: _ => is_word c | [] => false end.

(** Greedy repetition of [body], at most [n] more times; an iteration
    counts only if it consumed something. *)
Fixpoint star_loop {A}
         (body : option char -> str -> (option char -> str -> option A) -> option A)
         (n : nat) (prev : option char) (s : str)
         (k : option char -> str -> option A) {struct n} : option A :=
  match n with
  | O => k prev s
  | S n' =>
      match body prev s
              (fun p' s' =>
                 if (length s' <? length s)%nat
                 then star_loop body n' p' s' k else None) with
      | Some a => Some a
      | None => k prev s
      end
  end.

(** Backtracking match of [r] at the head of [s]; [prev] is the
    character just before the current position and [k] the
    continuation receiving the position reached. *)
Fixpoint rmatch {A} (r : regex) (prev : option char) (s : str)
         (k : option char -> str -> option A) {struct r} : option A :=
  match r with
  | REps => k prev s
  | RChar c =>
      match s with
      | x :: s' => if (x =? c)%N then k (Some x) s' else None
      | [] => None
      end
  | RSet p =>
      match s with
      | x :: s' => if p x then k (Some x) s' else None
      | [] => None
      end
  | RSeq r1 r2 => rmatch r1 prev s (fun p' s' => rmatch r2 p' s' k)
  | RAlt r1 r2 =>
      match rmatch r1 prev s k with
      | Some a => Some a
      | None => rmatch r2 prev s k
      end
  | RStar r1 => star_loop (rmatch r1) (length s) prev s k
  | RWordB =>
      if xorb (word_before prev) (word_after s) then k prev s else None
  end.

(** The top-level success test; [must_advance] forbids an empty match
    at the position where the previous match was empty. *)
Definition accept (must_advance : bool) (s : str)
           (p' : option char) (s' : str) : option (option char * str) :=
  if must_advance && (length s' =? length s)%nat then None
  else Some (p', s').

(** The scanning loop of [re.sub(r, repl, text)]. *)
Fixpoint sub_loop (r : regex) (repl : str) (fuel : nat)
         (prev : option char) (s : str) (must_advance : bool) : str :=
  match fuel with
  | O => s
  | S fuel' =>
      match rmatch r prev s (accept must_advance s) with
      | Some (p', s') =>
          if (length s' =? length s)%nat
          then repl ++ sub_loop r repl fuel' prev s true
          else repl ++ sub_loop r repl fuel' p' s' false
      | None =>
          match s with
          | [] => []
          | c :: s1 => c :: sub_loop r repl fuel' (Some c) s1 false
          end
      end
  end.

Definition re_sub (r : regex) (repl : str) (text : str) : str :=
  sub_loop r repl (2 * length text + 2) None text false.
End Matcher.

(* ================================================================= *)
(** ** Python values and outcomes *)

Inductive exn := AttributeError | TypeError | IndexError | ValueError.

Inductive outcome (A : Type) :=
| Return (a : A)
| Raise (e : exn).
Arguments Return {A} a.
Arguments Raise {A} e.

(** Scalar arguments a caller may hand to the normalizer. *)
Inductive scalar :=
| SNone
| SNaN
| SBool (b : bool)
| SInt (z : Z)
| SFloat (q : Q)
| SStr (s : str).

(** The argument of [clean_text_harmonized] and [layered_predict]: a
    scalar, or a flat list of scalars. *)
Inductive raw_input :=
| InScalar (v : scalar)
| InList (items : list scalar).

(** [pd.isnull] on a scalar ([libmissing.checknull]). *)
Definition checknull (v : scalar) : bool :=
  match v with
  | SNone | SNaN => true
  | _ => false
  end.

(** What [pd.isnull] returns: a plain bool for a scalar, an array of
    bools (one per element) for a list. *)
Inductive isnull_result :=
| NullBool (b : bool)
| NullArray (a : list bool).

Definition pd_isnull (x : raw_input) : isnull_result :=
  match x with
  | InScalar v => NullBool (checknull v)
  | InList items => NullArray (map checknull items)
  end.

(** Truth value of the result, as taken by [or]: a one-element array
    has the truth value of its element; any other array has none
    ([ValueError]): one of two or more elements is ambiguous, and so is
    an empty one since NumPy 2.2 (older versions took it as false, with
    a deprecation warning). *)
Definition truth (r : isnull_result) : outcome bool :=
  match r with
  | NullBool b => Return b
  | NullArray [b] => Return b
  | NullArray _ => Raise ValueError
  end.

(** [isinstance(text, str)] *)
Definition isinstance_str (x : raw_input) : bool :=
  match x with
  | InScalar (SStr _) => true
  | _ => false
  end.

(** One row of [decision_function(...)]: a scalar margin for a
    two-class model, a vector of margins otherwise. *)
Inductive scores :=
| Margin (s : Q)
| Margins (v : list Q).

(* ================================================================= *)
(** ** Numbers *)

Local Open Scope Q_scope.

Fixpoint qsum (l : list Q) : Q :=
  match l with
  | [] => 0
  | x :: l' => x + qsum l'
  end.

(** Nearest integer, ties to the even one. *)
Definition round_half_even (x : Q) : Z :=
  let f := Qfloor x in
  match Qcompare (x - inject_Z f) (1 # 2) with
  | Lt => f
  | Gt => (f + 1)%Z
  | Eq => if Z.even f then f else (f + 1)%Z
  end.

(** [round(x, ndigits)] *)
Definition py_round (x : Q) (ndigits : nat) : Q :=
  let scale := inject_Z (10 ^ Z.of_nat ndigits) in
  Qred (inject_Z (round_half_even (x * scale)) / scale).

(** [np.max] of a non-empty vector, given as head and tail. *)
Fixpoint np_max (x : Q) (xs : list Q) : Q :=
  match xs with
  | [] => x
  | y :: ys => np_max (if Qle_bool y x then x else y) ys
  end.

(** [np.argmax]: the first index holding the maximum. *)
Fixpoint argmax_from (best : Q) (besti i : nat) (xs : list Q) : nat :=
  match xs with
  | [] => besti
  | y :: ys =>
      if Qle_bool y best then argmax_from best besti (S i) ys
      else argmax_from y i (S i) ys
  end.

Definition np_argmax (v : list Q) : outcome nat :=
  match v with
  | [] => Raise ValueError
  | x :: xs => Return (argmax_from x 0%nat 1%nat xs)
  end.

(* ================================================================= *)
(** ** Dictionaries, labels, response values *)

(** A [dict] keeps insertion order; assigning to an existing key
    replaces its value in place. *)
Definition dict (V : Type) : Type := list (str * V).

Fixpoint dict_set {V} (d : dict V) (k : str) (v : V) : dict V :=
  match d with
  | [] => [(k, v)]
  | (k', v') :: d' =>
      if str_eqb k' k then (k', v) :: d' else (k', v') :: dict_set d' k v
  end.

Fixpoint dict_get {V} (d : dict V) (k : str) : option V :=
  match d with
  | [] => None
  | (k', v') :: d' => if str_eqb k' k then Some v' else dict_get d' k
  end.

Definition dict_values {V} (d : dict V) : list V := map snd d.
Definition dict_keys {V} (d : dict V) : list str := map fst d.

(** A class label of a model: a string, or an integer (which is also
    what the binary branch of the fallback returns as prediction). *)
Inductive label :=
| LStr (s : str)
| LInt (z : Z).

Definition label_eqb (a b : label) : bool :=
  match a, b with
  | LStr x, LStr y => str_eqb x y
  | LInt x, LInt y => (x =? y)%Z
  | _, _ => false
  end.

(** [cls.strip(q)] with [q] the double-quote character; an integer has
    no [strip]. *)
Definition label_strip (l : label) : outcome str :=
  match l with
  | LStr s => Return (py_strip (N.eqb DQUOTE) s)
  | LInt _ => Raise AttributeError
  end.

(** The values found in a response. *)
Inductive pyobj :=
| PyNone
| PyFloat (q : Q)
| PyStr (s : str)
| PyFloatDict (d : dict Q)       (* {label: float, ...} *)
| PyStrDict (d : dict str)       (* {key: text, ...} *)
| PyPairs (l : list (str * Q)).  (* [(term, weight), ...] *)

(* ================================================================= *)
(** ** Call log and exceptions *)

Inductive method :=
| M_transform
| M_get_feature_names_out
| M_predict
| M_predict_proba
| M_decision_function.

(** A method call on the external object with identity [obj]. *)
Inductive event := Call (obj : N) (m : method).

Definition M (A : Type) : Type := (outcome A * list event)%type.

Definition ret {A} (a : A) : M A := (Return a, []).
Definition raise {A} (e : exn) : M A := (Raise e, []).
Definition lift {A} (o : outcome A) : M A := (o, []).
Definition call {A} (obj : N) (m : method) (result : A) : M A :=
  (Return result, [Call obj m]).

Definition bind {A B} (m : M A) (f : A -> M B) : M B :=
  match m with
  | (Return a, t) => let (r, t') := f a in (r, t ++ t')
  | (Raise e, t) => (Raise e, t)
  end.

Notation "x <- c ;; k" := (bind c (fun x => k))
  (at level 61, c at next level, right associativity).
Notation "' pat <- c ;; k" := (bind c (fun x => match x with pat => k end))
  (at level 61, pat pattern, c at next level, right associativity).

(** [a[i]] for a non-negative index. *)
Definition py_index {A} (a : list A) (i : nat) : M A :=
  match nth_error a i with
  | Some x => ret x
  | None => raise IndexError
  end.

(** [list(classes).index(x)] *)
Fixpoint index_from (i : nat) (l : list label) (x : label) : M nat :=
  match l with
  | [] => raise ValueError
  | y :: l' => if label_eqb y x then ret i else index_from (S i) l' x
  end.
Definition list_index (l : list label) (x : label) : M nat := index_from 0 l x.

(** The object has the attribute or the access raises. *)
Definition getattr {A} (a : option A) : M A :=
  match a with
  | Some x => ret x
  | None => raise AttributeError
  end.

Fixpoint mapM {A B} (f : A -> M B) (l : list A) : M (list B) :=
  match l with
  | [] => ret []
  | x :: l' => y <- f x ;; ys <- mapM f l' ;; ret (y :: ys)
  end.

(* ================================================================= *)
(** ** The text normalizer (Main.py, lines 105-114) *)

Section Program.
(** [str.lower] and the character classes [\s], [\w], [\d] of [re]. *)
Variable str_lower : str -> str.
Variable is_space : char -> bool.
Variable is_word : char -> bool.
Variable is_digit : char -> bool.

Definition not_space (c : char) : bool := negb (is_space c).

(** http\S+|www\S+|\S+\.com\S+|rss\s*2\.0|\bcomments\b|\bpinging\b|filed under\b *)
Definition re_boilerplate : regex :=
  RAlt (RSeq (RLit (py "http")) (RPlus (RSet not_space)))
  (RAlt (RSeq (RLit (py "www")) (RPlus (RSet not_space)))
  (RAlt (RSeq (RPlus (RSet not_space))
              (RSeq (RLit (py ".com")) (RPlus (RSet not_space))))
  (RAlt (RSeq (RLit (py "rss"))
              (RSeq (RStar (RSet is_space)) (RLit (py "2.0"))))
  (RAlt (RSeq RWordB (RSeq (RLit (py "comments")) RWordB))
  (RAlt (RSeq RWordB (RSeq (RLit (py "pinging")) RWordB))
        (RSeq (RLit (py "filed under")) RWordB)))))).

(** \b\d+\s*(read|file|link)\S* *)
Definition re_counted : regex :=
  RSeq RWordB
    (RSeq (RPlus (RSet is_digit))
       (RSeq (RStar (RSet is_space))
          (RSeq (RAlt (RLit (py "read"))
                   (RAlt (RLit (py "file")) (RLit (py "link"))))
                (RStar (RSet not_space))))).

(** [^\w\s] *)
Definition re_punct : regex :=
  RSet (fun c => negb (is_word c || is_space c)).

(** \d+ *)
Definition re_digits : regex := RPlus (RSet is_digit).

(** [^a-zA-Z\s] *)
Definition re_nonletter : regex :=
  RSet (fun c => negb (is_ascii_lower c || is_ascii_upper c || is_space c)).

(** \s+ *)
Definition re_spaces : regex := RPlus (RSet is_space).

Definition sub (r : regex) (text : str) : str :=
  re_sub is_word r (py " ") text.

Definition clean_text_harmonized (text : raw_input) : outcome str :=
  match truth (pd_isnull text) with
  | Raise e => Raise e
  | Return null =>
      if null || negb (isinstance_str text) then Return []
      else
        match text with
        | InScalar (SStr text) =>
            let text := str_lower text in
            let text := sub re_boilerplate text in
            let text := sub re_counted text in
            let text := sub re_punct text in
            let text := sub re_digits text in
            let text := sub re_nonletter text in
            let text := sub re_spaces text in
            Return (py_strip is_space text)
        | _ => Return []
        end
  end.

(* ================================================================= *)
(** ** External objects: the classifiers and the vectorizer *)

(** The sparse matrix type of the vectorizer. *)
Variable matrix : Type.

Record classifier := {
  clf_id : N;
  classes_ : list label;
  predict : matrix -> list label;
  predict_proba : option (matrix -> list (list Q));
  decision_function : option (matrix -> list scores);
  coef_ : option (list (list Q))
}.

Record vectorizer := {
  vec_id : N;
  transform : list str -> matrix;
  get_feature_names_out : list str
}.

Variable np_exp : Q -> Q.
Variable np_argsort : list Q -> list nat.

(** The dict comprehension
    [{cls.strip(q): round(p*100, 2) for cls, p in zip(classes, probs)}],
    [q] the double-quote character (lines 71-74 and 171-174). *)
Fixpoint confidences_into (acc : dict Q) (pairs : list (label * Q))
  : outcome (dict Q) :=
  match pairs with
  | [] => Return acc
  | (cls, p) :: rest =>
      match label_strip cls with
      | Raise e => Raise e
      | Return key => confidences_into (dict_set acc key (py_round (p * 100) 2)) rest
      end
  end.

Definition class_confidences (classes : list label) (probs : list Q)
  : outcome (dict Q) :=
  confidences_into [] (combine classes probs).

(** [1 if C_True >= 50.0 else 0] (lines 52 and 133) *)
Definition threshold_label (C_True : Q) : Z :=
  if Qle_bool 50 C_True then 1%Z else 0%Z.

(** [C_True if prediction == 1 else (100.0 - C_True)] (lines 55 and 134) *)
Definition predicted_confidence (prediction : Z) (C_True : Q) : Q :=
  if (prediction =? 1)%Z then C_True else 100 - C_True.

(** Lines 35-76.  Returns
    [(prediction, C_True, C_Predicted, all_class_confidences)]. *)
Definition get_svc_confidence_fallback (model : classifier) (vector : matrix)
  : M (label * option Q * Q * option (dict Q)) :=
  f <- getattr (decision_function model) ;;
  rows <- call (clf_id model) M_decision_function (f vector) ;;
  decision_scores <- py_index rows 0 ;;
  let all_class_confidences : option (dict Q) := None in
  match decision_scores with
  | Margin decision_score =>
      let C_True := 1 / (1 + np_exp (- decision_score)) * 100 in
      let prediction := threshold_label C_True in
      let C_Predicted := predicted_confidence prediction C_True in
      ret (LInt prediction, Some C_True, C_Predicted, None)
  | Margins decision_scores =>
      predicted_index <- lift (np_argmax decision_scores) ;;
      predicted_class <- py_index (classes_ model) predicted_index ;;
      let top := np_max (hd 0 decision_scores) (tl decision_scores) in
      let e_x := map (fun d => np_exp (d - top)) decision_scores in
      let softmax_probs := map (fun e => e / qsum e_x) e_x in
      p <- py_index softmax_probs predicted_index ;;
      let C_Predicted := p * 100 in
      all_class_confidences <-
        lift (class_confidences (classes_ model) softmax_probs) ;;
      ret (predicted_class, None, C_Predicted, Some all_class_confidences)
  end.

(* ================================================================= *)
(** ** The layered decision engine (Main.py, lines 120-207) *)

(** The module-level objects set by the loading block (lines 82-88). *)
Variable binary_model : classifier.
Variable binary_vectorizer : vectorizer.
Variable granular_model : classifier.
Definition granular_vectorizer : vectorizer := binary_vectorizer.

(** [text_clean.split()]: the maximal runs of non-blank characters. *)
Fixpoint split_from (cur : str) (s : str) : list str :=
  match s with
  | [] => match cur with [] => [] | _ => [rev cur] end
  | c :: s' =>
      if is_space c
      then match cur with
           | [] => split_from [] s'
           | _ => rev cur :: split_from [] s'
           end
      else split_from (c :: cur) s'
  end.
Definition py_split (s : str) : list str := split_from [] s.

(** [x in words] *)
Definition str_in (x : str) (words : list str) : bool :=
  existsb (str_eqb x) words.

(** [a[-n:]] *)
Definition last_n {A} (n : nat) (a : list A) : list A :=
  skipn (length a - n) a.

(** A [None] operand makes [round] raise [TypeError]. *)
Definition as_float (x : option Q) : M Q :=
  match x with
  | Some q => ret q
  | None => raise TypeError
  end.

Definition msg_error : str :=
  py "Input text is empty or contains only non-alphanumeric characters.".
Definition msg_no_proba : str := py "No probability function available.".
Definition msg_no_features : str := py "Feature support not available.".
Definition NA : pyobj := PyStr (py "N/A").

Definition error_payload : dict pyobj := [(py "error", PyStr msg_error)].

(** The response of the early exit (lines 144-153). *)
Definition true_payload (bin_conf_predicted_rounded C_True_rounded : Q)
  : dict pyobj :=
  [ (py "binary_prediction", PyStr (py "True"));
    (py "binary_confidence", PyFloat bin_conf_predicted_rounded);
    (py "C_True_confidence", PyFloat C_True_rounded);
    (py "granular_prediction", NA);
    (py "granular_confidence_top", NA);
    (py "granular_confidence_all", NA);
    (py "top_features_input", NA);
    (py "top_features_overall", NA) ].

(** The response of the escalated path (lines 198-207). *)
Definition full_payload (bin_label_str : str)
           (bin_conf_predicted_rounded C_True_rounded : Q)
           (granular_prediction : str) (granular_confidence_top : Q)
           (gran_conf_all top_input_features top_global_features : pyobj)
  : dict pyobj :=
  [ (py "binary_prediction", PyStr bin_label_str);
    (py "binary_confidence", PyFloat bin_conf_predicted_rounded);
    (py "C_True_confidence", PyFloat C_True_rounded);
    (py "granular_prediction", PyStr granular_prediction);
    (py "granular_confidence_top", PyFloat granular_confidence_top);
    (py "granular_confidence_all", gran_conf_all);
    (py "top_features_input", top_input_features);
    (py "top_features_overall", top_global_features) ].

(** Binary prediction and confidence (lines 129-137).  The predicted
    binary label is returned along with [C_True] and
    [bin_conf_predicted]; the program itself does not use it further. *)
Definition binary_stage (bin_vec : matrix) : M (label * option Q * Q) :=
  match predict_proba binary_model with
  | Some proba =>
      rows <- call (clf_id binary_model) M_predict_proba (proba bin_vec) ;;
      bin_probs <- py_index rows 0 ;;
      p1 <- py_index bin_probs 1 ;;
      let C_True := p1 * 100 in
      let bin_prediction := threshold_label C_True in
      let bin_conf_predicted := predicted_confidence bin_prediction C_True in
      ret (LInt bin_prediction, Some C_True, bin_conf_predicted)
  | None =>
      ' (prediction, C_True, bin_conf_predicted, _) <-
        get_svc_confidence_fallback binary_model bin_vec ;;
      ret (prediction, C_True, bin_conf_predicted)
  end.

(** Granular prediction, top confidence and all confidences
    (lines 162-177): [(gran_label, gran_conf_top, gran_conf_all)]. *)
Definition granular_stage (text_clean : str) : M (label * Q * pyobj) :=
  gran_vec <- call (vec_id granular_vectorizer) M_transform
                (transform granular_vectorizer [text_clean]) ;;
  let gran_conf_all := PyStrDict [(py "warning", msg_no_proba)] in
  match predict_proba granular_model with
  | Some proba =>
      labels <- call (clf_id granular_model) M_predict
                  (predict granular_model gran_vec) ;;
      gran_label <- py_index labels 0 ;;
      rows <- call (clf_id granular_model) M_predict_proba (proba gran_vec) ;;
      gran_probs <- py_index rows 0 ;;
      predicted_index <- list_index (classes_ granular_model) gran_label ;;
      p <- py_index gran_probs predicted_index ;;
      let gran_conf_top := p * 100 in
      d <- lift (class_confidences (classes_ granular_model) gran_probs) ;;
      let gran_conf_all := PyFloatDict d in
      ret (gran_label, gran_conf_top, gran_conf_all)
  | None =>
      ' (gran_label, _, gran_conf_top, all_class_confidences) <-
        get_svc_confidence_fallback granular_model gran_vec ;;
      let gran_conf_all :=
        match all_class_confidences with
        | Some d => PyFloatDict d
        | None => PyNone
        end in
      ret (gran_label, gran_conf_top, gran_conf_all)
  end.

(** The ranked search window [np.argsort(coefs)[-200:][::-1]]. *)
Definition ranked_window (coefs : list Q) : list nat :=
  rev (last_n 200 (np_argsort coefs)).

(** [(feature_names[i], round(coefs[i], 4))] *)
Definition feature_entry (feature_names : list str) (coefs : list Q)
           (i : nat) : M (str * Q) :=
  name <- py_index feature_names i ;;
  c <- py_index coefs i ;;
  ret (name, py_round c 4).

(** One step of the filtering comprehension of lines 193-194: the
    entry of [i] if its term is an input word, nothing otherwise. *)
Definition input_entry (feature_names : list str) (coefs : list Q)
           (input_words : list str) (i : nat) : M (list (str * Q)) :=
  name <- py_index feature_names i ;;
  if str_in name input_words
  then e <- feature_entry feature_names coefs i ;; ret [e]
  else ret [].

(** Explainability (lines 180-196):
    [(top_input_features, top_global_features)]. *)
Definition feature_attribution (gran_label : label) (text_clean : str)
  : M (pyobj * pyobj) :=
  let top_input_features := PyStr msg_no_features in
  let top_global_features := PyStr msg_no_features in
  match coef_ granular_model with
  | Some coef =>
      class_idx <- list_index (classes_ granular_model) gran_label ;;
      coefs <- py_index coef class_idx ;;
      feature_names <- call (vec_id granular_vectorizer)
                         M_get_feature_names_out
                         (get_feature_names_out granular_vectorizer) ;;
      let top_idx := ranked_window coefs in
      let input_words := py_split text_clean in
      found <- mapM (input_entry feature_names coefs input_words) top_idx ;;
      let top_input_features := firstn 10 (concat found) in
      top_global_features <-
        mapM (feature_entry feature_names coefs) (firstn 10 top_idx) ;;
      ret (PyPairs top_input_features, PyPairs top_global_features)
  | None => ret (top_input_features, top_global_features)
  end.

(** The escalated path (lines 154-207): display label, granular
    analysis, explainability, response. *)
Definition granular_analysis (text_clean : str) (C_True : Q)
           (bin_conf_predicted_rounded C_True_rounded : Q)
  : M (dict pyobj) :=
  let bin_label_str :=
    if Qle_bool 50 C_True then py "Unknown / Borderline" else py "Fake" in
  ' (gran_label, gran_conf_top, gran_conf_all) <- granular_stage text_clean ;;
  ' (top_input_features, top_global_features) <-
    feature_attribution gran_label text_clean ;;
  granular_prediction <- lift (label_strip gran_label) ;;
  ret (full_payload bin_label_str bin_conf_predicted_rounded C_True_rounded
         granular_prediction (py_round gran_conf_top 2)
         gran_conf_all top_input_features top_global_features).

Definition layered_predict (text : raw_input) : M (dict pyobj) :=
  text_clean <- lift (clean_text_harmonized text) ;;
  match text_clean with
  | [] => ret error_payload
  | _ :: _ =>
      bin_vec <- call (vec_id binary_vectorizer) M_transform
                   (transform binary_vectorizer [text_clean]) ;;
      ' (_, C_True, bin_conf_predicted) <- binary_stage bin_vec ;;
      C_True <- as_float C_True ;;
      let C_True_rounded := py_round C_True 2 in
      let bin_conf_predicted_rounded := py_round bin_conf_predicted 2 in
      if Qle_bool 60 C_True then
        ret (true_payload bin_conf_predicted_rounded C_True_rounded)
      else
        granular_analysis text_clean C_True
          bin_conf_predicted_rounded C_True_rounded
  end.
End Program.

(* ================================================================= *)
(** ** Vocabulary of the specification *)

(** Only lowercase ASCII letters and spaces. *)
Definition clean_charset (s : str) : bool :=
  forallb (fun c => is_ascii_lower c || (c =? SPACE)%N) s.

(** No two spaces in a row. *)
Fixpoint single_spaced (s : str) : bool :=
  match s with
  | a :: (b :: _) as t =>
      negb ((a =? SPACE)%N && (b =? SPACE)%N) && single_spaced t
  | _ => true
  end.

(** No space at either end. *)
Definition trimmed (s : str) : bool :=
  match s with
  | [] => true
  | a :: _ => negb (a =? SPACE)%N && negb (last s a =? SPACE)%N
  end.

(** The shape promised for a normalized text. *)
Definition canonical (s : str) : bool :=
  clean_charset s && single_spaced s && trimmed s.

(** The response has the shape of the early exit. *)
Definition true_terminal (r : dict pyobj) : Prop :=
  exists binary_confidence C_True_confidence,
    r = true_payload binary_confidence C_True_confidence.

(** The response has the shape of the escalated path, with [label] as
    its binary prediction. *)
Definition full_shape (bin_label_str : str) (r : dict pyobj) : Prop :=
  exists bc ct gp gt ga ti tg,
    r = full_payload bin_label_str bc ct gp gt ga ti tg.



(** A per-class probability row. *)
Definition distribution (probs : list Q) : Prop :=
  Forall (fun p => 0 <= p <= 1) probs /\ qsum probs == 1.

(** The class names, stripped, are strings and pairwise distinct. *)
Definition distinct_names (classes : list label) : Prop :=
  exists names,
    Forall2 (fun c n => label_strip c = Return n) classes names /\
    NoDup names.


(** [window] lists indices of [coefs] by descending coefficient and
    holds its [min 200 (length coefs)] largest entries. *)
Definition top_ranked (coefs : list Q) (window : list nat) : Prop :=
  length window = Nat.min 200 (length coefs) /\
  NoDup window /\
  Forall (fun i => (i < length coefs)%nat) window /\
  StronglySorted (fun i j => nth j coefs 0 <= nth i coefs 0) window /\
  (forall i j, In i window -> (j < length coefs)%nat -> ~ In j window ->
               nth j coefs 0 <= nth i coefs 0).

(** What the program relies on from [np.argsort]: a permutation of the
    indices, ascending by value. *)
Definition argsort_spec (argsort : list Q -> list nat) : Prop :=
  forall v,
    Permutation (argsort v) (seq 0 (length v)) /\
    StronglySorted (fun i j => nth i v 0 <= nth j v 0) (argsort v).

(** The entry the program builds for feature index [i]. *)
Definition ranked_entry (feature_names : list str) (coefs : list Q) (i : nat)
  : str * Q :=
  (nth i feature_names [], py_round (nth i coefs 0) 4).

(** What a response [r] reports about the features, for a granular
    model with classes [classes] and coefficient rows [coef], a
    vocabulary [names] and the normalized text [text_clean]. *)
Definition attribution_report (is_space : char -> bool)
           (np_argsort : list Q -> list nat)
           (classes : list label) (coef : list (list Q)) (names : list str)
           (text_clean : str) (r : dict pyobj) : Prop :=
  exists lbl gp class_idx coefs,
    label_strip lbl = Return gp /\
    dict_get r (py "granular_prediction") = Some (PyStr gp) /\
    nth_error classes class_idx = Some lbl /\
    nth_error coef class_idx = Some coefs /\
    let window := ranked_window np_argsort coefs in
    let entries := map (ranked_entry names coefs) window in
    let present :=
      filter (fun e => str_in (fst e) (py_split is_space text_clean)) entries in
    top_ranked coefs window /\
    dict_get r (py "top_features_overall") = Some (PyPairs (firstn 10 entries)) /\
    dict_get r (py "top_features_input") = Some (PyPairs (firstn 10 present)) /\
    (length (firstn 10 entries) <= 10)%nat /\
    (length (firstn 10 present) <= 10)%nat /\
    (forall e, In e (firstn 10 present) ->
               exists i, In i window /\ fst e = nth i names []).

(** A probability as a percentage with two decimals. *)
Definition percent (p : Q) : Q := py_round (p * 100) 2.

Definition qlen {A} (l : list A) : Q := inject_Z (Z.of_nat (length l)).

(** The values are percentages and add up to 100 within half a
    hundredth per class, hence within a tenth for up to 20 classes. *)
Definition percentages (classes : nat) (values : list Q) : Prop :=
  Forall (fun v => 0 <= v <= 100) values /\
  Qabs (qsum values - 100) <= inject_Z (Z.of_nat classes) * (1 # 200) /\
  ((classes <= 20)%nat -> Qabs (qsum values - 100) <= 1 # 10).

(** A run whose log is preceded by the calls [t]. *)
Definition prefix_log {A} (t : list event) (m : M A) : M A :=
  (fst m, t ++ snd m).

(** ** Auxiliary descriptions used in the proofs *)

Definition suffix {A} (t s : list A) : Prop := exists pre, s = pre ++ t.

(** A continuation-passing matcher hands only suffixes of its input to
    its continuation. *)
Definition hands_suffix {A}
  (m : option char -> str -> (option char -> str -> option A) -> option A)
  : Prop :=
  forall prev s k a, m prev s k = Some a ->
    exists p' s', k p' s' = Some a /\ suffix s' s.

(** A continuation-passing matcher looks at its continuation only on
    suffixes of its input. *)
Definition reads_suffixes {A}
  (m : option char -> str -> (option char -> str -> option A) -> option A)
  : Prop :=
  forall prev s k1 k2,
    (forall p' s', suffix s' s -> k1 p' s' = k2 p' s') ->
    m prev s k1 = m prev s k2.

(** Every run of blanks replaced by one space; [in_run] tells whether
    the previous character was a blank. *)
Fixpoint collapse (is_space : char -> bool) (in_run : bool) (s : str) : str :=
  match s with
  | [] => []
  | c :: s' =>
      if is_space c
      then if in_run then collapse is_space true s'
           else SPACE :: collapse is_space true s'
      else c :: collapse is_space false s'
  end.

(** The text as it reaches the last substitution of the normalizer. *)
Definition before_spaces (str_lower : str -> str)
           (is_space is_word is_digit : char -> bool) (text : str) : str :=
  sub is_word (re_nonletter is_space)
    (sub is_word (re_digits is_digit)
       (sub is_word (re_punct is_space is_word)
          (sub is_word (re_counted is_space is_digit)
             (sub is_word (re_boilerplate is_space) (str_lower text))))).

(* ================================================================= *)
(** ** An ASCII instance of the Unicode tables *)

Module Ascii7.
Definition lower_char (c : char) : char :=
  if is_ascii_upper c then (c + 32)%N else c.
Definition str_lower (s : str) : str := map lower_char s.
(** \t \n \v \f \r, the separators 0x1c-0x1f and the space *)
Definition is_space (c : char) : bool :=
  in_range 9%N 13%N c || in_range 28%N 32%N c.
Definition is_digit (c : char) : bool := in_range 48%N 57%N c.
Definition is_word (c : char) : bool :=
  is_ascii_lower c || is_ascii_upper c || is_digit c || (c =? 95)%N.
Definition clean (text : raw_input) : outcome str :=
  clean_text_harmonized str_lower is_space is_word is_digit text.
End Ascii7.


(* ================================================================= *)
(** ** A concrete deployment, used to run the program *)

Module Demo.
(** A positive stand-in for [np.exp] on rationals: [2 ^ floor x]. *)
Definition exp2 (x : Q) : Q := Qpower 2 (Qfloor x).

(** A stable insertion sort of the indices by value. *)
Fixpoint insert_by (key : nat -> Q) (i : nat) (l : list nat) : list nat :=
  match l with
  | [] => [i]
  | j :: l' =>
      if Qle_bool (key i) (key j) then i :: l else j :: insert_by key i l'
  end.
Definition argsort (v : list Q) : list nat :=
  fold_right (insert_by (fun i => nth i v 0)) [] (seq 0 (length v)).

(** The vectorizer hands the cleaned text on as its matrix. *)
Definition vocabulary : list str :=
  [py "aliens"; py "miracle"; py "shocking"; py "secret"; py "report"].
Definition tfidf : vectorizer str :=
  {| vec_id := 1%N;
     transform := fun docs => concat docs;
     get_feature_names_out := vocabulary |}.

(** A calibrated two-class model: the probability of the positive
    class depends on the length of the text. *)
Definition p_true (v : str) : Q :=
  match length v with
  | 1%nat => 85 # 100
  | 2%nat => 60 # 100
  | 3%nat => 59996 # 100000
  | 4%nat => 55 # 100
  | _ => 40 # 100
  end.
Definition calibrated_binary : classifier str :=
  {| clf_id := 2%N;
     classes_ := [LInt 0; LInt 1];
     predict := fun v => [LInt (if Qle_bool (1 # 2) (p_true v) then 1 else 0)];
     predict_proba := Some (fun v => [[1 - p_true v; p_true v]]);
     decision_function := None;
     coef_ := None |}.

(** A raw two-class linear SVC: margins only. *)
Definition svc_binary : classifier str :=
  {| clf_id := 2%N;
     classes_ := [LInt 0; LInt 1];
     predict := fun v => [LInt 1];
     predict_proba := None;
     decision_function := Some (fun v => [Margin 0]);
     coef_ := Some [[1; 0; 0; 0; 0]] |}.

Definition QUOTED_SATIRE : str := DQUOTE :: py "satire" ++ [DQUOTE].
Definition categories : list label :=
  [LStr (py "clickbait"); LStr (py "propaganda"); LStr QUOTED_SATIRE].
Definition weights : list (list Q) :=
  [ [3 # 10; 1 # 10; 9 # 10; 5 # 10; -(2 # 10)];
    [1 # 10; 0; 2 # 10; 7 # 10; -(1 # 10)];
    [8 # 10; 66666 # 100000; 1 # 10; -(3 # 10); 0] ].

(** A calibrated granular model with linear coefficients. *)
Definition calibrated_granular : classifier str :=
  {| clf_id := 3%N;
     classes_ := categories;
     predict := fun v => [LStr QUOTED_SATIRE];
     predict_proba := Some (fun v => [[1 # 4; 1 # 8; 5 # 8]]);
     decision_function := None;
     coef_ := Some weights |}.

(** A raw multi-class linear SVC: one margin per class. *)
Definition svc_granular : classifier str :=
  {| clf_id := 3%N;
     classes_ := categories;
     predict := fun v => [LStr QUOTED_SATIRE];
     predict_proba := None;
     decision_function := Some (fun v => [Margins [0; -1; 1]]);
     coef_ := Some weights |}.

(** A raw linear SVC fitted on two categories only: its
    [decision_function] yields one scalar margin per row. *)
Definition svc_two_categories : classifier str :=
  {| clf_id := 3%N;
     classes_ := [LStr (py "clickbait"); LStr (py "satire")];
     predict := fun v => [LStr (py "satire")];
     predict_proba := None;
     decision_function := Some (fun v => [Margin 2]);
     coef_ := None |}.

(** A calibrated model whose training labels were quoted
    inconsistently, so that two classes differ only by the quotes. *)
Definition calibrated_mixed_quotes : classifier str :=
  {| clf_id := 3%N;
     classes_ := [LStr QUOTED_SATIRE; LStr (py "propaganda");
                  LStr (py "satire")];
     predict := fun v => [LStr (py "satire")];
     predict_proba := Some (fun v => [[3 # 10; 3 # 10; 4 # 10]]);
     decision_function := None;
     coef_ := None |}.


(** A model that only predicts: neither [predict_proba] nor
    [decision_function]. *)
Definition predict_only : classifier str :=
  {| clf_id := 3%N;
     classes_ := categories;
     predict := fun v => [LStr (py "clickbait")];
     predict_proba := None;
     decision_function := None;
     coef_ := None |}.

(** Three hundred equally likely classes with distinct names. *)
Definition many_classes : list label :=
  map (fun i => LStr [N.of_nat i]) (seq 256 300).
Definition uniform_row : list Q := repeat (1 # 300) 300.

Definition run (binary_model granular_model : classifier str)
           (text : raw_input) : M (dict pyobj) :=
  layered_predict Ascii7.str_lower Ascii7.is_space Ascii7.is_word
    Ascii7.is_digit str exp2 argsort binary_model tfidf granular_model text.

Definition text (s : string) : raw_input := InScalar (SStr (py s)).

(** The response of a run, if there is one. *)
Definition response (m : M (dict pyobj)) : dict pyobj :=
  match fst m with
  | Return r => r
  | Raise _ => []
  end.

Definition binary (m : classifier str) : str -> M (label * option Q * Q) :=
  binary_stage str exp2 m.
Definition granular (m : classifier str) : str -> M (label * Q * pyobj) :=
  granular_stage str exp2 tfidf m.
Definition analysis (m : classifier str)
  : str -> Q -> Q -> Q -> M (dict pyobj) :=
  granular_analysis Ascii7.is_space str exp2 argsort tfidf m.
End Demo.

(* ================================================================= *)
(** ** Vocabulary of the further properties *)

Section CallsVocabulary.
Variable matrix : Type.
Variable binary_model : classifier matrix.
Variable binary_vectorizer : vectorizer matrix.
Variable granular_model : classifier matrix.

(** The calls of the binary stage: one call on the binary model. *)
Definition binary_calls : list event :=
  [Call (clf_id matrix binary_model)
     (match predict_proba matrix binary_model with
      | Some _ => M_predict_proba
      | None => M_decision_function
      end)].

(** The calls of the granular stage on the granular model. *)
Definition granular_calls : list event :=
  match predict_proba matrix granular_model with
  | Some _ => [Call (clf_id matrix granular_model) M_predict;
               Call (clf_id matrix granular_model) M_predict_proba]
  | None => [Call (clf_id matrix granular_model) M_decision_function]
  end.

(** The calls of the attribution step. *)
Definition attribution_calls : list event :=
  match coef_ matrix granular_model with
  | Some _ => [Call (vec_id matrix binary_vectorizer) M_get_feature_names_out]
  | None => []
  end.
End CallsVocabulary.

(** The value paired with the last occurrence of [k] in [pairs]. *)
Fixpoint last_value {V} (pairs : list (str * V)) (k : str) : option V :=
  match pairs with
  | [] => None
  | (k', v) :: rest =>
      match last_value rest k with
      | Some x => Some x
      | None => if str_eqb k' k then Some v else None
      end
  end.

(** No double quote at either end. *)
Definition unquoted (s : str) : Prop :=
  match s with
  | [] => True
  | x :: _ => x <> DQUOTE /\ last s x <> DQUOTE
  end.

(** The probabilities of lines 62-64: the exponentials of the margins
    shifted by their maximum, divided by their sum. *)
Definition softmax (np_exp : Q -> Q) (decision_scores : list Q) : list Q :=
  let top := np_max (hd 0 decision_scores) (tl decision_scores) in
  let e_x := map (fun d => np_exp (d - top)) decision_scores in
  map (fun e => e / qsum e_x) e_x.

(** [m] is the largest entry of [v] and [idx] its first position. *)
Definition first_maximum (v : list Q) (idx : nat) (m : Q) : Prop :=
  nth_error v idx = Some m /\
  Forall (fun x => x <= m) v /\
  forall j x, (j < idx)%nat -> nth_error v j = Some x -> x < m.

(** [t] is an initial part of [full]. *)
Definition is_prefix {A} (t full : list A) : Prop :=
  exists rest, full = t ++ rest.

(** A pattern that cannot match the empty string. *)
Fixpoint consuming (r : regex) : bool :=
  match r with
  | REps => false
  | RChar _ => true
  | RSet _ => true
  | RSeq r1 r2 => consuming r1 || consuming r2
  | RAlt r1 r2 => consuming r1 && consuming r2
  | RStar _ => false
  | RWordB => false
  end.

(** [l1] is [l2] with some elements left out. *)
Inductive subseq {A} : list A -> list A -> Prop :=
| subseq_nil : subseq [] []
| subseq_skip x l1 l2 : subseq l1 l2 -> subseq l1 (x :: l2)
| subseq_keep x l1 l2 : subseq l1 l2 -> subseq (x :: l1) (x :: l2).

(** The text without its spaces. *)
Definition without_spaces (s : str) : str :=
  filter (fun c => negb (c =? SPACE)%N) s.

(* ================================================================= *)
(** ** The HTTP endpoint (Main.py, lines 229-245) *)

Module Api.
(** The validated JSON body of a request: [text: str]. *)
Record TextRequest := { text : str }.

Section Endpoint.
Variable str_lower : str -> str.
Variable is_space : char -> bool.
Variable is_word : char -> bool.
Variable is_digit : char -> bool.
Variable matrix : Type.
Variable np_exp : Q -> Q.
Variable np_argsort : list Q -> list nat.
Variable binary_model : classifier matrix.
Variable binary_vectorizer : vectorizer matrix.
Variable granular_model : classifier matrix.

(** [return layered_predict(request.text)] *)
Definition predict (request : TextRequest) : M (dict pyobj) :=
  layered_predict str_lower is_space is_word is_digit matrix np_exp
    np_argsort binary_model binary_vectorizer granular_model
    (InScalar (SStr (text request))).
End Endpoint.
End Api.

(* ================================================================= *)
(** * Properties *)

Local Close Scope Q_scope.

(** ** Lists *)
Lemma suffix_refl {A} (s : list A) : suffix s s.
Proof. exists []. reflexivity. Qed.

Lemma suffix_cons {A} (x : A) (t s : list A) : suffix t s -> suffix t (x :: s).
Proof. intros [pre ->]. exists (x :: pre). reflexivity. Qed.

Lemma suffix_trans {A} (u t s : list A) : suffix u t -> suffix t s -> suffix u s.
Proof. intros [p ->] [q ->]. exists (q ++ p). now rewrite app_assoc. Qed.

Lemma suffix_In {A} (t s : list A) x : suffix t s -> In x t -> In x s.
Proof. intros [pre ->] H. apply in_or_app. now right. Qed.

Lemma suffix_length {A} (t s : list A) : suffix t s -> length t <= length s.
Proof. intros [pre ->]. rewrite length_app. lia. Qed.

Lemma firstn_In {A} n (l : list A) x : In x (firstn n l) -> In x l.
Proof.
  intros H. rewrite <- (firstn_skipn n l). apply in_or_app. now left.
Qed.

Lemma take_drop_while {A} (p : A -> bool) (l : list A) :
  l = takeWhile p l ++ dropWhile p l.
Proof.
  induction l as [|x l IH]; simpl; [reflexivity|].
  destruct (p x); simpl; [now f_equal | reflexivity].
Qed.

Lemma dropWhile_suffix {A} (p : A -> bool) (l : list A) : suffix (dropWhile p l) l.
Proof. exists (takeWhile p l). apply take_drop_while. Qed.

Lemma dropWhile_head {A} (p : A -> bool) (l : list A) x t :
  dropWhile p l = x :: t -> p x = false.
Proof.
  induction l as [|y l IH]; simpl; [discriminate|].
  destruct (p y) eqn:E; [exact IH | intros [= <- _]; exact E].
Qed.

Lemma dropWhile_all {A} (p : A -> bool) (l : list A) :
  Forall (fun x => p x = true) l -> dropWhile p l = [].
Proof.
  induction 1 as [|x l Hx _ IH]; simpl; [reflexivity | now rewrite Hx].
Qed.

Lemma length_neq_cons (n : nat) : (n =? S n) = false.
Proof. apply Nat.eqb_neq. lia. Qed.

Section MatcherFacts.
Variable is_word : char -> bool.

Lemma star_loop_suffix {A} body :
  @hands_suffix A body -> forall n, hands_suffix (star_loop body n).
Proof.
  intros Hb n. induction n as [|n IH]; intros prev s k a; simpl.
  - intros H. exists prev, s. split; [exact H | apply suffix_refl].
  - destruct (body prev s _) as [b|] eqn:E.
    + intros [= ->]. apply Hb in E. destruct E as (p' & s' & Hk & Hs).
      destruct (length s' <? length s); [|discriminate].
      apply IH in Hk. destruct Hk as (p2 & s2 & Hk & Hs2).
      exists p2, s2. split; [exact Hk | eapply suffix_trans; eassumption].
    + intros H. exists prev, s. split; [exact H | apply suffix_refl].
Qed.

Lemma rmatch_suffix {A} (r : regex) : @hands_suffix A (rmatch is_word r).
Proof.
  induction r as [|c|p|r1 IH1 r2 IH2|r1 IH1 r2 IH2|r1 IH1|];
    intros prev s k a; simpl.
  - intros H. exists prev, s. split; [exact H | apply suffix_refl].
  - destruct s as [|x s']; [discriminate|].
    destruct (x =? c)%N; [|discriminate].
    intros H. exists (Some x), s'. split; [exact H|]. apply suffix_cons, suffix_refl.
  - destruct s as [|x s']; [discriminate|].
    destruct (p x); [|discriminate].
    intros H. exists (Some x), s'. split; [exact H|]. apply suffix_cons, suffix_refl.
  - intros H. apply IH1 in H. destruct H as (p1 & s1 & H & Hs1).
    apply IH2 in H. destruct H as (p2 & s2 & H & Hs2).
    exists p2, s2. split; [exact H | eapply suffix_trans; eassumption].
  - destruct (rmatch is_word r1 prev s k) as [b|] eqn:E.
    + intros [= ->]. now apply IH1 in E.
    + intros H. now apply IH2 in H.
  - apply star_loop_suffix. exact IH1.
  - destruct (xorb _ _); [|discriminate].
    intros H. exists prev, s. split; [exact H | apply suffix_refl].
Qed.

Lemma star_loop_local {A} body :
  @reads_suffixes A body -> forall n, reads_suffixes (star_loop body n).
Proof.
  intros Hb n. induction n as [|n IH]; intros prev s k1 k2 Hk; simpl.
  - apply Hk, suffix_refl.
  - rewrite (Hk prev s (suffix_refl s)).
    erewrite Hb; [reflexivity|].
    intros p' s' Hs. cbv beta. destruct (length s' <? length s); [|reflexivity].
    apply IH. intros p2 s2 Hs2. apply Hk. eapply suffix_trans; eassumption.
Qed.

Lemma rmatch_local {A} (r : regex) : @reads_suffixes A (rmatch is_word r).
Proof.
  induction r as [|c|p|r1 IH1 r2 IH2|r1 IH1 r2 IH2|r1 IH1|];
    intros prev s k1 k2 Hk; simpl.
  - apply Hk, suffix_refl.
  - destruct s as [|x s']; [reflexivity|].
    destruct (x =? c)%N; [|reflexivity]. apply Hk, suffix_cons, suffix_refl.
  - destruct s as [|x s']; [reflexivity|].
    destruct (p x); [|reflexivity]. apply Hk, suffix_cons, suffix_refl.
  - apply IH1. intros p1 s1 Hs1. apply IH2. intros p2 s2 Hs2.
    apply Hk. eapply suffix_trans; eassumption.
  - rewrite (IH1 prev s k1 k2 Hk), (IH2 prev s k1 k2 Hk). reflexivity.
  - now apply star_loop_local.
  - rewrite (Hk prev s (suffix_refl s)). reflexivity.
Qed.

(** A repetition never needs more rounds than the text has
    characters: the bound [length s] that [rmatch] passes is enough. *)
Lemma star_loop_fuel {A} body :
  @hands_suffix A body -> reads_suffixes body ->
  forall n m prev s k,
    length s <= n -> n <= m ->
    star_loop body n prev s k = star_loop body m prev s k.
Proof.
  intros Hh Hl. induction n as [|n IH]; intros m prev s k Hn Hm.
  - destruct s; [|simpl in Hn; lia].
    destruct m as [|m]; [reflexivity|]. simpl.
    destruct (body prev [] _) as [a|] eqn:E; [|reflexivity].
    apply Hh in E. destruct E as (p' & s' & E & _). discriminate E.
  - destruct m as [|m]; [lia|]. simpl.
    erewrite Hl; [reflexivity|].
    intros p' s' Hs. cbv beta.
    destruct (length s' <? length s) eqn:E; [|reflexivity].
    apply Nat.ltb_lt in E. apply IH; lia.
Qed.

Lemma accept_inv adv s p s' r :
  accept adv s p s' = Some r -> r = (p, s').
Proof. unfold accept. destruct (_ && _); [discriminate | now intros [= <-]]. Qed.

(** The text after a match is a suffix of the text before it. *)
Lemma rmatch_accept_suffix r prev s adv p' s' :
  rmatch is_word r prev s (accept adv s) = Some (p', s') -> suffix s' s.
Proof.
  intros H. apply rmatch_suffix in H. destruct H as (p2 & s2 & H & Hs).
  apply accept_inv in H. injection H as -> ->. exact Hs.
Qed.

(** [re.sub] only ever copies characters of the text or of the
    replacement. *)
Lemma sub_loop_chars r repl fuel : forall prev s adv c,
  In c (sub_loop is_word r repl fuel prev s adv) -> In c s \/ In c repl.
Proof.
  induction fuel as [|fuel IH]; intros prev s adv c; simpl.
  - now left.
  - destruct (rmatch is_word r prev s (accept adv s)) as [[p' s']|] eqn:E.
    + apply rmatch_accept_suffix in E.
      destruct (length s' =? length s); intros H;
        apply in_app_or in H; destruct H as [H|H]; auto;
        apply IH in H; destruct H as [H|H]; auto.
      left. eapply suffix_In; eassumption.
    + destruct s as [|x s1]; [intros []|].
      intros [->|H]; [now left; left|].
      apply IH in H. destruct H as [H|H]; [left; now right | now right].
Qed.

Lemma accept_advances (s : str) (p : option char) (s' : str) r :
  accept true s p s' = Some r -> length s' <> length s.
Proof.
  unfold accept. simpl. destruct (length s' =? length s) eqn:E;
    [discriminate|]. intros _. now apply Nat.eqb_neq.
Qed.

(** The fuel given by [re_sub] is never used up: from [2 * length s + 2]
    on (one less after an empty match), more fuel changes nothing. *)
Lemma sub_loop_fuel r repl : forall f1 f2 prev (s : str) (adv : bool),
  2 * length s + (if adv then 1 else 2) <= f1 -> f1 <= f2 ->
  sub_loop is_word r repl f1 prev s adv = sub_loop is_word r repl f2 prev s adv.
Proof.
  induction f1 as [|f1 IH]; intros f2 prev s adv H1 H2.
  - destruct adv; lia.
  - destruct f2 as [|f2]; [lia|]. cbn [sub_loop].
    destruct (rmatch is_word r prev s (accept adv s)) as [[p' s']|] eqn:E.
    + pose proof (suffix_length _ _ (rmatch_accept_suffix _ _ _ _ _ _ E)) as Hl.
      destruct (length s' =? length s) eqn:El.
      * destruct adv.
        -- apply rmatch_suffix in E. destruct E as (p2 & s2 & E & _).
           pose proof (accept_inv _ _ _ _ _ E) as Er. injection Er as <- <-.
           apply accept_advances in E. apply Nat.eqb_eq in El. contradiction.
        -- f_equal. apply IH; simpl in *; lia.
      * apply Nat.eqb_neq in El. f_equal.
        apply IH; destruct adv; simpl in *; lia.
    + destruct s as [|c s1]; [reflexivity|]. f_equal.
      apply IH; simpl in *; destruct adv; lia.
Qed.

Lemma re_sub_chars r repl text c :
  In c (re_sub is_word r repl text) -> In c text \/ In c repl.
Proof. apply sub_loop_chars. Qed.

(** Substituting a one-character class rewrites the text character by
    character. *)
Lemma sub_loop_class p repl fuel : forall prev s,
  length s <= fuel ->
  sub_loop is_word (RSet p) repl fuel prev s false =
  flat_map (fun c => if p c then repl else [c]) s.
Proof.
  induction fuel as [|fuel IH]; intros prev s Hf; simpl.
  - destruct s; [reflexivity | simpl in Hf; lia].
  - destruct s as [|x s1]; [reflexivity|]. simpl in Hf |- *.
    destruct (p x) eqn:E.
    + unfold accept at 1. simpl. rewrite length_neq_cons.
      rewrite IH by lia. reflexivity.
    + rewrite IH by lia. reflexivity.
Qed.

(** A greedy run of one class, followed by an accepting continuation,
    stops at the first character outside the class. *)
Lemma star_run_generic (p : char -> bool) (s0 : str)
  (body : option char -> str ->
          (option char -> str -> option (option char * str)) ->
          option (option char * str)) :
  (forall prev s k,
      body prev s k =
      match s with
      | [] => None
      | x :: s' => if p x then k (Some x) s' else None
      end) ->
  forall n prev s,
  length s <= n ->
  exists p', star_loop body n prev s (accept false s0)
             = Some (p', dropWhile p s).
Proof.
  intros Hbody.
  induction n as [|n IH]; intros prev s Hn.
  - destruct s; [|simpl in Hn; lia]. simpl. now exists prev.
  - destruct s as [|x s1].
    + simpl. rewrite Hbody. now exists prev.
    + simpl in Hn. cbn [star_loop]. rewrite Hbody. destruct (p x) eqn:E.
      * replace (length s1 <? length (x :: s1)) with true
          by (symmetry; apply Nat.ltb_lt; simpl; lia).
        destruct (IH (Some x) s1 ltac:(lia)) as [p' Hp]. rewrite Hp.
        exists p'. simpl. now rewrite E.
      * exists prev. simpl. now rewrite E.
Qed.

Lemma star_class_run p s0 n prev s :
  length s <= n ->
  exists p', star_loop (rmatch is_word (RSet p)) n prev s (accept false s0)
             = Some (p', dropWhile p s).
Proof. apply star_run_generic. reflexivity. Qed.

Lemma collapse_run p s : collapse p true s = collapse p false (dropWhile p s).
Proof.
  induction s as [|x s IH]; simpl; [reflexivity|].
  destruct (p x) eqn:E; [exact IH | simpl; now rewrite E].
Qed.

Lemma rmatch_plus_class {A} p prev x s1 (k : option char -> str -> option A) :
  rmatch is_word (RPlus (RSet p)) prev (x :: s1) k =
  if p x then star_loop (rmatch is_word (RSet p)) (length s1) (Some x) s1 k
  else None.
Proof. reflexivity. Qed.

(** Substituting [\s+] by one space collapses every run of blanks. *)
Lemma sub_loop_runs p fuel : forall prev s,
  length s <= fuel ->
  sub_loop is_word (RPlus (RSet p)) [SPACE] fuel prev s false = collapse p false s.
Proof.
  induction fuel as [|fuel IH]; intros prev s Hf.
  - destruct s; [reflexivity | simpl in Hf; lia].
  - destruct s as [|x s1]; [reflexivity|].
    simpl in Hf. cbn [sub_loop collapse]. rewrite rmatch_plus_class.
    destruct (p x) eqn:E.
    + destruct (star_class_run p (x :: s1) (length s1) (Some x) s1 (le_n _))
        as [p' Hp].
      rewrite Hp.
      pose proof (suffix_length _ _ (dropWhile_suffix p s1)) as Hl.
      replace (length (dropWhile p s1) =? length (x :: s1)) with false
        by (symmetry; apply Nat.eqb_neq; simpl; lia).
      rewrite IH by lia. simpl. now rewrite collapse_run.
    + rewrite IH by lia. reflexivity.
Qed.
End MatcherFacts.


Lemma single_spaced_app (a b : str) :
  single_spaced (a ++ b) = true -> single_spaced a = true /\ single_spaced b = true.
Proof.
  induction a as [|x a IH]; intros H; [now split|].
  destruct a as [|y a].
  - split; [reflexivity|]. destruct b as [|z b]; [reflexivity|].
    simpl in H. apply andb_prop in H. apply H.
  - change (negb ((x =? SPACE)%N && (y =? SPACE)%N)
            && single_spaced ((y :: a) ++ b) = true) in H.
    apply andb_prop in H. destruct H as [H1 H2]. apply IH in H2.
    destruct H2 as [H2 H3]. split; [|exact H3].
    change (negb ((x =? SPACE)%N && (y =? SPACE)%N)
            && single_spaced (y :: a) = true).
    now rewrite H1, H2.
Qed.

Lemma rev_dropWhile_rev {A} (p : A -> bool) (l : list A) :
  l = rev (dropWhile p (rev l)) ++ rev (takeWhile p (rev l)).
Proof.
  rewrite <- rev_app_distr, <- take_drop_while. symmetry. apply rev_involutive.
Qed.

(** [strip] keeps a contiguous piece of the text. *)
Lemma py_strip_piece p s :
  exists a b, s = a ++ py_strip p s ++ b.
Proof.
  unfold py_strip.
  exists (takeWhile p s), (rev (takeWhile p (rev (dropWhile p s)))).
  rewrite <- rev_dropWhile_rev. apply take_drop_while.
Qed.

Lemma py_strip_In p s c : In c (py_strip p s) -> In c s.
Proof.
  destruct (py_strip_piece p s) as (a & b & E). intros H. rewrite E.
  apply in_or_app. right. apply in_or_app. now left.
Qed.

Lemma last_rev_cons {A} (x d : A) (l : list A) : last (rev (x :: l)) d = x.
Proof. simpl. apply last_last. Qed.

(** After [strip], neither end satisfies the stripped class. *)
Lemma py_strip_ends p s x t :
  py_strip p s = x :: t -> p x = false /\ p (last (x :: t) x) = false.
Proof.
  unfold py_strip. intros E.
  destruct (dropWhile p (rev (dropWhile p s))) as [|z zs] eqn:Ez;
    [discriminate|].
  pose proof (dropWhile_head _ _ _ _ Ez) as Hz.
  split.
  - (* the head of the result is the head of [dropWhile p s] *)
    pose proof (rev_dropWhile_rev p (dropWhile p s)) as Hy.
    rewrite Ez, E in Hy.
    destruct (dropWhile p s) as [|y ys] eqn:Ey; [discriminate|].
    injection Hy as -> _. exact (dropWhile_head _ _ _ _ Ey).
  - rewrite <- E. now rewrite last_rev_cons.
Qed.

Section CollapseFacts.
Variable is_space : char -> bool.
Hypothesis space_is_space : is_space SPACE = true.

Lemma collapse_chars b s c :
  In c (collapse is_space b s) -> c = SPACE \/ (In c s /\ is_space c = false).
Proof.
  revert b. induction s as [|x s IH]; intros b; simpl; [intros []|].
  destruct (is_space x) eqn:E.
  - destruct b; [intros H | intros [H|H]; [now left|]];
      (apply IH in H; destruct H as [H|[H1 H2]]; [now left | right; auto]).
  - intros [<-|H]; [right; auto|].
    apply IH in H. destruct H as [H|[H1 H2]]; [now left | right; auto].
Qed.

Lemma collapse_true_head s x t :
  collapse is_space true s = x :: t -> is_space x = false.
Proof.
  induction s as [|y s IH]; simpl; [discriminate|].
  destruct (is_space y) eqn:E; [exact IH | now intros [= <- _]].
Qed.

Lemma not_space_neq x : is_space x = false -> (x =? SPACE)%N = false.
Proof.
  intros H. apply N.eqb_neq. intros ->. congruence.
Qed.

Lemma collapse_single_spaced b s : single_spaced (collapse is_space b s) = true.
Proof.
  revert b. induction s as [|x s IH]; intros b; [reflexivity|].
  simpl. destruct (is_space x) eqn:E.
  - destruct b; [apply IH|].
    destruct (collapse is_space true s) as [|y t] eqn:Ec; [reflexivity|].
    change (negb ((SPACE =? SPACE)%N && (y =? SPACE)%N)
            && single_spaced (y :: t) = true).
    rewrite (not_space_neq y (collapse_true_head _ _ _ Ec)).
    rewrite <- Ec. simpl. apply IH.
  - destruct (collapse is_space false s) as [|y t] eqn:Ec; [reflexivity|].
    change (negb ((x =? SPACE)%N && (y =? SPACE)%N)
            && single_spaced (y :: t) = true).
    rewrite (not_space_neq x E). rewrite <- Ec. simpl. apply IH.
Qed.

(** Collapsing the blanks of a text made of lowercase letters and
    blanks, then stripping it, gives the promised shape. *)
Lemma strip_collapse_canonical s :
  Forall (fun c => is_ascii_lower c = true \/ is_space c = true) s ->
  canonical (py_strip is_space (collapse is_space false s)) = true.
Proof.
  intros Hs. unfold canonical.
  set (t := collapse is_space false s).
  destruct (py_strip_piece is_space t) as (a & b & Et).
  apply andb_true_intro; split; [apply andb_true_intro; split|].
  - apply forallb_forall. intros c Hc. apply py_strip_In in Hc.
    apply collapse_chars in Hc. destruct Hc as [->|[Hc Hn]].
    + apply orb_true_intro. right. reflexivity.
    + rewrite Forall_forall in Hs. destruct (Hs c Hc) as [H|H];
        [now rewrite H | congruence].
  - pose proof (collapse_single_spaced false s) as H. fold t in H.
    rewrite Et in H. apply single_spaced_app in H. destruct H as [_ H].
    apply single_spaced_app in H. apply H.
  - destruct (py_strip is_space t) as [|x u] eqn:E; [reflexivity|].
    destruct (py_strip_ends _ _ _ _ E) as [H1 H2]. unfold trimmed.
    now rewrite (not_space_neq _ H1), (not_space_neq _ H2).
Qed.

(** A text of blanks only normalizes to the empty string. *)
Lemma strip_collapse_blank s :
  Forall (fun c => is_space c = true) s ->
  py_strip is_space (collapse is_space false s) = [].
Proof.
  intros Hs. unfold py_strip.
  rewrite (dropWhile_all is_space (collapse is_space false s));
    [reflexivity|].
  apply Forall_forall. intros c Hc. apply collapse_chars in Hc.
  destruct Hc as [->|[Hc Hn]]; [exact space_is_space|].
  rewrite Forall_forall in Hs. rewrite (Hs c Hc) in Hn. discriminate.
Qed.
End CollapseFacts.

Section NormalizerFacts.
Variable str_lower : str -> str.
Variable is_space : char -> bool.
Variable is_word : char -> bool.
Variable is_digit : char -> bool.
Hypothesis lower_no_upper :
  forall s c, In c (str_lower s) -> is_ascii_upper c = false.
Hypothesis space_is_space : is_space SPACE = true.

Local Notation "'clean'" :=
  (clean_text_harmonized str_lower is_space is_word is_digit).
Local Notation "'pre_spaces'" :=
  (before_spaces str_lower is_space is_word is_digit).

Lemma clean_str text :
  clean (InScalar (SStr text)) =
  Return (py_strip is_space (collapse is_space false (pre_spaces text))).
Proof.
  unfold clean_text_harmonized, before_spaces. simpl.
  unfold sub at 1, re_sub, re_spaces. rewrite sub_loop_runs by lia.
  reflexivity.
Qed.

Lemma sub_chars r text c :
  In c (sub is_word r text) -> In c text \/ c = SPACE.
Proof.
  intros H. apply re_sub_chars in H. destruct H as [H|[H|[]]]; auto.
Qed.

Lemma before_spaces_chars text c :
  In c (pre_spaces text) ->
  (In c (str_lower text) /\ (is_ascii_lower c = true \/ is_space c = true))
  \/ c = SPACE.
Proof.
  unfold before_spaces, sub at 1, re_sub, re_nonletter.
  rewrite sub_loop_class by lia. intros H. apply in_flat_map in H.
  destruct H as (x & Hx & Hc).
  destruct (negb _) eqn:E.
  - destruct Hc as [<-|[]]. now right.
  - destruct Hc as [<-|[]].
    repeat (apply sub_chars in Hx; destruct Hx as [Hx| ->]);
      try (now right).
    left. split; [exact Hx|].
    apply negb_false_iff in E. rewrite (lower_no_upper _ _ Hx) in E.
    rewrite orb_false_r in E. now apply orb_prop in E.
Qed.

Lemma before_spaces_shape text :
  Forall (fun c => is_ascii_lower c = true \/ is_space c = true)
         (pre_spaces text).
Proof.
  apply Forall_forall. intros c Hc. apply before_spaces_chars in Hc.
  destruct Hc as [[_ H]| ->]; [exact H | now right].
Qed.

(** Every string normalizes to a canonical text. *)
Lemma clean_str_canonical text :
  exists out, clean (InScalar (SStr text)) = Return out /\ canonical out = true.
Proof.
  eexists. split; [apply clean_str|].
  apply strip_collapse_canonical; [exact space_is_space|].
  apply before_spaces_shape.
Qed.

(** A string without letters normalizes to the empty text. *)
Lemma clean_no_letters text :
  (forall c, In c (str_lower text) -> is_ascii_lower c = false) ->
  clean (InScalar (SStr text)) = Return [].
Proof.
  intros H. rewrite clean_str. f_equal.
  apply strip_collapse_blank; [exact space_is_space|].
  apply Forall_forall. intros c Hc. apply before_spaces_chars in Hc.
  destruct Hc as [[Hc [Hl|Hs]]| ->]; auto.
  rewrite (H c Hc) in Hl. discriminate.
Qed.

(** A scalar that is not a string normalizes to the empty text. *)
Lemma clean_non_string v :
  (forall s, v <> SStr s) -> clean (InScalar v) = Return [].
Proof.
  intros H. destruct v; try reflexivity. now destruct (H s).
Qed.
End NormalizerFacts.


Local Open Scope Q_scope.

(** ** Rounding *)

Lemma round_half_even_cases x :
  (round_half_even x = Qfloor x /\ x - inject_Z (Qfloor x) <= 1 # 2) \/
  (round_half_even x = (Qfloor x + 1)%Z /\ 1 # 2 <= x - inject_Z (Qfloor x)).
Proof.
  unfold round_half_even.
  destruct (Qcompare (x - inject_Z (Qfloor x)) (1 # 2)) eqn:E.
  - apply Qeq_alt in E. destruct (Z.even (Qfloor x)); [left | right];
      (split; [reflexivity | rewrite E; apply Qle_refl]).
  - apply Qlt_alt in E. left. split; [reflexivity | now apply Qlt_le_weak].
  - apply Qgt_alt in E. right. split; [reflexivity | now apply Qlt_le_weak].
Qed.

Lemma inject_Z_succ z : inject_Z (z + 1) == inject_Z z + 1.
Proof. rewrite inject_Z_plus. reflexivity. Qed.

(** The nearest integer is within one half. *)
Lemma round_half_even_near x :
  - (1 # 2) <= inject_Z (round_half_even x) - x <= 1 # 2.
Proof.
  pose proof (Qfloor_le x) as Hlo. pose proof (Qlt_floor x) as Hhi.
  rewrite inject_Z_succ in Hhi.
  destruct (round_half_even_cases x) as [[-> H]|[-> H]];
    [|rewrite inject_Z_succ];
    generalize dependent (inject_Z (Qfloor x)); intros f ? ? ?. all: lra.
Qed.

(** Rounding does not cross an integer. *)
Lemma round_half_even_between (lo hi : Z) x :
  inject_Z lo <= x -> x <= inject_Z hi ->
  (lo <= round_half_even x <= hi)%Z.
Proof.
  intros Hlo Hhi.
  pose proof (Qfloor_resp_le _ _ Hlo) as Flo. rewrite Qfloor_Z in Flo.
  pose proof (Qfloor_resp_le _ _ Hhi) as Fhi. rewrite Qfloor_Z in Fhi.
  destruct (round_half_even_cases x) as [[-> H]|[-> H]]; [lia|].
  split; [lia|].
  destruct (Z.eq_dec (Qfloor x) hi) as [E|E]; [|lia].
  rewrite E in H. lra.
Qed.

Lemma py_round_2 x :
  py_round x 2 == inject_Z (round_half_even (x * 100)) / 100.
Proof. unfold py_round. rewrite Qred_correct. reflexivity. Qed.

(** Two-decimal rounding moves a value by at most 0.005. *)
Lemma py_round_2_near x : - (1 # 200) <= py_round x 2 - x <= 1 # 200.
Proof.
  rewrite py_round_2. pose proof (round_half_even_near (x * 100)) as H.
  set (n := inject_Z (round_half_even (x * 100))) in *.
  assert (E : n / 100 == n * (1 # 100)) by (unfold Qdiv; reflexivity).
  rewrite E. lra.
Qed.

(** It keeps percentages inside [0, 100]. *)
Lemma py_round_2_percent x : 0 <= x <= 100 -> 0 <= py_round x 2 <= 100.
Proof.
  intros [Hlo Hhi]. rewrite py_round_2.
  destruct (round_half_even_between 0 10000 (x * 100)) as [H0 H1].
  - change (inject_Z 0) with 0. lra.
  - change (inject_Z 10000) with 10000. lra.
  - set (n := round_half_even (x * 100)) in *.
    assert (E : inject_Z n / 100 == inject_Z n * (1 # 100))
      by (unfold Qdiv; reflexivity).
    rewrite E.
    assert (0 <= inject_Z n) by (change 0 with (inject_Z 0); now rewrite <- Zle_Qle).
    assert (inject_Z n <= 10000)
      by (change 10000 with (inject_Z 10000); now rewrite <- Zle_Qle).
    lra.
Qed.

(** ** Sums *)

Lemma qlen_cons {A} (x : A) l : qlen (x :: l) == qlen l + 1.
Proof.
  unfold qlen. simpl length. rewrite Nat2Z.inj_succ, <- Z.add_1_r.
  apply inject_Z_succ.
Qed.

Lemma qsum_percent_near probs :
  - (qlen probs * (1 # 200))
  <= qsum (map percent probs) - 100 * qsum probs
  <= qlen probs * (1 # 200).
Proof.
  induction probs as [|p l IH].
  - change (qlen (@nil Q)) with 0. simpl. lra.
  - rewrite qlen_cons. simpl.
    pose proof (py_round_2_near (p * 100)) as H. unfold percent at 1 3. lra.
Qed.

Lemma percent_range probs :
  Forall (fun p => 0 <= p <= 1) probs ->
  Forall (fun v => 0 <= v <= 100) (map percent probs).
Proof.
  intros H. apply Forall_map. eapply Forall_impl; [|exact H].
  intros p [Hp1 Hp2]. apply py_round_2_percent. split; lra.
Qed.

Lemma qsum_scale (t : Q) l : qsum (map (fun e => e / t) l) == qsum l / t.
Proof.
  induction l as [|x l IH]; simpl.
  - unfold Qdiv. lra.
  - rewrite IH. unfold Qdiv. lra.
Qed.

Lemma qsum_pos l : Forall (fun e => 0 < e) l -> 0 <= qsum l.
Proof. induction 1; simpl; lra. Qed.

Lemma qsum_upper l e : Forall (fun e => 0 < e) l -> In e l -> e <= qsum l.
Proof.
  induction 1 as [|x l Hx Hl IH]; [intros []|].
  simpl. pose proof (qsum_pos _ Hl). intros [->|H']; [lra|].
  specialize (IH H'). lra.
Qed.

(** The softmax of a non-empty vector is a distribution. *)
Lemma softmax_distribution (l : list Q) :
  l <> [] -> Forall (fun e => 0 < e) l ->
  distribution (map (fun e => e / qsum l) l).
Proof.
  intros Hne Hpos.
  assert (Ht : 0 < qsum l).
  { destruct l as [|x l]; [congruence|]. inversion Hpos; subst. simpl.
    pose proof (qsum_pos l ltac:(assumption)). lra. }
  split.
  - apply Forall_map. apply Forall_forall. intros e He.
    pose proof (qsum_upper _ _ Hpos He) as Hle.
    rewrite Forall_forall in Hpos. specialize (Hpos e He).
    split.
    + apply Qle_shift_div_l; [exact Ht | lra].
    + apply Qle_shift_div_r; [exact Ht | lra].
  - rewrite qsum_scale. field. lra.
Qed.


(** ** Runs of the call-log monad *)

Lemma bind_Return_inv {A B} (m : M A) (f : A -> M B) b t :
  bind m f = (Return b, t) ->
  exists a t1 t2, m = (Return a, t1) /\ f a = (Return b, t2) /\ t = t1 ++ t2.
Proof.
  destruct m as [[a|e] t1]; simpl; [|discriminate].
  destruct (f a) as [r t2] eqn:E. intros [= -> <-].
  now exists a, t1, t2.
Qed.

Lemma bind_run {A B} (m : M A) (f : A -> M B) a t1 :
  m = (Return a, t1) -> bind m f = prefix_log t1 (f a).
Proof. intros ->. simpl. now destruct (f a). Qed.




Lemma ret_inv {A} (a b : A) t : ret a = (Return b, t) -> a = b /\ t = [].
Proof. now intros [= -> <-]. Qed.

Lemma lift_inv {A} (o : outcome A) b t :
  lift o = (Return b, t) -> o = Return b /\ t = [].
Proof. now intros [= -> <-]. Qed.

Lemma call_inv {A} obj m (x b : A) t :
  call obj m x = (Return b, t) -> x = b /\ t = [Call obj m].
Proof. now intros [= -> <-]. Qed.

Lemma py_index_inv {A} (a : list A) i b t :
  py_index a i = (Return b, t) -> nth_error a i = Some b /\ t = [].
Proof.
  unfold py_index. destruct (nth_error a i); [|discriminate].
  now intros [= -> <-].
Qed.

Lemma getattr_inv {A} (a : option A) b t :
  getattr a = (Return b, t) -> a = Some b /\ t = [].
Proof. destruct a; [|discriminate]. now intros [= -> <-]. Qed.

Lemma as_float_inv x b t : as_float x = (Return b, t) -> x = Some b /\ t = [].
Proof. destruct x; [|discriminate]. now intros [= -> <-]. Qed.

(** Splitting a successful run at its first [bind], naming the value
    and the run of the first computation. *)
Tactic Notation "split_bind" hyp(H) "as" simple_intropattern(a) ident(Ha) :=
  apply bind_Return_inv in H;
  destruct H as (a & ?t & ?t & Ha & H & ?Ht).

Ltac bind_inv H :=
  let a := fresh "a" in
  let t1 := fresh "t" in
  let t2 := fresh "t" in
  let H1 := fresh "Hm" in
  let Ht := fresh "Ht" in
  apply bind_Return_inv in H;
  destruct H as (a & t1 & t2 & H1 & H & Ht).

Lemma str_eqb_eq a b : str_eqb a b = true <-> a = b.
Proof.
  revert b. induction a as [|x a IH]; intros [|y b]; simpl;
    try (split; [discriminate | congruence]); [tauto|].
  rewrite andb_true_iff, N.eqb_eq, IH. split; [intros [-> ->] | intros [= -> ->]]; auto.
Qed.

Lemma label_eqb_eq a b : label_eqb a b = true -> a = b.
Proof.
  destruct a, b; simpl; try discriminate.
  - intros H. apply str_eqb_eq in H. now subst.
  - intros H. apply Z.eqb_eq in H. now subst.
Qed.

Lemma index_from_inv l x : forall i n t,
  index_from i l x = (Return n, t) ->
  t = [] /\ (i <= n)%nat /\ nth_error l (n - i) = Some x.
Proof.
  induction l as [|y l IH]; intros i n t; simpl; [discriminate|].
  destruct (label_eqb y x) eqn:E.
  - intros H. apply ret_inv in H. destruct H as [-> ->].
    apply label_eqb_eq in E. subst. rewrite Nat.sub_diag. auto.
  - intros H. apply IH in H. destruct H as (-> & Hle & Hn).
    repeat split; [lia|].
    replace (n - i)%nat with (S (n - S i)) by lia. exact Hn.
Qed.

Lemma list_index_inv l x n t :
  list_index l x = (Return n, t) -> t = [] /\ nth_error l n = Some x.
Proof.
  intros H. apply index_from_inv in H. destruct H as (-> & _ & H).
  now rewrite Nat.sub_0_r in H.
Qed.

(** ** The dict comprehension *)

Lemma dict_set_fresh {V} (d : dict V) k v :
  ~ In k (dict_keys d) -> dict_set d k v = d ++ [(k, v)].
Proof.
  induction d as [|[k' v'] d IH]; simpl; [reflexivity|].
  intros H. destruct (str_eqb k' k) eqn:E.
  - apply str_eqb_eq in E. tauto.
  - rewrite IH; [reflexivity | tauto].
Qed.

Lemma dict_keys_app {V} (a b : dict V) :
  dict_keys (a ++ b) = dict_keys a ++ dict_keys b.
Proof. apply map_app. Qed.

(** With distinct names, the comprehension lists one entry per class,
    in order. *)
Lemma confidences_into_distinct classes names :
  Forall2 (fun c n => label_strip c = Return n) classes names ->
  NoDup names ->
  forall probs acc,
    (forall n, In n names -> ~ In n (dict_keys acc)) ->
    confidences_into acc (combine classes probs)
    = Return (acc ++ combine names (map percent probs)).
Proof.
  induction 1 as [|c n cs ns Hc Hrest IH]; intros Hnd probs acc Hacc.
  - simpl. now rewrite app_nil_r.
  - destruct probs as [|p ps]; simpl; [now rewrite app_nil_r|].
    rewrite Hc. inversion Hnd as [|? ? Hn Hnd']; subst.
    rewrite dict_set_fresh by (apply Hacc; now left).
    rewrite IH; [now rewrite <- app_assoc | exact Hnd' |].
    intros m Hm. rewrite dict_keys_app, in_app_iff. simpl.
    intros [H'|[->|[]]]; [|contradiction].
    apply (Hacc m); [now right | exact H'].
Qed.

Lemma dict_values_combine {V} (ks : list str) (vs : list V) :
  length ks = length vs -> dict_values (combine ks vs) = vs.
Proof.
  revert vs. induction ks as [|k ks IH]; intros [|v vs]; simpl;
    try discriminate; [reflexivity|].
  intros [= H]. unfold dict_values in *. simpl. now rewrite IH.
Qed.

Lemma class_confidences_distinct classes probs d :
  distinct_names classes -> length classes = length probs ->
  class_confidences classes probs = Return d ->
  dict_values d = map percent probs.
Proof.
  intros (names & Hn & Hnd) Hlen. unfold class_confidences.
  rewrite (confidences_into_distinct _ _ Hn Hnd) by (intros ? ? []).
  intros [= <-]. simpl. apply dict_values_combine.
  rewrite length_map, <- Hlen. symmetry. eapply Forall2_length; eassumption.
Qed.

Lemma percentages_of_distribution probs :
  distribution probs -> percentages (length probs) (map percent probs).
Proof.
  intros [Hr Hs]. 
  assert (Hb : Qabs (qsum (map percent probs) - 100)
               <= inject_Z (Z.of_nat (length probs)) * (1 # 200)).
  { apply Qabs_Qle_condition. pose proof (qsum_percent_near probs) as H.
    unfold qlen in H. rewrite Hs in H. lra. }
  split; [now apply percent_range|]. split; [exact Hb|].
  intros Hk. eapply Qle_trans; [exact Hb|].
  assert (inject_Z (Z.of_nat (length probs)) <= 20).
  { change 20 with (inject_Z 20). rewrite <- Zle_Qle. lia. }
  lra.
Qed.

Lemma mapping_percentages classes probs d :
  distinct_names classes -> length classes = length probs ->
  distribution probs ->
  class_confidences classes probs = Return d ->
  percentages (length classes) (dict_values d).
Proof.
  intros Hn Hl Hd Hc. rewrite (class_confidences_distinct _ _ _ Hn Hl Hc), Hl.
  now apply percentages_of_distribution.
Qed.

(** ** Sorted lists *)

Lemma StronglySorted_app_inv {A} (R : A -> A -> Prop) l1 l2 :
  StronglySorted R (l1 ++ l2) ->
  StronglySorted R l1 /\ StronglySorted R l2 /\
  (forall x y, In x l1 -> In y l2 -> R x y).
Proof.
  induction l1 as [|a l1 IH]; simpl; intros H.
  - repeat split; [constructor | exact H | intros ? ? []].
  - inversion H as [|? ? Hs Hf]; subst. destruct (IH Hs) as (H1 & H2 & H3).
    rewrite Forall_app in Hf. destruct Hf as [Hf1 Hf2].
    repeat split; [now constructor | exact H2 |].
    intros x y [->|Hx] Hy; [|now apply H3].
    rewrite Forall_forall in Hf2. now apply Hf2.
Qed.

Lemma StronglySorted_app {A} (R : A -> A -> Prop) l1 l2 :
  StronglySorted R l1 -> StronglySorted R l2 ->
  (forall x y, In x l1 -> In y l2 -> R x y) ->
  StronglySorted R (l1 ++ l2).
Proof.
  induction 1 as [|a l1 Hs IH Hf]; simpl; intros H2 H; [exact H2|].
  constructor.
  - apply IH; [exact H2|]. intros x y Hx. apply H. now right.
  - rewrite Forall_app. split; [exact Hf|].
    apply Forall_forall. intros y Hy. apply H; [now left | exact Hy].
Qed.

Lemma StronglySorted_rev {A} (R : A -> A -> Prop) l :
  StronglySorted R l -> StronglySorted (fun x y => R y x) (rev l).
Proof.
  induction 1 as [|a l Hs IH Hf]; simpl; [constructor|].
  apply StronglySorted_app; [exact IH | repeat constructor |].
  intros x y Hx [<-|[]]. rewrite Forall_forall in Hf.
  apply Hf. now apply in_rev.
Qed.

Section Window.
Variable np_argsort : list Q -> list nat.
Hypothesis argsort_ok : argsort_spec np_argsort.

(** The search window holds the largest coefficients, largest first. *)
Lemma ranked_window_top coefs : top_ranked coefs (ranked_window np_argsort coefs).
Proof.
  destruct (argsort_ok coefs) as [Hperm Hsort].
  unfold ranked_window, last_n.
  set (a := np_argsort coefs) in *.
  set (k := (length a - 200)%nat).
  pose proof (Permutation_length Hperm) as Hlen. rewrite length_seq in Hlen.
  pose proof (firstn_skipn k a) as Esplit.
  rewrite <- Esplit in Hsort. apply StronglySorted_app_inv in Hsort.
  destruct Hsort as (_ & Hs2 & Hcross).
  assert (Hnd : NoDup a).
  { eapply Permutation_NoDup; [symmetry; exact Hperm | apply seq_NoDup]. }
  assert (Hin : forall i, In i a <-> (i < length coefs)%nat).
  { intros i. split; intros H.
    - eapply Permutation_in in H; [|exact Hperm]. apply in_seq in H. lia.
    - eapply Permutation_in; [symmetry; exact Hperm|]. apply in_seq. lia. }
  assert (Hsub : forall i, In i (skipn k a) -> In i a).
  { intros i H. rewrite <- Esplit. apply in_or_app. now right. }
  repeat split.
  - rewrite length_rev, length_skipn. unfold k. lia.
  - apply NoDup_rev. rewrite <- Esplit in Hnd.
    now apply NoDup_app_remove_l in Hnd.
  - apply Forall_forall. intros i Hi. apply in_rev in Hi.
    apply Hin, Hsub, Hi.
  - now apply StronglySorted_rev.
  - intros i j Hi Hj Hnj. apply in_rev in Hi.
    apply Hcross; [|exact Hi].
    apply Hin in Hj. rewrite <- Esplit in Hj. apply in_app_or in Hj.
    destruct Hj as [Hj|Hj]; [exact Hj|].
    exfalso. apply Hnj. now apply in_rev in Hj.
Qed.
End Window.

(** ** Comprehensions over the window *)

Lemma mapM_inv {A B} (f : A -> M B) l : forall ys t,
  mapM f l = (Return ys, t) ->
  Forall2 (fun x y => exists t', f x = (Return y, t')) l ys.
Proof.
  induction l as [|x l IH]; intros ys t H; simpl in H.
  - apply ret_inv in H. destruct H as [<- _]. constructor.
  - bind_inv H. bind_inv H. apply ret_inv in H. destruct H as [<- _].
    constructor; [now exists t0 | eapply IH; eassumption].
Qed.

Lemma feature_entry_inv names coefs i e t :
  feature_entry names coefs i = (Return e, t) ->
  e = ranked_entry names coefs i.
Proof.
  unfold feature_entry. intros H. bind_inv H. bind_inv H.
  apply ret_inv in H. destruct H as [<- _].
  apply py_index_inv in Hm, Hm0. destruct Hm as [Hn _], Hm0 as [Hc _].
  unfold ranked_entry.
  now rewrite (nth_error_nth _ _ _ Hn), (nth_error_nth _ _ _ Hc).
Qed.

Lemma input_entry_inv names coefs words i es t :
  input_entry names coefs words i = (Return es, t) ->
  es = if str_in (nth i names []) words
       then [ranked_entry names coefs i] else [].
Proof.
  unfold input_entry. intros H. bind_inv H.
  apply py_index_inv in Hm. destruct Hm as [Hn _].
  rewrite (nth_error_nth _ _ _ Hn).
  destruct (str_in a words).
  - bind_inv H. apply ret_inv in H. destruct H as [<- _].
    now rewrite (feature_entry_inv _ _ _ _ _ Hm).
  - apply ret_inv in H. now destruct H as [<- _].
Qed.

Lemma global_entries names coefs idx g t :
  mapM (feature_entry names coefs) idx = (Return g, t) ->
  g = map (ranked_entry names coefs) idx.
Proof.
  intros H. apply mapM_inv in H.
  induction H as [|i e idx g (t' & He) _ IH]; [reflexivity|].
  simpl. now rewrite (feature_entry_inv _ _ _ _ _ He), IH.
Qed.

Lemma input_entries names coefs words idx found t :
  mapM (input_entry names coefs words) idx = (Return found, t) ->
  concat found =
  filter (fun e => str_in (fst e) words) (map (ranked_entry names coefs) idx).
Proof.
  intros H. apply mapM_inv in H.
  induction H as [|i es idx found (t' & He) _ IH]; [reflexivity|].
  simpl. rewrite IH.
  rewrite (input_entry_inv _ _ _ _ _ _ He).
  unfold ranked_entry at 3. simpl. now destruct (str_in _ words).
Qed.



Lemma str_eqb_refl a : str_eqb a a = true.
Proof. now apply str_eqb_eq. Qed.




Section Cascade.
Variable str_lower : str -> str.
Variable is_space : char -> bool.
Variable is_word : char -> bool.
Variable is_digit : char -> bool.
Variable matrix : Type.
Variable np_exp : Q -> Q.
Variable np_argsort : list Q -> list nat.
Variable binary_model : classifier matrix.
Variable binary_vectorizer : vectorizer matrix.
Variable granular_model : classifier matrix.

Local Notation "'clean'" :=
  (clean_text_harmonized str_lower is_space is_word is_digit).
Local Notation "'fallback'" := (get_svc_confidence_fallback matrix np_exp).
Local Notation "'binary'" := (binary_stage matrix np_exp binary_model).
Local Notation "'granular'" :=
  (granular_stage matrix np_exp binary_vectorizer granular_model).
Local Notation "'attribution'" :=
  (feature_attribution is_space matrix np_argsort binary_vectorizer
     granular_model).
Local Notation "'analysis'" :=
  (granular_analysis is_space matrix np_exp np_argsort binary_vectorizer
     granular_model).
Local Notation "'engine'" :=
  (layered_predict str_lower is_space is_word is_digit matrix np_exp
     np_argsort binary_model binary_vectorizer granular_model).
Local Notation "'vectorize'" :=
  (Call (vec_id matrix binary_vectorizer) M_transform).
Local Notation "'bin_vec_of' t" :=
  (transform matrix binary_vectorizer [t]) (at level 10).

(** *** The confidence estimator *)

Lemma predicted_confidence_cases C :
  (50 <= C /\ threshold_label C = 1%Z /\
   predicted_confidence (threshold_label C) C = C) \/
  (C < 50 /\ threshold_label C = 0%Z /\
   predicted_confidence (threshold_label C) C = 100 - C).
Proof.
  unfold threshold_label, predicted_confidence.
  destruct (Qle_bool 50 C) eqn:E.
  - left. apply Qle_bool_iff in E. auto.
  - right. split; [|auto]. apply Qnot_le_lt. intros H.
    apply Qle_bool_iff in H. congruence.
Qed.

(** The scalar branch of the fallback. *)
Lemma fallback_margin model vector f s rest :
  decision_function matrix model = Some f ->
  f vector = Margin s :: rest ->
  let C := 1 / (1 + np_exp (- s)) * 100 in
  fallback model vector =
  (Return (LInt (threshold_label C), Some C,
           predicted_confidence (threshold_label C) C, None),
   [Call (clf_id matrix model) M_decision_function]).
Proof.
  intros Hf Hrows C. unfold get_svc_confidence_fallback.
  rewrite Hf. simpl. rewrite Hrows. reflexivity.
Qed.

Lemma fallback_inv model vector pred C conf all t :
  fallback model vector = (Return (pred, Some C, conf, all), t) ->
  pred = LInt (threshold_label C) /\
  conf = predicted_confidence (threshold_label C) C /\ all = None.
Proof.
  unfold get_svc_confidence_fallback. intros H.
  bind_inv H. bind_inv H. bind_inv H.
  destruct a1 as [s|v].
  - apply ret_inv in H. destruct H as [H _]. injection H as <- <- <- <-. auto.
  - bind_inv H. bind_inv H. bind_inv H. bind_inv H.
    apply ret_inv in H. destruct H as [H _]. discriminate.
Qed.

(** Both binary paths decide and report the same way. *)
Lemma binary_stage_inv bin_vec pred C conf t :
  binary bin_vec = (Return (pred, Some C, conf), t) ->
  pred = LInt (threshold_label C) /\
  conf = predicted_confidence (threshold_label C) C.
Proof.
  unfold binary_stage. destruct (predict_proba matrix binary_model) as [proba|].
  - intros H. bind_inv H. bind_inv H. bind_inv H.
    apply ret_inv in H. destruct H as [H _]. injection H as <- <- <-. auto.
  - intros H. bind_inv H. destruct a as [[[p c] cp] all].
    apply ret_inv in H. destruct H as [H _]. injection H as -> -> ->.
    apply fallback_inv in Hm. tauto.
Qed.

(** *** The engine, step by step *)

Lemma engine_empty text :
  clean text = Return [] -> engine text = (Return error_payload, []).
Proof. intros H. unfold layered_predict. rewrite H. reflexivity. Qed.

Lemma engine_gate text text_clean pred C conf tb :
  clean text = Return text_clean -> text_clean <> [] ->
  binary (transform matrix binary_vectorizer [text_clean])
  = (Return (pred, Some C, conf), tb) ->
  engine text =
  prefix_log (vectorize :: tb)
    (if Qle_bool 60 C
     then ret (true_payload (py_round conf 2) (py_round C 2))
     else analysis text_clean C (py_round conf 2) (py_round C 2)).
Proof.
  intros Hc Hne Hb. unfold layered_predict. rewrite Hc.
  destruct text_clean as [|c s]; [congruence|].
  cbn [lift bind call]. rewrite Hb. cbn [bind as_float ret].
  destruct (Qle_bool 60 C).
  - reflexivity.
  - unfold prefix_log.
    destruct (analysis (c :: s) C (py_round conf 2) (py_round C 2)) as [o t].
    simpl. reflexivity.
Qed.

Lemma analysis_inv text_clean C bc ct r t :
  analysis text_clean C bc ct = (Return r, t) ->
  exists lbl top all ti tg gp tg' tf,
    granular text_clean = (Return (lbl, top, all), tg') /\
    attribution lbl text_clean = (Return (ti, tg), tf) /\
    label_strip lbl = Return gp /\
    t = tg' ++ tf /\
    r = full_payload
          (if Qle_bool 50 C then py "Unknown / Borderline" else py "Fake")
          bc ct gp (py_round top 2) all ti tg.
Proof.
  unfold granular_analysis. intros H.
  bind_inv H. destruct a as [[lbl top] all].
  bind_inv H. destruct a as [ti tg].
  bind_inv H. apply lift_inv in Hm1. destruct Hm1 as [Hs ->].
  apply ret_inv in H. destruct H as [<- ->].
  exists lbl, top, all, ti, tg, a, t0, t2. subst.
  repeat split; try assumption. now rewrite !app_nil_r.
Qed.

(** Every successful run is one of the three outcomes of the cascade. *)
Lemma engine_inv text r t :
  engine text = (Return r, t) ->
  (clean text = Return [] /\ r = error_payload /\ t = []) \/
  exists text_clean pred C conf tb,
    clean text = Return text_clean /\ text_clean <> [] /\
    binary (transform matrix binary_vectorizer [text_clean])
    = (Return (pred, Some C, conf), tb) /\
    ((60 <= C /\ r = true_payload (py_round conf 2) (py_round C 2) /\
      t = vectorize :: tb) \/
     (C < 60 /\ exists ta,
         analysis text_clean C (py_round conf 2) (py_round C 2)
         = (Return r, ta) /\ t = vectorize :: tb ++ ta)).
Proof.
  intros H. pose proof H as H0. unfold layered_predict in H.
  bind_inv H. apply lift_inv in Hm. destruct Hm as [Hc ->].
  destruct a as [|c s].
  - left. apply ret_inv in H. destruct H as [<- ->]. subst. auto.
  - right. bind_inv H. apply call_inv in Hm. destruct Hm as [<- ->].
    bind_inv H. destruct a as [[pred oc] conf].
    bind_inv H. apply as_float_inv in Hm0. destruct Hm0 as [-> ->].
    exists (c :: s), pred, a, conf, t0.
    split; [exact Hc|]. split; [discriminate|]. split; [exact Hm|].
    destruct (Qle_bool 60 a) eqn:E.
    + left. apply Qle_bool_iff in E. apply ret_inv in H. destruct H as [<- ->].
      subst. simpl. rewrite !app_nil_r. auto.
    + right. split.
      * apply Qnot_le_lt. intros Hle. apply Qle_bool_iff in Hle. congruence.
      * exists t5. split; [exact H|]. subst. reflexivity.
Qed.

Lemma full_payload_not_true lbl bc ct gp gt ga ti tg :
  ~ true_terminal (full_payload lbl bc ct gp gt ga ti tg).
Proof. intros (a & b & H). unfold full_payload, true_payload in H. discriminate H. Qed.

Lemma error_payload_not_true : ~ true_terminal error_payload.
Proof. intros (a & b & H). discriminate H. Qed.

(** *** The claims *)

(** What the normalizer needs from the Unicode tables: lowercasing
    leaves no [A-Z] behind and maps the empty string to itself, and the
    space is a blank. *)
Hypothesis lower_no_upper :
  forall s c, In c (str_lower s) -> is_ascii_upper c = false.
Hypothesis lower_nil : str_lower [] = [].
Hypothesis space_is_space : is_space SPACE = true.


(** Below the gate the run continues with the granular analysis. *)
Lemma engine_escalates text text_clean pred C conf tb :
  clean text = Return text_clean -> text_clean <> [] ->
  binary (bin_vec_of text_clean) = (Return (pred, Some C, conf), tb) ->
  C < 60 ->
  engine text =
  prefix_log (vectorize :: tb)
    (analysis text_clean C (py_round conf 2) (py_round C 2)).
Proof.
  intros Hc Hne Hb H. rewrite (engine_gate _ _ _ _ _ _ Hc Hne Hb).
  destruct (Qle_bool 60 C) eqn:E; [|reflexivity].
  apply Qle_bool_iff in E. apply Qlt_not_le in H. contradiction.
Qed.


(** Claim C2.  On both binary paths (with [predict_proba], and through
    the fallback on [decision_function]) the predicted label is the
    positive class 1 exactly when [50 <= C_True], and the confidence in
    the predicted class is [C_True] for the positive class and
    [100 - C_True] otherwise. *)
Theorem complement_invariant bin_vec pred C conf t :
  binary bin_vec = (Return (pred, Some C, conf), t) ->
  (pred = LInt 1 \/ pred = LInt 0) /\
  (pred = LInt 1 <-> 50 <= C) /\
  (pred = LInt 1 -> conf = C) /\
  (pred = LInt 0 -> conf = 100 - C).
Proof.
  intros H. apply binary_stage_inv in H. destruct H as [-> ->].
  destruct (predicted_confidence_cases C) as [(H1 & -> & ->)|(H1 & -> & ->)].
  - repeat split; auto. discriminate.
  - repeat split; auto; try discriminate.
    intros H. apply Qlt_not_le in H1. contradiction.
Qed.

(** Claim C3.  When the binary model has no [predict_proba] and its
    [decision_function] yields the scalar margin [s], the estimator
    computes [C_True = 100 / (1 + e^(-s))], predicts 1 iff
    [50 <= C_True], reports [C_True] for the positive class and
    [100 - C_True] otherwise, and returns [None] in place of a
    per-class mapping. *)
Theorem fallback_binary_logistic bin_vec f s rest :
  predict_proba matrix binary_model = None ->
  decision_function matrix binary_model = Some f ->
  f bin_vec = Margin s :: rest ->
  exists C,
    C == 100 / (1 + np_exp (- s)) /\
    fallback binary_model bin_vec =
    (Return (LInt (if Qle_bool 50 C then 1 else 0), Some C,
             (if Qle_bool 50 C then C else 100 - C), None),
     [Call (clf_id matrix binary_model) M_decision_function]) /\
    binary bin_vec =
    (Return (LInt (if Qle_bool 50 C then 1 else 0), Some C,
             (if Qle_bool 50 C then C else 100 - C)),
     [Call (clf_id matrix binary_model) M_decision_function]).
Proof.
  intros Hp Hf Hrows.
  pose proof (fallback_margin _ _ _ _ _ Hf Hrows) as H.
  cbv zeta in H.
  set (C := 1 / (1 + np_exp (- s)) * 100) in *.
  assert (E : predicted_confidence (threshold_label C) C
              = if Qle_bool 50 C then C else 100 - C).
  { unfold predicted_confidence, threshold_label.
    now destruct (Qle_bool 50 C). }
  rewrite E in H. unfold threshold_label in H.
  exists C. split; [|split; [exact H|]].
  - unfold C, Qdiv. ring.
  - unfold binary_stage. rewrite Hp, H. reflexivity.
Qed.


Lemma dict_get_true bc ct :
  let r := true_payload bc ct in
  dict_get r (py "binary_prediction") = Some (PyStr (py "True")) /\
  dict_get r (py "binary_confidence") = Some (PyFloat bc) /\
  dict_get r (py "C_True_confidence") = Some (PyFloat ct) /\
  dict_get r (py "granular_confidence_all") = Some NA /\
  dict_get r (py "error") = None.
Proof. repeat split. Qed.

(** What the granular stage can return. *)
Lemma granular_inv text_clean lbl top all t :
  granular text_clean = (Return (lbl, top, all), t) ->
  (all = PyNone \/ exists d, all = PyFloatDict d) /\
  ((exists z, lbl = LInt z /\ all = PyNone) \/
   In lbl (classes_ matrix granular_model)).
Proof.
  unfold granular_stage. intros H. bind_inv H.
  destruct (predict_proba matrix granular_model) as [proba|].
  - bind_inv H. bind_inv H. bind_inv H. bind_inv H. bind_inv H. bind_inv H.
    bind_inv H. apply ret_inv in H. destruct H as [H _].
    injection H as <- <- <-. split; [right; now eexists|]. right.
    apply list_index_inv in Hm4. destruct Hm4 as [_ Hn].
    eapply nth_error_In; eassumption.
  - bind_inv H. destruct a0 as [[[l c] cp] oa].
    apply ret_inv in H. destruct H as [H _]. injection H as <- <- <-.
    unfold get_svc_confidence_fallback in Hm0.
    bind_inv Hm0. bind_inv Hm0. bind_inv Hm0. destruct a2 as [s|v].
    + apply ret_inv in Hm0. destruct Hm0 as [H _]. injection H as <- _ _ <-.
      split; [now left|]. left. now eexists.
    + bind_inv Hm0. bind_inv Hm0. bind_inv Hm0. bind_inv Hm0.
      apply ret_inv in Hm0. destruct Hm0 as [H _]. injection H as <- _ _ <-.
      split; [right; now eexists|]. right.
      apply py_index_inv in Hm5. destruct Hm5 as [Hn _].
      eapply nth_error_In; eassumption.
Qed.










(** Claim C8.  When the normalization of the input is empty,
    [layered_predict] returns exactly the error payload and calls
    neither the vectorizer nor a classifier (the call log is empty);
    this covers the empty string and every string without letters.
    No other response carries an [error] key. *)
Theorem empty_input_error :
  (forall text, clean text = Return [] ->
                engine text = (Return error_payload, [])) /\
  engine (InScalar (SStr [])) = (Return error_payload, []) /\
  (forall s, (forall c, In c (str_lower s) -> is_ascii_lower c = false) ->
             engine (InScalar (SStr s)) = (Return error_payload, [])) /\
  (forall text r t, engine text = (Return r, t) ->
                    dict_get r (py "error") <> None ->
                    clean text = Return [] /\ r = error_payload).
Proof.
  assert (Hno : forall s,
             (forall c, In c (str_lower s) -> is_ascii_lower c = false) ->
             engine (InScalar (SStr s)) = (Return error_payload, [])).
  { intros s Hs. apply engine_empty.
    now apply clean_no_letters. }
  split; [|split; [|split]].
  - intros text H. now apply engine_empty.
  - apply Hno. rewrite lower_nil. intros c [].
  - exact Hno.
  - intros text r t Hr Herr. apply engine_inv in Hr.
    destruct Hr as [(Hc & -> & _)|(tc & pred & C & conf & tb & _ & _ & _ & Hr)];
      [now split|].
    exfalso. apply Herr.
    destruct Hr as [(_ & -> & _)|(_ & ta & Ha & _)]; [reflexivity|].
    apply analysis_inv in Ha.
    destruct Ha as (lbl & top & all & ti & tg & gp & tg' & tf & _ & _ & _ & _ & ->).
    reflexivity.
Qed.

(** Claim C10.  In every response of the True-terminal shape the
    unrounded confidence [C] of the binary stage is at least 60, so the
    predicted binary class is the positive one, the confidence in the
    predicted class is [C] itself, and [binary_confidence] and
    [C_True_confidence] are both [round(C, 2)]. *)
Theorem true_terminal_confidences text r t :
  engine text = (Return r, t) -> true_terminal r ->
  exists text_clean pred C conf tb,
    clean text = Return text_clean /\
    binary (bin_vec_of text_clean) = (Return (pred, Some C, conf), tb) /\
    60 <= C /\ pred = LInt 1 /\ conf = C /\
    dict_get r (py "binary_confidence") = Some (PyFloat (py_round C 2)) /\
    dict_get r (py "C_True_confidence") = Some (PyFloat (py_round C 2)).
Proof.
  intros Hr Ht. apply engine_inv in Hr.
  destruct Hr as [(_ & -> & _)|(tc & pred & C & conf & tb & Hc & _ & Hb & Hr)].
  - destruct (error_payload_not_true Ht).
  - destruct Hr as [(Hle & -> & _)|(_ & ta & Ha & _)].
    + exists tc, pred, C, conf, tb.
      destruct (binary_stage_inv _ _ _ _ _ Hb) as [Hpred Hconf].
      destruct (predicted_confidence_cases C) as [(_ & E1 & E2)|(Hlt & _)];
        [|lra].
      rewrite E1 in Hpred. rewrite E2 in Hconf. subst pred conf.
      repeat split; auto.
    + apply analysis_inv in Ha.
      destruct Ha as (lbl & top & all & ti & tg & gp & tg' & tf & _ & _ & _ & _ & ->).
      destruct (full_payload_not_true _ _ _ _ _ _ _ _ Ht).
Qed.

(** Property X20.
    For every scalar input (None, NaN, a bool, a number or a string)
    [clean_text_harmonized] raises nothing and returns a text made of
    lowercase ASCII letters and single spaces only, with no space at
    either end (possibly empty); a scalar that is not a string yields
    the empty text. *)
Theorem normalizer_output_shape (v : scalar) :
  exists out,
    clean (InScalar v) = Return out /\
    canonical out = true /\
    ((forall s, v <> SStr s) -> out = []).
Proof.
  destruct v as [| |b|z|q|s];
    try (exists []; repeat split; reflexivity).
  destruct (clean_str_canonical str_lower is_space is_word is_digit
              lower_no_upper space_is_space s) as (out & Ho & Hcan).
  exists out. repeat split; auto. intros H. now destruct (H s).
Qed.

(** What the estimator and the attribution need from NumPy: a positive
    exponential and a sorting [argsort]. *)
Hypothesis exp_positive : forall x, 0 < np_exp x.
Hypothesis argsort_ok : argsort_spec np_argsort.

Lemma np_argmax_nonempty v i : np_argmax v = Return i -> v <> [].
Proof. destruct v; [discriminate | discriminate]. Qed.

(** The mapping built by the softmax branch of the fallback. *)
Lemma fallback_mapping model vector f v rest pred c cp all t :
  decision_function matrix model = Some f ->
  f vector = Margins v :: rest ->
  length v = length (classes_ matrix model) ->
  distinct_names (classes_ matrix model) ->
  fallback model vector = (Return (pred, c, cp, all), t) ->
  exists d,
    all = Some d /\
    percentages (length (classes_ matrix model)) (dict_values d).
Proof.
  intros Hf Hrows Hlen Hnames H. unfold get_svc_confidence_fallback in H.
  rewrite Hf in H. cbn [getattr ret call bind] in H. rewrite Hrows in H.
  cbn [py_index nth_error ret bind] in H.
  destruct (bind (lift (np_argmax v)) _) as [o t'] eqn:E.
  injection H as -> _.
  split_bind E as i Hmax. apply lift_inv in Hmax. destruct Hmax as [Hmax _].
  split_bind E as cls Hcls. split_bind E as p Hp. split_bind E as d Hconf.
  apply lift_inv in Hconf. destruct Hconf as [Hconf _].
  apply ret_inv in E. destruct E as [E _]. injection E as _ _ _ <-.
  exists d. split; [reflexivity|].
  eapply mapping_percentages; [exact Hnames | | | exact Hconf].
  - now rewrite !length_map.
  - apply softmax_distribution.
    + apply np_argmax_nonempty in Hmax. destruct v; [congruence | discriminate].
    + apply Forall_map, Forall_forall. intros x _. apply exp_positive.
Qed.

(** The mapping built from [predict_proba]. *)
Lemma calibrated_mapping text_clean proba row rest lbl top all t :
  predict_proba matrix granular_model = Some proba ->
  proba (bin_vec_of text_clean) = row :: rest ->
  distribution row ->
  length row = length (classes_ matrix granular_model) ->
  distinct_names (classes_ matrix granular_model) ->
  granular text_clean = (Return (lbl, top, all), t) ->
  exists d,
    all = PyFloatDict d /\
    percentages (length (classes_ matrix granular_model)) (dict_values d).
Proof.
  intros Hp Hrows Hdist Hlen Hnames H. unfold granular_stage in H.
  rewrite Hp in H. split_bind H as gran_vec Hvec.
  apply call_inv in Hvec. destruct Hvec as [<- _].
  split_bind H as labels Hlabels. split_bind H as gran_label Hlabel.
  split_bind H as rows Hcall. apply call_inv in Hcall. destruct Hcall as [<- _].
  unfold granular_vectorizer in H. rewrite Hrows in H.
  split_bind H as gran_probs Hprobs. apply py_index_inv in Hprobs.
  destruct Hprobs as [[= <-] _].
  split_bind H as idx Hidx. split_bind H as p Hp'. split_bind H as d Hconf.
  apply lift_inv in Hconf. destruct Hconf as [Hconf _].
  apply ret_inv in H. destruct H as [H _]. injection H as _ _ <-.
  exists d. split; [reflexivity|].
  eapply mapping_percentages; eauto.
Qed.

(** Claim C4, amended.  Whenever a per-class mapping is produced, by
    the softmax fallback or from [predict_proba], for a model whose
    class names stay pairwise distinct once stripped of their quotes
    and with one probability per class, every value lies in [0, 100]
    and the values add up to 100 within 0.005 per class, hence within
    0.1 for up to 20 classes. *)
Theorem confidence_mapping_invariant :
  (forall model vector f v rest pred c cp all t,
      decision_function matrix model = Some f ->
      f vector = Margins v :: rest ->
      length v = length (classes_ matrix model) ->
      distinct_names (classes_ matrix model) ->
      fallback model vector = (Return (pred, c, cp, all), t) ->
      exists d,
        all = Some d /\
        percentages (length (classes_ matrix model)) (dict_values d)) /\
  (forall text_clean proba row rest lbl top all t,
      predict_proba matrix granular_model = Some proba ->
      proba (bin_vec_of text_clean) = row :: rest ->
      distribution row ->
      length row = length (classes_ matrix granular_model) ->
      distinct_names (classes_ matrix granular_model) ->
      granular text_clean = (Return (lbl, top, all), t) ->
      exists d,
        all = PyFloatDict d /\
        percentages (length (classes_ matrix granular_model))
                    (dict_values d)).
Proof. split; [exact fallback_mapping | exact calibrated_mapping]. Qed.

(** What the attribution step returns when the model has coefficients. *)
Lemma attribution_coef lbl text_clean ti tg t coef :
  coef_ matrix granular_model = Some coef ->
  attribution lbl text_clean = (Return (ti, tg), t) ->
  exists class_idx coefs,
    nth_error (classes_ matrix granular_model) class_idx = Some lbl /\
    nth_error coef class_idx = Some coefs /\
    let names := get_feature_names_out matrix binary_vectorizer in
    let entries :=
      map (ranked_entry names coefs) (ranked_window np_argsort coefs) in
    tg = PyPairs (firstn 10 entries) /\
    ti = PyPairs
           (firstn 10
              (filter (fun e => str_in (fst e) (py_split is_space text_clean))
                      entries)).
Proof.
  intros Hcoef H. unfold feature_attribution in H. rewrite Hcoef in H.
  split_bind H as class_idx Hidx. apply list_index_inv in Hidx.
  destruct Hidx as [_ Hidx].
  split_bind H as coefs Hrow. apply py_index_inv in Hrow.
  destruct Hrow as [Hrow _].
  split_bind H as names Hnames. apply call_inv in Hnames.
  destruct Hnames as [<- _].
  split_bind H as found Hfound. split_bind H as top_global Hglobal.
  apply ret_inv in H. destruct H as [H _]. injection H as <- <-.
  exists class_idx, coefs. split; [exact Hidx|]. split; [exact Hrow|].
  cbv zeta. unfold granular_vectorizer in *.
  rewrite (global_entries _ _ _ _ _ Hglobal), (input_entries _ _ _ _ _ _ Hfound).
  now rewrite firstn_map.
Qed.

(** Claim C6.  When the granular model has coefficients, every
    response of the escalated path reports, for the coefficient row of
    the predicted class: as [top_features_overall] the first 10
    entries of the window of its 200 largest coefficients ranked in
    descending order, and as [top_features_input] the first 10 of the
    window entries whose term is a word of the normalized text, in
    ranked order.  Both have at most 10 entries and every term of the
    second is a term of the window. *)
Theorem attribution_bound text r t coef :
  coef_ matrix granular_model = Some coef ->
  engine text = (Return r, t) ->
  r <> error_payload -> ~ true_terminal r ->
  exists text_clean,
    clean text = Return text_clean /\
    attribution_report is_space np_argsort
      (classes_ matrix granular_model) coef
      (get_feature_names_out matrix binary_vectorizer) text_clean r.
Proof.
  intros Hcoef Hr Herr Htrue. apply engine_inv in Hr.
  destruct Hr as [(_ & -> & _)|(tc & pred & C & conf & tb & Hc & _ & _ & Hr)];
    [congruence|].
  destruct Hr as [(_ & -> & _)|(_ & ta & Ha & _)];
    [destruct Htrue; now eexists _, _|].
  apply analysis_inv in Ha.
  destruct Ha as (lbl & top & all & ti & tg & gp & tg' & tf
                  & _ & Hattr & Hs & _ & ->).
  destruct (attribution_coef _ _ _ _ _ _ Hcoef Hattr)
    as (idx & coefs & Hidx & Hrow & -> & ->).
  exists tc. split; [exact Hc|]. exists lbl, gp, idx, coefs.
  repeat (split; [first [assumption | reflexivity]|]).
  cbv zeta. split; [now apply ranked_window_top|].
  split; [reflexivity|]. split; [reflexivity|].
  split; [apply firstn_le_length|]. split; [apply firstn_le_length|].
  intros e He. apply firstn_In in He. apply filter_In in He.
  destruct He as [He _]. apply in_map_iff in He.
  destruct He as (i & <- & Hi). now exists i.
Qed.

(** The placeholder for a missing probability function is never part
    of a response. *)
Lemma no_proba_marker_never_returned text r t :
  engine text = (Return r, t) ->
  dict_get r (py "granular_confidence_all")
  <> Some (PyStrDict [(py "warning", msg_no_proba)]).
Proof.
  intros Hr. apply engine_inv in Hr.
  destruct Hr as [(_ & -> & _)|(tc & pred & C & conf & tb & _ & _ & _ & Hr)];
    [discriminate|].
  destruct Hr as [(_ & -> & _)|(_ & ta & Ha & _)]; [discriminate|].
  apply analysis_inv in Ha.
  destruct Ha as (lbl & top & all & ti & tg & gp & tg' & tf
                  & Hg & _ & _ & _ & ->).
  apply granular_inv in Hg. destruct Hg as [[->|[d ->]] _]; discriminate.
Qed.
End Cascade.

(* ================================================================= *)
(** * The concrete deployment meets the assumptions *)

Lemma ascii_lower_no_upper s c :
  In c (Ascii7.str_lower s) -> is_ascii_upper c = false.
Proof.
  unfold Ascii7.str_lower. rewrite in_map_iff. intros (x & <- & _).
  unfold Ascii7.lower_char, is_ascii_upper, in_range.
  destruct ((65 <=? x)%N && (x <=? 90)%N) eqn:E.
  - apply andb_prop in E. destruct E as [E1 E2].
    apply N.leb_le in E1, E2. apply andb_false_intro2.
    apply N.leb_gt. lia.
  - exact E.
Qed.

Lemma exp2_positive x : 0 < Demo.exp2 x.
Proof. unfold Demo.exp2. apply Qpower_0_lt. reflexivity. Qed.

Section InsertionSort.
Variable key : nat -> Q.

Lemma insert_by_perm i l : Permutation (Demo.insert_by key i l) (i :: l).
Proof.
  induction l as [|j l IH]; simpl; [reflexivity|].
  destruct (Qle_bool (key i) (key j)); [reflexivity|].
  rewrite IH. apply perm_swap.
Qed.

Lemma insert_by_sorted i l :
  StronglySorted (fun a b => key a <= key b) l ->
  StronglySorted (fun a b => key a <= key b) (Demo.insert_by key i l).
Proof.
  induction 1 as [|j l Hs IH Hf]; simpl; [repeat constructor|].
  destruct (Qle_bool (key i) (key j)) eqn:E.
  - apply Qle_bool_iff in E. constructor; [now constructor|].
    constructor; [exact E|].
    eapply Forall_impl; [|exact Hf]. intros k Hk. cbv beta in *.
    eapply Qle_trans; eassumption.
  - assert (Hji : key j <= key i).
    { apply Qlt_le_weak, Qnot_le_lt. intros H.
      apply Qle_bool_iff in H. congruence. }
    constructor; [exact IH|].
    eapply Permutation_Forall; [symmetry; apply insert_by_perm|].
    now constructor.
Qed.
End InsertionSort.

Lemma demo_argsort_spec : argsort_spec Demo.argsort.
Proof.
  intros v. unfold Demo.argsort.
  induction (seq 0 (length v)) as [|i l [IHp IHs]]; simpl.
  - split; [reflexivity | constructor].
  - split.
    + rewrite insert_by_perm. now constructor.
    + now apply insert_by_sorted.
Qed.

(* ================================================================= *)
(** * The claims on concrete runs *)


(** The raw SVC at margin 0: confidence 50, positive class. *)
Lemma complement_invariant_witness :
  exists C,
    Demo.binary Demo.svc_binary (py "abc")
    = (Return (LInt 1, Some C, C), [Call 2 M_decision_function]) /\
    C == 50 /\
    (LInt 1 = LInt 1 <-> 50 <= C).
Proof.
  eexists. split; [vm_compute; reflexivity|]. split; [reflexivity|].
  refine (proj1 (proj2
    (complement_invariant str Demo.exp2 Demo.svc_binary (py "abc")
       (LInt 1) _ _ [Call 2 M_decision_function] _))).
  vm_compute. reflexivity.
Defined.

Lemma fallback_binary_logistic_witness :
  exists C,
    C == 100 / (1 + Demo.exp2 (- 0)) /\
    get_svc_confidence_fallback str Demo.exp2 Demo.svc_binary (py "abc") =
    (Return (LInt (if Qle_bool 50 C then 1 else 0), Some C,
             (if Qle_bool 50 C then C else 100 - C), None),
     [Call 2 M_decision_function]) /\
    Demo.binary Demo.svc_binary (py "abc") =
    (Return (LInt (if Qle_bool 50 C then 1 else 0), Some C,
             (if Qle_bool 50 C then C else 100 - C)),
     [Call 2 M_decision_function]).
Proof.
  apply (fallback_binary_logistic str Demo.exp2 Demo.svc_binary (py "abc")
           (fun _ => [Margin 0]) 0 []); reflexivity.
Defined.

Lemma demo_categories_distinct : distinct_names Demo.categories.
Proof.
  exists [py "clickbait"; py "propaganda"; py "satire"]. split.
  - repeat constructor.
  - repeat constructor; simpl; intuition discriminate.
Qed.

Lemma demo_row_distribution : distribution [1 # 4; 1 # 8; 5 # 8].
Proof.
  split; [|reflexivity].
  repeat constructor; simpl; discriminate.
Qed.

(** Both demo mappings hold percentages adding up to 100. *)
Lemma confidence_mapping_invariant_witness :
  percentages 3 [2857 # 100; 1429 # 100; 2857 # 50] /\
  percentages 3 [25; 25 # 2; 125 # 2].
Proof.
  destruct (confidence_mapping_invariant str Demo.exp2 Demo.tfidf
              Demo.calibrated_granular exp2_positive) as [Hsoft Hcal].
  split.
  - edestruct (Hsoft Demo.svc_granular (py "abc")
                 (fun _ => [Margins [0; -1; 1]]) [0; -1; 1] [])
      as (d & Hd & Hp);
      [reflexivity | reflexivity | reflexivity | exact demo_categories_distinct
      | vm_compute; reflexivity |].
    injection Hd as <-. exact Hp.
  - edestruct (Hcal (py "abc") (fun _ => [[1 # 4; 1 # 8; 5 # 8]])
                 [1 # 4; 1 # 8; 5 # 8] [])
      as (d & Hd & Hp);
      [reflexivity | reflexivity | exact demo_row_distribution | reflexivity
      | exact demo_categories_distinct | vm_compute; reflexivity |].
    injection Hd as <-. exact Hp.
Defined.



Lemma attribution_bound_witness :
  let run :=
    Demo.run Demo.calibrated_binary Demo.calibrated_granular
      (Demo.text "Shocking secret: aliens!! 12 files") in
  exists text_clean,
    Ascii7.clean (Demo.text "Shocking secret: aliens!! 12 files")
    = Return text_clean /\
    attribution_report Ascii7.is_space Demo.argsort Demo.categories
      Demo.weights Demo.vocabulary text_clean (Demo.response run).
Proof.
  intros run.
  apply (attribution_bound Ascii7.str_lower Ascii7.is_space Ascii7.is_word
           Ascii7.is_digit str Demo.exp2 Demo.argsort Demo.calibrated_binary
           Demo.tfidf Demo.calibrated_granular demo_argsort_spec
           (Demo.text "Shocking secret: aliens!! 12 files")
           (Demo.response run) (snd run) Demo.weights).
  - reflexivity.
  - vm_compute. reflexivity.
  - vm_compute. discriminate.
  - intros (a & b & H). vm_compute in H. discriminate H.
Defined.

Lemma normalizer_output_shape_witness :
  exists out,
    Ascii7.clean (Demo.text "HTTP://x.com Read more! 2 files") = Return out /\
    canonical out = true /\
    ((forall s, SStr (py "HTTP://x.com Read more! 2 files") <> SStr s) ->
     out = []).
Proof.
  apply (normalizer_output_shape Ascii7.str_lower Ascii7.is_space
           Ascii7.is_word Ascii7.is_digit ascii_lower_no_upper eq_refl).
Defined.

Lemma no_letters_12 c :
  In c (Ascii7.str_lower (py "12 !!")) -> is_ascii_lower c = false.
Proof. simpl. intuition (subst; reflexivity). Qed.

Lemma empty_input_error_witness :
  Demo.run Demo.calibrated_binary Demo.calibrated_granular (InScalar (SStr []))
  = (Return error_payload, []) /\
  Demo.run Demo.calibrated_binary Demo.calibrated_granular (Demo.text "12 !!")
  = (Return error_payload, []).
Proof.
  destruct (empty_input_error Ascii7.str_lower Ascii7.is_space Ascii7.is_word
              Ascii7.is_digit str Demo.exp2 Demo.argsort Demo.calibrated_binary
              Demo.tfidf Demo.calibrated_granular ascii_lower_no_upper
              eq_refl eq_refl) as (_ & Hempty & Hblank & _).
  split; [exact Hempty | exact (Hblank (py "12 !!") no_letters_12)].
Defined.

Lemma true_terminal_confidences_witness :
  let r := true_payload 85 85 in
  exists text_clean pred C conf tb,
    Ascii7.clean (Demo.text "A!") = Return text_clean /\
    Demo.binary Demo.calibrated_binary (transform str Demo.tfidf [text_clean])
    = (Return (pred, Some C, conf), tb) /\
    60 <= C /\ pred = LInt 1 /\ conf = C /\
    dict_get r (py "binary_confidence") = Some (PyFloat (py_round C 2)) /\
    dict_get r (py "C_True_confidence") = Some (PyFloat (py_round C 2)).
Proof.
  apply (true_terminal_confidences Ascii7.str_lower Ascii7.is_space
           Ascii7.is_word Ascii7.is_digit str Demo.exp2 Demo.argsort
           Demo.calibrated_binary Demo.tfidf Demo.calibrated_granular
           (Demo.text "A!") (true_payload 85 85)
           [Call 1 M_transform; Call 2 M_predict_proba]).
  - vm_compute. reflexivity.
  - now exists 85, 85.
Defined.

(* ================================================================= *)
(** * Where the program departs from the specification *)

(** C4, as stated, fails: two classes that differ only by their quotes
    share one key of the mapping, the later value replaces the earlier
    one, and the values of a proper distribution add up to 70. *)
Lemma mixed_quotes_break_the_sum :
  let row := [3 # 10; 3 # 10; 4 # 10] in
  distribution row /\
  length row = length (classes_ str Demo.calibrated_mixed_quotes) /\
  exists lbl top d t,
    Demo.granular Demo.calibrated_mixed_quotes (py "abc")
    = (Return (lbl, top, PyFloatDict d), t) /\
    d = [(py "satire", 40); (py "propaganda", 30)] /\
    ~ Qabs (qsum (dict_values d) - 100) <= 1 # 10.
Proof.
  split; [|split; [reflexivity|]].
  - split; [|reflexivity]. repeat constructor; simpl; discriminate.
  - eexists _, _, _, _. split; [vm_compute; reflexivity|].
    split; [reflexivity|].
    intros H. vm_compute in H. apply H. reflexivity.
Qed.

(** Rounding alone moves the sum beyond a tenth once there are many
    classes: 300 equally likely classes show 0.33 each, 99 in all. *)
Lemma many_classes_drift :
  distribution Demo.uniform_row /\
  exists d,
    class_confidences Demo.many_classes Demo.uniform_row = Return d /\
    length d = 300%nat /\
    qsum (dict_values d) == 99.
Proof.
  split.
  - split; [|vm_compute; reflexivity].
    apply Forall_forall. intros p Hp. apply repeat_spec in Hp. subst p.
    split; discriminate.
  - eexists. split; [vm_compute; reflexivity|].
    split; vm_compute; reflexivity.
Qed.


(** Claim C7.  The guard of the normalizer returns the empty text for
    every null or non-string scalar, and for a one-element list; but
    on every list of two or more elements, and on the empty list, it
    raises [ValueError]: [pd.isnull] yields an array, whose truth value
    [or] cannot take, before [isinstance] is tested.  The engine then
    raises as well, before any call. *)
Theorem list_input_raises :
  forall (str_lower : str -> str) (is_space is_word is_digit : char -> bool),
  let normalize := clean_text_harmonized str_lower is_space is_word is_digit in
  (forall a b rest, normalize (InList (a :: b :: rest)) = Raise ValueError) /\
  normalize (InList []) = Raise ValueError /\
  (forall a, normalize (InList [a]) = Return []) /\
  (forall v, isinstance_str (InScalar v) = false ->
             normalize (InScalar v) = Return []) /\
  (forall matrix np_exp np_argsort binary_model binary_vectorizer
          granular_model a b rest,
      layered_predict str_lower is_space is_word is_digit matrix np_exp
        np_argsort binary_model binary_vectorizer granular_model
        (InList (a :: b :: rest))
      = (Raise ValueError, [])) /\
  Demo.run Demo.calibrated_binary Demo.calibrated_granular
    (InList [SInt 1; SInt 2])
  = (Raise ValueError, []).
Proof.
  intros str_lower is_space is_word is_digit normalize.
  split; [reflexivity|]. split; [reflexivity|].
  split; [intros a; unfold normalize, clean_text_harmonized; simpl;
          now destruct (checknull a)|].
  split; [intros [| |b|z|q|s] H; try reflexivity; discriminate H|].
  split; reflexivity.
Qed.

(** C9: the placeholder for a missing probability function never
    reaches a response.  With a raw SVC fitted on two categories the
    fallback overwrites it with [None] and returns the integer 1 as
    label, on which [strip] then fails; with a model that has neither
    method the attribute access fails. *)
Theorem no_probability_marker_lost :
  (exists top,
     Demo.granular Demo.svc_two_categories (py "shocking secret report")
     = (Return (LInt 1, top, PyNone),
        [Call 1 M_transform; Call 3 M_decision_function])) /\
  Demo.run Demo.calibrated_binary Demo.svc_two_categories
    (Demo.text "Shocking secret report")
  = (Raise AttributeError,
     [Call 1 M_transform; Call 2 M_predict_proba;
      Call 1 M_transform; Call 3 M_decision_function]) /\
  Demo.run Demo.calibrated_binary Demo.predict_only
    (Demo.text "Shocking secret report")
  = (Raise AttributeError,
     [Call 1 M_transform; Call 2 M_predict_proba; Call 1 M_transform]).
Proof.
  split; [eexists; vm_compute; reflexivity|].
  split; vm_compute; reflexivity.
Qed.


(* ================================================================= *)
(** * Further properties of the program *)

(** ** Rounding keeps the order *)

Lemma round_half_even_mono x y :
  x <= y -> (round_half_even x <= round_half_even y)%Z.
Proof.
  intros Hxy. pose proof (Qfloor_resp_le _ _ Hxy) as Hf.
  destruct (round_half_even_cases x) as [[Ex Hx]|[Ex Hx]];
    destruct (round_half_even_cases y) as [[Ey Hy]|[Ey Hy]];
    rewrite Ex, Ey; try lia.
  destruct (Z.eq_dec (Qfloor x) (Qfloor y)) as [E|E]; [|lia].
  (* same floor: both fractional parts are one half *)
  exfalso.
  assert (Hhalf : x - inject_Z (Qfloor x) == 1 # 2).
  { rewrite E in *. apply Qle_antisym; [|exact Hx].
    apply Qle_trans with (y - inject_Z (Qfloor y)); [|exact Hy].
    generalize (inject_Z (Qfloor y)). intros f. lra. }
  assert (Hhalf' : y - inject_Z (Qfloor y) == 1 # 2).
  { rewrite E in *. apply Qle_antisym; [exact Hy|].
    apply Qle_trans with (x - inject_Z (Qfloor y)); [exact Hx|].
    generalize (inject_Z (Qfloor y)). intros f. lra. }
  unfold round_half_even in Ex, Ey.
  apply Qeq_alt in Hhalf, Hhalf'. rewrite Hhalf in Ex. rewrite Hhalf' in Ey.
  rewrite E in Ex. destruct (Z.even (Qfloor y)); lia.
Qed.

Lemma scale_positive ndigits : 0 < inject_Z (10 ^ Z.of_nat ndigits).
Proof.
  change 0 with (inject_Z 0). rewrite <- Zlt_Qlt.
  apply Z.pow_pos_nonneg; lia.
Qed.

(** [round(x, n) <= round(y, n)] whenever [x <= y]. *)
Lemma py_round_mono ndigits x y :
  x <= y -> py_round x ndigits <= py_round y ndigits.
Proof.
  intros Hxy. unfold py_round. apply Qred_le.
  pose proof (scale_positive ndigits) as Hs.
  set (s := inject_Z (10 ^ Z.of_nat ndigits)) in *.
  apply Qmult_le_compat_r; [|apply Qlt_le_weak, Qinv_lt_0_compat, Hs].
  rewrite <- Zle_Qle. apply round_half_even_mono.
  apply Qmult_le_compat_r; [exact Hxy | now apply Qlt_le_weak].
Qed.

(** A whole number is its own rounding. *)
Lemma py_round_whole ndigits (z : Z) :
  py_round (inject_Z z) ndigits == inject_Z z.
Proof.
  unfold py_round. rewrite Qred_correct.
  pose proof (scale_positive ndigits) as Hs.
  set (k := (10 ^ Z.of_nat ndigits)%Z) in *.
  assert (E : round_half_even (inject_Z z * inject_Z k) = (z * k)%Z).
  { rewrite <- inject_Z_mult. unfold round_half_even. rewrite Qfloor_Z.
    assert (H0 : inject_Z (z * k) - inject_Z (z * k) == 0) by ring.
    assert (Hc : Qcompare (inject_Z (z * k) - inject_Z (z * k)) (1 # 2) = Lt).
    { apply Qlt_alt. rewrite H0. reflexivity. }
    now rewrite Hc. }
  rewrite E, inject_Z_mult. field. intros H. rewrite H in Hs.
  discriminate Hs.
Qed.

(** ** The per-class mapping as a dictionary *)

Lemma dict_get_set {V} (d : dict V) k v n :
  dict_get (dict_set d k v) n = if str_eqb k n then Some v else dict_get d n.
Proof.
  induction d as [|[k' v'] d IH]; simpl.
  - reflexivity.
  - destruct (str_eqb k' k) eqn:E; simpl.
    + apply str_eqb_eq in E. subst k'. now destruct (str_eqb k n).
    + rewrite IH. destruct (str_eqb k' n) eqn:E'; [|reflexivity].
      apply str_eqb_eq in E'. subst k'.
      destruct (str_eqb k n) eqn:E''; [|reflexivity].
      apply str_eqb_eq in E''. subst k. now rewrite str_eqb_refl in E.
Qed.

Lemma dict_keys_set {V} (d : dict V) k v :
  dict_keys (dict_set d k v)
  = if existsb (str_eqb k) (dict_keys d) then dict_keys d
    else dict_keys d ++ [k].
Proof.
  induction d as [|[k' v'] d IH]; simpl; [reflexivity|].
  destruct (str_eqb k' k) eqn:E.
  - apply str_eqb_eq in E. subst k'. simpl. now rewrite str_eqb_refl.
  - simpl. rewrite IH.
    assert (E' : str_eqb k k' = false).
    { destruct (str_eqb k k') eqn:E'; [|reflexivity].
      apply str_eqb_eq in E'. subst k'. now rewrite str_eqb_refl in E. }
    rewrite E'. simpl. now destruct (existsb (str_eqb k) (dict_keys d)).
Qed.

Lemma existsb_str_In k l : existsb (str_eqb k) l = true <-> In k l.
Proof.
  rewrite existsb_exists. split.
  - intros (x & Hx & E). apply str_eqb_eq in E. now subst.
  - intros H. exists k. split; [exact H | apply str_eqb_refl].
Qed.

Lemma dict_set_NoDup {V} (d : dict V) k v :
  NoDup (dict_keys d) -> NoDup (dict_keys (dict_set d k v)).
Proof.
  intros H. rewrite dict_keys_set.
  destruct (existsb (str_eqb k) (dict_keys d)) eqn:E; [exact H|].
  apply NoDup_app; [exact H | repeat constructor; intros [] |].
  intros x Hx [<-|[]]. apply existsb_str_In in Hx. congruence.
Qed.

(** The comprehension over stripped names: distinct keys, and every
    key holds the value of the last pair with that name. *)
Lemma confidences_into_spec classes names :
  Forall2 (fun c n => label_strip c = Return n) classes names ->
  forall probs acc,
    NoDup (dict_keys acc) ->
    exists d,
      confidences_into acc (combine classes probs) = Return d /\
      NoDup (dict_keys d) /\
      (forall n, dict_get d n =
                 match last_value (combine names (map percent probs)) n with
                 | Some v => Some v
                 | None => dict_get acc n
                 end) /\
      (forall n, In n (dict_keys d) <->
                 In n (dict_keys acc) \/
                 In n (map fst (combine names probs))).
Proof.
  induction 1 as [|c n cs ns Hc Hrest IH]; intros probs acc Hnd.
  - exists acc. simpl. repeat split; auto. intros [H|[]]. exact H.
  - destruct probs as [|p ps].
    + exists acc. simpl. repeat split; auto. intros [H|[]]. exact H.
    + simpl. rewrite Hc.
      destruct (IH ps (dict_set acc n (percent p)) (dict_set_NoDup _ _ _ Hnd))
        as (d & Hd & Hnd' & Hget & Hkeys).
      exists d. split; [exact Hd|]. split; [exact Hnd'|]. split.
      * intros m. rewrite Hget, dict_get_set. simpl.
        destruct (last_value (combine ns (map percent ps)) m);
          [reflexivity|].
        now destruct (str_eqb n m).
      * intros m. rewrite Hkeys, dict_keys_set.
        destruct (existsb (str_eqb n) (dict_keys acc)) eqn:E.
        -- apply existsb_str_In in E. intuition (subst; auto).
        -- rewrite in_app_iff. simpl. intuition (subst; auto).
Qed.

(** Property X8.
    The dict comprehension of the program, for string classes: the
    keys are the stripped names of the classes that have a
    probability, without repetition, and each key holds the
    percentage of the last class of that name. *)
Theorem class_confidences_last_wins classes names probs :
  Forall2 (fun c n => label_strip c = Return n) classes names ->
  exists d,
    class_confidences classes probs = Return d /\
    NoDup (dict_keys d) /\
    (forall n, dict_get d n = last_value (combine names (map percent probs)) n) /\
    (forall n, In n (dict_keys d) <-> In n (map fst (combine names probs))).
Proof.
  intros H.
  destruct (confidences_into_spec _ _ H probs [] (NoDup_nil _))
    as (d & Hd & Hnd & Hget & Hkeys).
  exists d. split; [exact Hd|]. split; [exact Hnd|]. split.
  - intros n. rewrite Hget.
    now destruct (last_value (combine names (map percent probs)) n).
  - intros n. rewrite Hkeys. simpl. tauto.
Qed.

Lemma last_value_In {V} (names : list str) : forall (vals : list V) n x,
  last_value (combine names vals) n = Some x -> In n names.
Proof.
  induction names as [|k ks IH]; intros [|w ws] n x E; try discriminate.
  simpl in E. destruct (last_value (combine ks ws) n) eqn:E'.
  - right. eapply IH. eassumption.
  - destruct (str_eqb k n) eqn:Ek; [|discriminate].
    apply str_eqb_eq in Ek. now left.
Qed.

Lemma last_value_NoDup {V} (names : list str) (vals : list V) : forall i n v,
  NoDup names ->
  nth_error names i = Some n -> nth_error vals i = Some v ->
  last_value (combine names vals) n = Some v.
Proof.
  revert vals. induction names as [|k ks IH]; intros vals i n v Hnd Hn Hv.
  - destruct i; discriminate.
  - destruct vals as [|w ws]; [destruct i; discriminate|].
    inversion Hnd as [|? ? Hk Hks]; subst. simpl.
    destruct i as [|i]; simpl in Hn, Hv.
    + injection Hn as Hn. injection Hv as Hv. subst k w.
      rewrite str_eqb_refl.
      destruct (last_value (combine ks ws) n) as [x|] eqn:E; [|reflexivity].
      exfalso. apply Hk. eapply last_value_In. eassumption.
    + now rewrite (IH ws i n v Hks Hn Hv).
Qed.

(** ** Subsequences *)

Lemma subseq_refl {A} (l : list A) : subseq l l.
Proof. induction l; constructor; assumption. Qed.

Lemma subseq_trans {A} (l1 l2 l3 : list A) :
  subseq l1 l2 -> subseq l2 l3 -> subseq l1 l3.
Proof.
  intros H12 H23. revert l1 H12.
  induction H23 as [|x l2 l3 _ IH|x l2 l3 _ IH]; intros l1 H12.
  - exact H12.
  - apply subseq_skip, IH, H12.
  - inversion H12; subst.
    + apply subseq_skip, IH. assumption.
    + apply subseq_keep, IH. assumption.
Qed.

Lemma subseq_app_l {A} (pre l : list A) : subseq l (pre ++ l).
Proof.
  induction pre; simpl; [apply subseq_refl | now apply subseq_skip].
Qed.

Lemma subseq_app_r {A} (l post : list A) : subseq l (l ++ post).
Proof.
  induction l as [|x l IH]; simpl.
  - induction post; constructor; assumption.
  - now apply subseq_keep.
Qed.

Lemma subseq_filter {A} (p : A -> bool) l1 l2 :
  subseq l1 l2 -> subseq (filter p l1) (filter p l2).
Proof.
  induction 1 as [|x l1 l2 _ IH|x l1 l2 _ IH]; simpl.
  - constructor.
  - destruct (p x); [now apply subseq_skip | exact IH].
  - destruct (p x); [now apply subseq_keep | exact IH].
Qed.

Lemma filter_subseq {A} (p : A -> bool) l : subseq (filter p l) l.
Proof.
  induction l as [|x l IH]; simpl; [constructor|].
  destruct (p x); [now apply subseq_keep | now apply subseq_skip].
Qed.

Lemma subseq_length {A} (l1 l2 : list A) :
  subseq l1 l2 -> (length l1 <= length l2)%nat.
Proof. induction 1; simpl; lia. Qed.

Lemma filter_idem {A} (p : A -> bool) l : filter p (filter p l) = filter p l.
Proof.
  induction l as [|x l IH]; simpl; [reflexivity|].
  destruct (p x) eqn:E; simpl; [rewrite E; now f_equal | exact IH].
Qed.

(** What is left of a text after two cleaning steps is left of it
    after the first. *)
Lemma without_spaces_chain a b c :
  subseq (without_spaces a) b -> subseq (without_spaces b) c ->
  subseq (without_spaces a) c.
Proof.
  intros Hab Hbc. eapply subseq_trans; [|exact Hbc].
  unfold without_spaces in *. rewrite <- (filter_idem _ a).
  now apply subseq_filter.
Qed.

Lemma py_strip_subseq p s : subseq (py_strip p s) s.
Proof.
  destruct (py_strip_piece p s) as (a & b & E). rewrite E at 2.
  eapply subseq_trans; [apply subseq_app_r | apply subseq_app_l].
Qed.

(** ** Substitution never adds text *)

Section SubstitutionFacts.
Variable is_word : char -> bool.

(** A consuming pattern hands a strictly shorter text on. *)
Lemma rmatch_consuming {A} (r : regex) :
  consuming r = true ->
  forall prev s (k : option char -> str -> option A) a,
    rmatch is_word r prev s k = Some a ->
    exists p' s', k p' s' = Some a /\ (length s' < length s)%nat.
Proof.
  induction r as [|c|p|r1 IH1 r2 IH2|r1 IH1 r2 IH2|r1 IH1|];
    intros Hc prev s k a; simpl in *; try discriminate.
  - destruct s as [|x s']; [discriminate|].
    destruct (x =? c)%N; [|discriminate].
    intros H. exists (Some x), s'. split; [exact H | simpl; lia].
  - destruct s as [|x s']; [discriminate|].
    destruct (p x); [|discriminate].
    intros H. exists (Some x), s'. split; [exact H | simpl; lia].
  - intros H. destruct (consuming r1) eqn:E1.
    + apply (IH1 eq_refl) in H. destruct H as (p1 & s1 & H & Hl).
      apply rmatch_suffix in H. destruct H as (p2 & s2 & H & Hs).
      apply suffix_length in Hs. exists p2, s2. split; [exact H | lia].
    + simpl in Hc. apply rmatch_suffix in H. destruct H as (p1 & s1 & H & Hs).
      apply (IH2 Hc) in H. destruct H as (p2 & s2 & H & Hl).
      apply suffix_length in Hs. exists p2, s2. split; [exact H | lia].
  - apply andb_prop in Hc. destruct Hc as [Hc1 Hc2].
    destruct (rmatch is_word r1 prev s k) as [b|] eqn:E.
    + intros [= ->]. exact (IH1 Hc1 _ _ _ _ E).
    + intros H. exact (IH2 Hc2 _ _ _ _ H).
Qed.

(** Replacing the matches of a consuming pattern by at most one
    character does not lengthen the text. *)
Lemma sub_loop_length r repl :
  consuming r = true -> (length repl <= 1)%nat ->
  forall fuel prev s adv,
    (length (sub_loop is_word r repl fuel prev s adv) <= length s)%nat.
Proof.
  intros Hc Hr. induction fuel as [|fuel IH]; intros prev s adv; simpl.
  - lia.
  - destruct (rmatch is_word r prev s (accept adv s)) as [[p' s']|] eqn:E.
    + apply (rmatch_consuming r Hc) in E. destruct E as (p2 & s2 & E & Hl).
      apply accept_inv in E. injection E as <- <-.
      assert (En : (length s' =? length s)%nat = false)
        by (apply Nat.eqb_neq; lia).
      rewrite En, length_app. specialize (IH p' s' false). lia.
    + destruct s as [|c s1]; [simpl; lia|].
      simpl. specialize (IH (Some c) s1 false). lia.
Qed.

(** Replacing matches by a space keeps the other characters of the
    result in the order they had in the text. *)
Lemma sub_loop_order r : forall fuel prev s adv,
  subseq (without_spaces (sub_loop is_word r [SPACE] fuel prev s adv)) s.
Proof.
  induction fuel as [|fuel IH]; intros prev s adv; simpl.
  - apply filter_subseq.
  - destruct (rmatch is_word r prev s (accept adv s)) as [[p' s']|] eqn:E.
    + apply rmatch_accept_suffix in E. destruct E as [pre ->].
      destruct (length s' =? length (pre ++ s'))%nat; simpl.
      * apply IH.
      * eapply subseq_trans; [apply IH | apply subseq_app_l].
    + destruct s as [|c s1]; [constructor|].
      unfold without_spaces. simpl.
      destruct (negb (c =? SPACE)%N).
      * apply subseq_keep, IH.
      * apply subseq_skip, IH.
Qed.

Lemma sub_length r text :
  consuming r = true -> (length (sub is_word r text) <= length text)%nat.
Proof. intros Hc. apply sub_loop_length; [exact Hc | simpl; lia]. Qed.

Lemma sub_order r text : subseq (without_spaces (sub is_word r text)) text.
Proof. apply sub_loop_order. Qed.
End SubstitutionFacts.

(** ** The normalizer and the letters of the text *)

Section NormalizerFurther.
Variable str_lower : str -> str.
Variable is_space : char -> bool.
Variable is_word : char -> bool.
Variable is_digit : char -> bool.

Local Notation "'clean'" :=
  (clean_text_harmonized str_lower is_space is_word is_digit).

(** Property X15.
    The normalized text is never longer than the lowercased input:
    each of the six substitutions replaces a non-empty match by one
    space, and [strip] only removes. *)
Theorem normalizer_never_lengthens (text : str) :
  exists out,
    clean (InScalar (SStr text)) = Return out /\
    (length out <= length (str_lower text))%nat.
Proof.
  eexists. split; [reflexivity|].
  eapply Nat.le_trans; [apply subseq_length, py_strip_subseq|].
  repeat (eapply Nat.le_trans; [apply sub_length; reflexivity|]).
  apply Nat.le_refl.
Qed.

(** Property X16.
    The normalizer invents and reorders nothing: the characters of
    the normalized text other than its spaces occur, in the same
    order, in the lowercased input. *)
Theorem normalizer_keeps_letter_order (text : str) :
  exists out,
    clean (InScalar (SStr text)) = Return out /\
    subseq (without_spaces out) (str_lower text).
Proof.
  eexists. split; [reflexivity|].
  eapply without_spaces_chain;
    [eapply subseq_trans;
       [apply subseq_filter, py_strip_subseq | apply filter_subseq]|].
  repeat (eapply without_spaces_chain; [apply sub_order|]).
  apply filter_subseq.
Qed.
End NormalizerFurther.

(** ** The engine *)

Section Further.
Variable str_lower : str -> str.
Variable is_space : char -> bool.
Variable is_word : char -> bool.
Variable is_digit : char -> bool.
Variable matrix : Type.
Variable np_exp : Q -> Q.
Variable np_argsort : list Q -> list nat.
Variable binary_model : classifier matrix.
Variable binary_vectorizer : vectorizer matrix.
Variable granular_model : classifier matrix.

Local Notation "'clean'" :=
  (clean_text_harmonized str_lower is_space is_word is_digit).
Local Notation "'fallback'" := (get_svc_confidence_fallback matrix np_exp).
Local Notation "'binary'" := (binary_stage matrix np_exp binary_model).
Local Notation "'granular'" :=
  (granular_stage matrix np_exp binary_vectorizer granular_model).
Local Notation "'attribution'" :=
  (feature_attribution is_space matrix np_argsort binary_vectorizer
     granular_model).
Local Notation "'analysis'" :=
  (granular_analysis is_space matrix np_exp np_argsort binary_vectorizer
     granular_model).
Local Notation "'engine'" :=
  (layered_predict str_lower is_space is_word is_digit matrix np_exp
     np_argsort binary_model binary_vectorizer granular_model).
Local Notation "'vectorize'" :=
  (Call (vec_id matrix binary_vectorizer) M_transform).
Local Notation "'bin_vec_of' t" :=
  (transform matrix binary_vectorizer [t]) (at level 10).

(** ** The calls a run makes *)

Lemma fallback_log model vector x t :
  fallback model vector = (Return x, t) ->
  predict_proba matrix model = None ->
  t = binary_calls matrix model.
Proof.
  unfold get_svc_confidence_fallback, binary_calls. intros H Hp. rewrite Hp.
  split_bind H as f Hf. apply getattr_inv in Hf. destruct Hf as [_ ->].
  split_bind H as rows Hrows. apply call_inv in Hrows. destruct Hrows as [_ ->].
  split_bind H as sc Hsc. apply py_index_inv in Hsc. destruct Hsc as [_ ->].
  destruct sc as [s|v].
  - apply ret_inv in H. destruct H as [_ ->]. subst. reflexivity.
  - split_bind H as i Hi. apply lift_inv in Hi. destruct Hi as [_ ->].
    split_bind H as c Hc. apply py_index_inv in Hc. destruct Hc as [_ ->].
    split_bind H as p Hp'. apply py_index_inv in Hp'. destruct Hp' as [_ ->].
    split_bind H as d Hd. apply lift_inv in Hd. destruct Hd as [_ ->].
    apply ret_inv in H. destruct H as [_ ->]. subst. reflexivity.
Qed.

Lemma binary_stage_log bin_vec x t :
  binary bin_vec = (Return x, t) -> t = binary_calls matrix binary_model.
Proof.
  unfold binary_stage.
  destruct (predict_proba matrix binary_model) as [proba|] eqn:Hp.
  - intros H. unfold binary_calls. rewrite Hp.
    split_bind H as rows Hrows. apply call_inv in Hrows. destruct Hrows as [_ ->].
    split_bind H as row Hrow. apply py_index_inv in Hrow. destruct Hrow as [_ ->].
    split_bind H as p Hp1. apply py_index_inv in Hp1. destruct Hp1 as [_ ->].
    apply ret_inv in H. destruct H as [_ ->]. subst. reflexivity.
  - intros H. split_bind H as y Hy. destruct y as [[[p c] cp] all].
    apply ret_inv in H. destruct H as [_ ->]. subst. rewrite app_nil_r.
    eapply fallback_log; eassumption.
Qed.

Lemma granular_log text_clean x t :
  granular text_clean = (Return x, t) ->
  t = vectorize :: granular_calls matrix granular_model.
Proof.
  unfold granular_stage, granular_calls, granular_vectorizer. intros H.
  split_bind H as v Hv. apply call_inv in Hv. destruct Hv as [<- ->].
  destruct (predict_proba matrix granular_model) as [proba|] eqn:Hp.
  - split_bind H as ls Hls. apply call_inv in Hls. destruct Hls as [_ ->].
    split_bind H as l Hl. apply py_index_inv in Hl. destruct Hl as [_ ->].
    split_bind H as rows Hrows. apply call_inv in Hrows. destruct Hrows as [_ ->].
    split_bind H as row Hrow. apply py_index_inv in Hrow. destruct Hrow as [_ ->].
    split_bind H as i Hi. apply list_index_inv in Hi. destruct Hi as [-> _].
    split_bind H as p Hp1. apply py_index_inv in Hp1. destruct Hp1 as [_ ->].
    split_bind H as d Hd. apply lift_inv in Hd. destruct Hd as [_ ->].
    apply ret_inv in H. destruct H as [_ ->]. subst. reflexivity.
  - split_bind H as y Hy. destruct y as [[[l c] cp] all].
    apply ret_inv in H. destruct H as [_ ->]. subst.
    apply fallback_log in Hy; [|exact Hp]. subst.
    unfold binary_calls. rewrite Hp. reflexivity.
Qed.

Lemma mapM_silent {A B} (f : A -> M B) :
  (forall x y t, f x = (Return y, t) -> t = []) ->
  forall l ys t, mapM f l = (Return ys, t) -> t = [].
Proof.
  intros Hf. induction l as [|x l IH]; intros ys t H; simpl in H.
  - now apply ret_inv in H.
  - split_bind H as y Hy. split_bind H as ys' Hys.
    apply ret_inv in H. destruct H as [_ ->].
    apply Hf in Hy. apply IH in Hys. subst. reflexivity.
Qed.

Lemma feature_entry_silent names coefs i e t :
  feature_entry names coefs i = (Return e, t) -> t = [].
Proof.
  unfold feature_entry. intros H.
  split_bind H as n Hn. apply py_index_inv in Hn. destruct Hn as [_ ->].
  split_bind H as c Hc. apply py_index_inv in Hc. destruct Hc as [_ ->].
  apply ret_inv in H. destruct H as [_ ->]. subst. reflexivity.
Qed.

Lemma input_entry_silent names coefs words i es t :
  input_entry names coefs words i = (Return es, t) -> t = [].
Proof.
  unfold input_entry. intros H.
  split_bind H as n Hn. apply py_index_inv in Hn. destruct Hn as [_ ->].
  destruct (str_in n words).
  - split_bind H as e He. apply feature_entry_silent in He.
    apply ret_inv in H. destruct H as [_ ->]. subst. reflexivity.
  - apply ret_inv in H. destruct H as [_ ->]. subst. reflexivity.
Qed.

Lemma attribution_log lbl text_clean x t :
  attribution lbl text_clean = (Return x, t) ->
  t = attribution_calls matrix binary_vectorizer granular_model.
Proof.
  unfold feature_attribution, attribution_calls, granular_vectorizer.
  destruct (coef_ matrix granular_model) as [coef|].
  - intros H.
    split_bind H as i Hi. apply list_index_inv in Hi. destruct Hi as [-> _].
    split_bind H as row Hrow. apply py_index_inv in Hrow. destruct Hrow as [_ ->].
    split_bind H as names Hn. apply call_inv in Hn. destruct Hn as [_ ->].
    split_bind H as found Hf. apply mapM_silent in Hf;
      [|intros ? ? ?; apply input_entry_silent].
    split_bind H as g Hg. apply mapM_silent in Hg;
      [|intros ? ? ?; apply feature_entry_silent].
    apply ret_inv in H. destruct H as [_ ->]. subst. reflexivity.
  - intros H. now apply ret_inv in H.
Qed.

(** ** The three outcomes of a request *)

(** Property X1.
    Every response is the error payload, the early response or the
    full response; the full one is labelled [Unknown / Borderline] or
    [Fake], carries [None] or a float mapping as
    [granular_confidence_all], and reports the features as two lists
    when the granular model has coefficients and as two markers when it
    has none. *)
Theorem response_shapes text r t :
  engine text = (Return r, t) ->
  r = error_payload \/
  (exists bc ct, r = true_payload bc ct) \/
  (exists lab bc ct gp gt ga ti tg,
      r = full_payload lab bc ct gp gt ga ti tg /\
      (lab = py "Unknown / Borderline" \/ lab = py "Fake") /\
      (ga = PyNone \/ exists d, ga = PyFloatDict d) /\
      match coef_ matrix granular_model with
      | Some _ => exists a b, ti = PyPairs a /\ tg = PyPairs b
      | None => ti = PyStr msg_no_features /\ tg = PyStr msg_no_features
      end).
Proof.
  intros Hr. apply engine_inv in Hr.
  destruct Hr as [(_ & -> & _)|(tc & pred & C & conf & tb & _ & _ & _ & Hr)];
    [now left|].
  right. destruct Hr as [(_ & -> & _)|(_ & ta & Ha & _)];
    [left; now eexists _, _|].
  right. apply analysis_inv in Ha.
  destruct Ha as (lbl & top & all & ti & tg & gp & tg' & tf
                  & Hg & Hattr & _ & _ & ->).
  eexists _, _, _, _, _, _, _, _. split; [reflexivity|].
  split; [destruct (Qle_bool 50 C); auto|].
  split; [now apply granular_inv in Hg|].
  unfold feature_attribution in Hattr.
  destruct (coef_ matrix granular_model) as [coef|].
  - split_bind Hattr as i Hi. split_bind Hattr as row Hrow.
    split_bind Hattr as names Hn. split_bind Hattr as found Hf.
    split_bind Hattr as g Hg'. apply ret_inv in Hattr.
    destruct Hattr as [E _]. injection E as <- <-. now eexists _, _.
  - apply ret_inv in Hattr. destruct Hattr as [E _]. now injection E as <- <-.
Qed.

(** Property X2.
    The external calls of a successful request, in order: nothing for
    the error payload; the vectorizer and the binary model for the
    early response; for the full response, in addition, the vectorizer
    again, the granular model, and the vocabulary only if the granular
    model has coefficients. *)
Theorem call_protocol text r t :
  engine text = (Return r, t) ->
  (r = error_payload /\ t = []) \/
  (true_terminal r /\ t = vectorize :: binary_calls matrix binary_model) \/
  (r <> error_payload /\ ~ true_terminal r /\
   t = vectorize :: binary_calls matrix binary_model
       ++ vectorize :: granular_calls matrix granular_model
       ++ attribution_calls matrix binary_vectorizer granular_model).
Proof.
  intros Hr. apply engine_inv in Hr.
  destruct Hr as [(_ & -> & ->)|(tc & pred & C & conf & tb & _ & _ & Hb & Hr)];
    [now left|].
  right. apply binary_stage_log in Hb. subst tb.
  destruct Hr as [(_ & -> & ->)|(_ & ta & Ha & ->)].
  - left. split; [now eexists _, _ | reflexivity].
  - right. apply analysis_inv in Ha.
    destruct Ha as (lbl & top & all & ti & tg & gp & tg' & tf
                    & Hg & Hattr & _ & -> & ->).
    apply granular_log in Hg. apply attribution_log in Hattr. subst.
    split; [discriminate|]. split; [apply full_payload_not_true|].
    reflexivity.
Qed.

(** ** Confidences on display *)

Lemma predicted_confidence_half C :
  50 <= predicted_confidence (threshold_label C) C.
Proof.
  destruct (predicted_confidence_cases C) as [(H & _ & ->)|(H & _ & ->)]; lra.
Qed.

Lemma py_round_2_ge (z : Z) x : inject_Z z <= x -> inject_Z z <= py_round x 2.
Proof.
  intros H. rewrite <- (py_round_whole 2 z). now apply py_round_mono.
Qed.

Lemma py_round_2_le (z : Z) x : x <= inject_Z z -> py_round x 2 <= inject_Z z.
Proof.
  intros H. rewrite <- (py_round_whole 2 z). now apply py_round_mono.
Qed.

(** Property X4.
    The reported [binary_confidence] is the confidence in the predicted
    binary class: never below 50, equal to [C_True_confidence] when
    that one is at least 50. *)
Theorem binary_confidence_at_least_half text r t :
  engine text = (Return r, t) -> r <> error_payload ->
  exists bc ct,
    dict_get r (py "binary_confidence") = Some (PyFloat bc) /\
    dict_get r (py "C_True_confidence") = Some (PyFloat ct) /\
    50 <= bc /\
    (50 < ct -> bc = ct).
Proof.
  intros Hr Hne. apply engine_inv in Hr.
  destruct Hr as [(_ & -> & _)|(tc & pred & C & conf & tb & _ & _ & Hb & Hr)];
    [now destruct Hne|].
  apply binary_stage_inv in Hb. destruct Hb as [_ ->].
  assert (Hbc : 50 <= py_round (predicted_confidence (threshold_label C) C) 2).
  { apply (py_round_2_ge 50). apply predicted_confidence_half. }
  assert (Heq : 50 < py_round C 2 ->
                py_round (predicted_confidence (threshold_label C) C) 2
                = py_round C 2).
  { intros H.
    destruct (predicted_confidence_cases C) as [(_ & _ & ->)|(Hlt & _ & _)];
      [reflexivity|].
    exfalso. apply (Qlt_not_le _ _ H). apply (py_round_2_le 50).
    now apply Qlt_le_weak. }
  destruct Hr as [(_ & -> & _)|(_ & ta & Ha & _)].
  - eexists _, _. repeat split; auto.
  - apply analysis_inv in Ha.
    destruct Ha as (lbl & top & all & ti & tg & gp & tg' & tf & _ & _ & _ & _ & ->).
    eexists _, _. repeat split; auto.
Qed.

(** Property X5.
    The displayed [C_True_confidence] agrees with the verdict: at least
    60 for [True], between 50 and 60 for [Unknown / Borderline], at
    most 50 for [Fake]. *)
Theorem displayed_confidence_ranges text r t :
  engine text = (Return r, t) -> r <> error_payload ->
  exists lab ct,
    dict_get r (py "binary_prediction") = Some (PyStr lab) /\
    dict_get r (py "C_True_confidence") = Some (PyFloat ct) /\
    ((lab = py "True" /\ 60 <= ct) \/
     (lab = py "Unknown / Borderline" /\ 50 <= ct <= 60) \/
     (lab = py "Fake" /\ ct <= 50)).
Proof.
  intros Hr Hne. apply engine_inv in Hr.
  destruct Hr as [(_ & -> & _)|(tc & pred & C & conf & tb & _ & _ & _ & Hr)];
    [now destruct Hne|].
  destruct Hr as [(Hle & -> & _)|(Hlt & ta & Ha & _)].
  - eexists _, _. split; [reflexivity|]. split; [reflexivity|].
    left. split; [reflexivity|]. now apply (py_round_2_ge 60).
  - apply analysis_inv in Ha.
    destruct Ha as (lbl & top & all & ti & tg & gp & tg' & tf & _ & _ & _ & _ & ->).
    eexists _, _. split; [reflexivity|]. split; [reflexivity|].
    right. destruct (Qle_bool 50 C) eqn:E.
    + left. apply Qle_bool_iff in E. split; [reflexivity|]. split.
      * now apply (py_round_2_ge 50).
      * apply (py_round_2_le 60). now apply Qlt_le_weak.
    + right. split; [reflexivity|]. apply (py_round_2_le 50).
      apply Qlt_le_weak, Qnot_le_lt. intros H. apply Qle_bool_iff in H.
      change (Qle_bool 50 C = true) in H. congruence.
Qed.

(** ** The fallback estimator *)

Lemma argmax_from_spec xs : forall best bi i,
  (argmax_from best bi i xs = bi /\ np_max best xs = best /\
   Forall (fun x => x <= best) xs) \/
  (exists k, argmax_from best bi i xs = (i + k)%nat /\
             first_maximum xs k (np_max best xs) /\
             best < np_max best xs).
Proof.
  induction xs as [|y ys IH]; intros best bi i; simpl.
  - left. auto.
  - destruct (Qle_bool y best) eqn:E.
    + apply Qle_bool_iff in E.
      destruct (IH best bi (S i)) as [(Hr & Hm & Hall)|(k & Hr & (Hn & Hall & Hlt) & Hb)].
      * left. auto.
      * right. exists (S k). split; [rewrite Hr; lia|]. split; [|exact Hb].
        split; [exact Hn|]. split.
        -- constructor; [lra | exact Hall].
        -- intros [|j] x Hj Hx; simpl in Hx.
           ++ injection Hx as <-. lra.
           ++ apply (Hlt j); [lia | exact Hx].
    + assert (Hy : best < y).
      { apply Qnot_le_lt. intros H. apply Qle_bool_iff in H. congruence. }
      destruct (IH y i (S i)) as [(Hr & Hm & Hall)|(k & Hr & (Hn & Hall & Hlt) & Hb)].
      * right. exists 0%nat. rewrite Hr, Hm. split; [lia|]. split; [|exact Hy].
        split; [reflexivity|]. split.
        -- constructor; [lra | exact Hall].
        -- intros j x Hj. lia.
      * right. exists (S k). split; [rewrite Hr; lia|]. split; [|lra].
        split; [exact Hn|]. split.
        -- constructor; [lra | exact Hall].
        -- intros [|j] x Hj Hx; simpl in Hx.
           ++ injection Hx as <-. exact Hb.
           ++ apply (Hlt j); [lia | exact Hx].
Qed.

(** [np.argmax] and [np.max] agree: the index is the first position
    of the maximum. *)
Lemma np_argmax_spec v idx :
  np_argmax v = Return idx ->
  first_maximum v idx (np_max (hd 0 v) (tl v)).
Proof.
  destruct v as [|x xs]; [discriminate|]. simpl. intros [= <-].
  destruct (argmax_from_spec xs x 0%nat 1%nat)
    as [(Hr & Hm & Hall)|(k & Hr & (Hn & Hall & Hlt) & Hb)].
  - rewrite Hr, Hm. split; [reflexivity|]. split.
    + constructor; [lra | exact Hall].
    + intros j y Hj. lia.
  - rewrite Hr. split; [exact Hn|]. split.
    + constructor; [lra | exact Hall].
    + intros [|j] y Hj Hy; simpl in Hy.
      * injection Hy as <-. exact Hb.
      * apply (Hlt j); [lia | exact Hy].
Qed.

(** The vector branch of the fallback, read backwards. *)
Lemma fallback_vector_inv model vector f v rest x t :
  decision_function matrix model = Some f ->
  f vector = Margins v :: rest ->
  fallback model vector = (Return x, t) ->
  exists idx pred p d,
    np_argmax v = Return idx /\
    nth_error (classes_ matrix model) idx = Some pred /\
    nth_error (softmax np_exp v) idx = Some p /\
    class_confidences (classes_ matrix model) (softmax np_exp v) = Return d /\
    x = (pred, None, p * 100, Some d) /\
    t = [Call (clf_id matrix model) M_decision_function].
Proof.
  intros Hf Hrows H. unfold get_svc_confidence_fallback in H.
  rewrite Hf in H. cbn [getattr ret call bind] in H. rewrite Hrows in H.
  cbn [py_index nth_error ret bind] in H.
  destruct (bind (lift (np_argmax v)) _) as [o t'] eqn:E.
  injection H as -> Ht.
  split_bind E as i Hmax. apply lift_inv in Hmax. destruct Hmax as [Hmax ->].
  split_bind E as cls Hcls. apply py_index_inv in Hcls. destruct Hcls as [Hcls ->].
  split_bind E as p Hp. apply py_index_inv in Hp. destruct Hp as [Hp ->].
  split_bind E as d Hconf.
  apply lift_inv in Hconf. destruct Hconf as [Hconf ->].
  apply ret_inv in E. destruct E as [<- ->].
  subst. exists i, cls, p, d. repeat split; assumption.
Qed.

(** A fallback answer with a [C_True] comes from a scalar margin. *)
Lemma fallback_scalar_inv model vector pred C conf all t :
  fallback model vector = (Return (pred, Some C, conf, all), t) ->
  exists s, C = 1 / (1 + np_exp (- s)) * 100.
Proof.
  unfold get_svc_confidence_fallback. intros H.
  bind_inv H. bind_inv H. bind_inv H.
  destruct a1 as [s|v].
  - apply ret_inv in H. destruct H as [H _]. injection H as _ <- _ _.
    now exists s.
  - bind_inv H. bind_inv H. bind_inv H. bind_inv H.
    apply ret_inv in H. destruct H as [H _]. discriminate.
Qed.

Lemma logistic_range e : 0 <= e -> 0 <= 1 / (1 + e) * 100 <= 100.
Proof.
  intros He.
  assert (H1 : 0 < 1 / (1 + e)).
  { apply Qlt_shift_div_l; lra. }
  assert (H2 : 1 / (1 + e) <= 1).
  { apply Qle_shift_div_r; lra. }
  lra.
Qed.

(** Property X6.
    With a non-negative exponential, the binary score of the fallback
    (lines 45-57) is a percentage, and the confidence in the predicted
    label lies between 50 and 100. *)
Theorem fallback_binary_range model vector pred C conf all t :
  (forall x, 0 <= np_exp x) ->
  get_svc_confidence_fallback matrix np_exp model vector
  = (Return (pred, Some C, conf, all), t) ->
  0 <= C <= 100 /\ 50 <= conf <= 100.
Proof.
  intros Hexp H.
  destruct (fallback_scalar_inv _ _ _ _ _ _ _ H) as (s & HC).
  destruct (fallback_inv _ _ _ _ _ _ _ _ _ H) as (_ & Hconf & _).
  pose proof (logistic_range (np_exp (- s)) (Hexp _)) as Hr.
  rewrite <- HC in Hr. split; [exact Hr|].
  destruct (predicted_confidence_cases C) as [(H1 & _ & E)|(H1 & _ & E)];
    rewrite Hconf, E; lra.
Qed.

(** Property X7.
    The multi-class branch of the fallback (lines 59-62) predicts the
    class at the first position of the largest margin. *)
Theorem fallback_predicts_first_maximum model vector f v rest pred c conf all t :
  decision_function matrix model = Some f ->
  f vector = Margins v :: rest ->
  fallback model vector = (Return (pred, c, conf, all), t) ->
  exists idx m,
    nth_error (classes_ matrix model) idx = Some pred /\
    first_maximum v idx m.
Proof.
  intros Hf Hrows H.
  destruct (fallback_vector_inv _ _ _ _ _ _ _ Hf Hrows H)
    as (idx & p & q & d & Hmax & Hcls & _ & _ & E & _).
  injection E as -> _ _ _.
  exists idx, (np_max (hd 0 v) (tl v)). split; [exact Hcls|].
  now apply np_argmax_spec.
Qed.

(** ** The granular stage, read backwards *)

(** What a successful fallback call has seen and returned. *)
Lemma fallback_cases model vector x t :
  fallback model vector = (Return x, t) ->
  exists f rest,
    decision_function matrix model = Some f /\
    ((exists s, f vector = Margin s :: rest /\
                x = (LInt (threshold_label (1 / (1 + np_exp (- s)) * 100)),
                     Some (1 / (1 + np_exp (- s)) * 100),
                     predicted_confidence
                       (threshold_label (1 / (1 + np_exp (- s)) * 100))
                       (1 / (1 + np_exp (- s)) * 100),
                     None)) \/
     (exists v, f vector = Margins v :: rest)).
Proof.
  intros H. pose proof H as H0. unfold get_svc_confidence_fallback in H.
  split_bind H as f Hf. apply getattr_inv in Hf. destruct Hf as [Hf _].
  split_bind H as rows Hrows. apply call_inv in Hrows. destruct Hrows as [Hrows _].
  split_bind H as sc Hsc. apply py_index_inv in Hsc. destruct Hsc as [Hsc _].
  destruct rows as [|sc' rest]; [discriminate|]. simpl in Hsc.
  injection Hsc as ->. exists f, rest. split; [exact Hf|].
  destruct sc as [s|v].
  - left. exists s. split; [exact Hrows|].
    apply ret_inv in H. now destruct H as [<- _].
  - right. now exists v.
Qed.

(** The calibrated branch of the granular stage (lines 164-174). *)
Lemma granular_calibrated_inv text_clean proba lbl top all t :
  predict_proba matrix granular_model = Some proba ->
  granular text_clean = (Return (lbl, top, all), t) ->
  exists row idx p d,
    nth_error (classes_ matrix granular_model) idx = Some lbl /\
    nth_error row idx = Some p /\
    class_confidences (classes_ matrix granular_model) row = Return d /\
    top = p * 100 /\ all = PyFloatDict d.
Proof.
  intros Hp H. unfold granular_stage in H. rewrite Hp in H.
  split_bind H as gran_vec Hvec. split_bind H as labels Hlabels.
  split_bind H as gran_label Hlabel. split_bind H as rows Hcall.
  split_bind H as gran_probs Hprobs. split_bind H as idx Hidx.
  split_bind H as p Hp'. split_bind H as d Hconf.
  apply lift_inv in Hconf. destruct Hconf as [Hconf _].
  apply ret_inv in H. destruct H as [H _]. injection H as <- <- <-.
  apply list_index_inv in Hidx. destruct Hidx as [_ Hidx].
  apply py_index_inv in Hp'. destruct Hp' as [Hp' _].
  now exists gran_probs, idx, p, d.
Qed.

(** The margin branch of the granular stage (lines 175-177). *)
Lemma granular_fallback_inv text_clean lbl top all t :
  predict_proba matrix granular_model = None ->
  granular text_clean = (Return (lbl, top, all), t) ->
  exists c oa tf,
    fallback granular_model (bin_vec_of text_clean)
    = (Return (lbl, c, top, oa), tf) /\
    all = match oa with Some d => PyFloatDict d | None => PyNone end.
Proof.
  intros Hp H. unfold granular_stage in H. rewrite Hp in H.
  split_bind H as gran_vec Hvec. apply call_inv in Hvec. destruct Hvec as [<- _].
  split_bind H as x Hx. destruct x as [[[l c] cp] oa].
  apply ret_inv in H. destruct H as [H _]. injection H as <- <- <-.
  eexists c, oa, _. split; [exact Hx | reflexivity].
Qed.

(** A granular answer with a mapping: the label is the class at some
    index, the top confidence a hundred times the probability at that
    index, and the mapping is built from the classes and that row. *)
Lemma granular_mapping_inv text_clean lbl top d t :
  granular text_clean = (Return (lbl, top, PyFloatDict d), t) ->
  exists row idx p,
    nth_error (classes_ matrix granular_model) idx = Some lbl /\
    nth_error row idx = Some p /\
    class_confidences (classes_ matrix granular_model) row = Return d /\
    top = p * 100 /\
    (predict_proba matrix granular_model = None ->
     exists v m, row = softmax np_exp v /\ first_maximum v idx m).
Proof.
  intros H. destruct (predict_proba matrix granular_model) as [proba|] eqn:Hp.
  - destruct (granular_calibrated_inv _ _ _ _ _ _ Hp H)
      as (row & idx & p & d' & H1 & H2 & H3 & H4 & [= <-]).
    exists row, idx, p. repeat split; try assumption. discriminate.
  - destruct (granular_fallback_inv _ _ _ _ _ Hp H) as (c & oa & tf & Hf & Hall).
    destruct (fallback_cases _ _ _ _ Hf) as (f & rest & Hd & [(s & _ & E)|(v & Hv)]).
    + injection E as _ _ _ ->. discriminate.
    + destruct (fallback_vector_inv _ _ _ _ _ _ _ Hd Hv Hf)
        as (idx & pred & p & d' & Hmax & Hcls & Hnth & Hconf & E & _).
      injection E as -> _ -> ->. injection Hall as ->.
      exists (softmax np_exp v), idx, p. repeat split; try assumption.
      intros _. exists v, (np_max (hd 0 v) (tl v)). split; [reflexivity|].
      now apply np_argmax_spec.
Qed.

(** A response that carries a float mapping is a full response built
    from a granular answer with that mapping. *)
Lemma mapping_response_inv text r t d :
  engine text = (Return r, t) ->
  dict_get r (py "granular_confidence_all") = Some (PyFloatDict d) ->
  exists text_clean lab bc ct lbl top ti tg gp tg',
    granular text_clean = (Return (lbl, top, PyFloatDict d), tg') /\
    label_strip lbl = Return gp /\
    r = full_payload lab bc ct gp (py_round top 2) (PyFloatDict d) ti tg.
Proof.
  intros Hr Hd. apply engine_inv in Hr.
  destruct Hr as [(_ & -> & _)|(tc & pred & C & conf & tb & _ & _ & _ & Hr)];
    [discriminate|].
  destruct Hr as [(_ & -> & _)|(_ & ta & Ha & _)]; [discriminate|].
  apply analysis_inv in Ha.
  destruct Ha as (lbl & top & all & ti & tg & gp & tg' & tf
                  & Hg & _ & Hs & _ & ->).
  injection Hd as ->. now eexists tc, _, _, _, lbl, top, ti, tg, gp, tg'.
Qed.

Lemma Forall2_nth_error {A B} (R : A -> B -> Prop) l1 l2 :
  Forall2 R l1 l2 ->
  forall i a, nth_error l1 i = Some a ->
              exists b, nth_error l2 i = Some b /\ R a b.
Proof.
  induction 1 as [|x y l1 l2 Hxy _ IH]; intros [|i] a Ha; try discriminate.
  - injection Ha as <-. now exists y.
  - now apply IH.
Qed.

(** With distinct names, the entry of the class at an index is the
    percentage of the probability at that index. *)
Lemma class_confidences_at classes probs d idx lbl p gp :
  distinct_names classes ->
  class_confidences classes probs = Return d ->
  nth_error classes idx = Some lbl -> nth_error probs idx = Some p ->
  label_strip lbl = Return gp ->
  dict_get d gp = Some (percent p).
Proof.
  intros (names & Hn & Hnd) Hd Hl Hp Hs.
  destruct (confidences_into_spec _ _ Hn probs [] (NoDup_nil _))
    as (d' & Hd' & _ & Hget & _).
  unfold class_confidences in Hd. rewrite Hd in Hd'. injection Hd' as <-.
  rewrite Hget.
  destruct (Forall2_nth_error _ _ _ Hn _ _ Hl) as (n & Hnth & Hn').
  rewrite Hs in Hn'. injection Hn' as <-.
  rewrite (last_value_NoDup names (map percent probs) idx gp (percent p));
    [reflexivity | exact Hnd | exact Hnth |].
  now apply map_nth_error.
Qed.

(** Property X9.
    For a granular model whose classes have distinct names, the
    mapping [granular_confidence_all] of a response holds, under the
    name [granular_prediction], the value [granular_confidence_top]. *)
Theorem top_confidence_in_mapping text r t d :
  distinct_names (classes_ matrix granular_model) ->
  engine text = (Return r, t) ->
  dict_get r (py "granular_confidence_all") = Some (PyFloatDict d) ->
  exists gp x,
    dict_get r (py "granular_prediction") = Some (PyStr gp) /\
    dict_get r (py "granular_confidence_top") = Some (PyFloat x) /\
    dict_get d gp = Some x.
Proof.
  intros Hnames Hr Hd.
  destruct (mapping_response_inv _ _ _ _ Hr Hd)
    as (tc & lab & bc & ct & lbl & top & ti & tg & gp & tg' & Hg & Hs & ->).
  destruct (granular_mapping_inv _ _ _ _ _ Hg)
    as (row & idx & p & Hl & Hp & Hc & -> & _).
  exists gp, (py_round (p * 100) 2). split; [reflexivity|].
  split; [reflexivity|].
  exact (class_confidences_at _ _ _ _ _ _ _ Hnames Hc Hl Hp Hs).
Qed.

Lemma dict_set_values {V} (d : dict V) k v x :
  In x (dict_values (dict_set d k v)) -> x = v \/ In x (dict_values d).
Proof.
  unfold dict_values. induction d as [|[k' v'] d IH]; simpl.
  - intros [<-|[]]. now left.
  - destruct (str_eqb k' k); simpl.
    + intros [<-|H]; auto.
    + intros [<-|H]; auto. apply IH in H. tauto.
Qed.

(** Every value of the comprehension is the percentage of one of the
    probabilities, every key the stripped name of one of the classes. *)
Lemma confidences_into_entries pairs : forall acc d,
  confidences_into acc pairs = Return d ->
  (forall x, In x (dict_values d) ->
             In x (dict_values acc) \/
             exists p, In p (map snd pairs) /\ x = percent p) /\
  (forall k, In k (dict_keys d) ->
             In k (dict_keys acc) \/
             exists s, k = py_strip (N.eqb DQUOTE) s).
Proof.
  induction pairs as [|[c p] pairs IH]; intros acc d H; simpl in H.
  - injection H as <-. auto.
  - destruct (label_strip c) as [key|e] eqn:Ec; [|discriminate].
    destruct (IH _ _ H) as [Hv Hk]. split.
    + intros x Hx. destruct (Hv x Hx) as [Hx'|(q & Hq & ->)].
      * apply dict_set_values in Hx'. destruct Hx' as [->|Hx'].
        -- right. exists p. split; [now left | reflexivity].
        -- now left.
      * right. exists q. split; [now right | reflexivity].
    + intros k Hx. destruct (Hk k Hx) as [Hx'|Hx']; [|now right].
      rewrite dict_keys_set in Hx'.
      destruct (existsb (str_eqb key) (dict_keys acc)); [now left|].
      apply in_app_iff in Hx'. destruct Hx' as [Hx'|[<-|[]]]; [now left|].
      right. destruct c as [s|z]; [|discriminate].
      injection Ec as <-. now exists s.
Qed.

Lemma qsum_nonneg l : Forall (fun e => 0 <= e) l -> 0 <= qsum l.
Proof. induction 1; simpl; lra. Qed.

(** With a non-negative, monotone exponential the probability at the
    first maximum is the largest of the softmax. *)
Lemma softmax_maximum v idx m q :
  (forall x, 0 <= np_exp x) ->
  (forall x y, x <= y -> np_exp x <= np_exp y) ->
  first_maximum v idx m ->
  nth_error (softmax np_exp v) idx = Some q ->
  Forall (fun p => p <= q) (softmax np_exp v).
Proof.
  intros Hpos Hmono (Hidx & Hall & _) Hq. unfold softmax in *.
  set (top := np_max (hd 0 v) (tl v)) in *.
  set (T := qsum (map (fun d => np_exp (d - top)) v)) in *.
  assert (HT : 0 <= / T).
  { apply Qinv_le_0_compat. apply qsum_nonneg.
    apply Forall_map, Forall_forall. intros x _. apply Hpos. }
  rewrite map_map in Hq. rewrite (map_nth_error _ _ _ Hidx) in Hq.
  injection Hq as <-. rewrite map_map.
  apply Forall_map. rewrite Forall_forall in Hall |- *.
  intros x Hx. unfold Qdiv.
  apply Qmult_le_compat_r; [|exact HT].
  apply Hmono. specialize (Hall x Hx). lra.
Qed.

(** Property X10.
    For a granular model without [predict_proba] and with a
    non-negative, monotone exponential, no value of
    [granular_confidence_all] exceeds [granular_confidence_top]. *)
Theorem fallback_top_is_largest text r t d :
  (forall x, 0 <= np_exp x) ->
  (forall x y, x <= y -> np_exp x <= np_exp y) ->
  predict_proba matrix granular_model = None ->
  engine text = (Return r, t) ->
  dict_get r (py "granular_confidence_all") = Some (PyFloatDict d) ->
  exists x,
    dict_get r (py "granular_confidence_top") = Some (PyFloat x) /\
    Forall (fun y => y <= x) (dict_values d).
Proof.
  intros Hpos Hmono Hnone Hr Hd.
  destruct (mapping_response_inv _ _ _ _ Hr Hd)
    as (tc & lab & bc & ct & lbl & top & ti & tg & gp & tg' & Hg & Hs & ->).
  destruct (granular_mapping_inv _ _ _ _ _ Hg)
    as (row & idx & p & Hl & Hp & Hc & -> & Hsoft).
  destruct (Hsoft Hnone) as (v & m & -> & Hmax).
  exists (py_round (p * 100) 2). split; [reflexivity|].
  pose proof (softmax_maximum _ _ _ _ Hpos Hmono Hmax Hp) as Hle.
  apply Forall_forall. intros y Hy.
  destruct (confidences_into_entries _ _ _ Hc) as [Hv _].
  destruct (Hv y Hy) as [[]|(q & Hq & ->)].
  unfold percent. apply py_round_mono.
  assert (Hq' : In q (softmax np_exp v)).
  { clear - Hq. revert Hq. generalize (softmax np_exp v) as l.
    generalize (classes_ matrix granular_model) as cs.
    induction cs as [|c cs IH]; intros [|x l]; simpl; try tauto.
    intros [<-|H]; [now left | right; now apply (IH l)]. }
  rewrite Forall_forall in Hle. specialize (Hle q Hq'). lra.
Qed.

Lemma label_strip_unquoted lbl gp : label_strip lbl = Return gp -> unquoted gp.
Proof.
  destruct lbl as [s|z]; [|discriminate]. intros [= <-].
  unfold unquoted. destruct (py_strip (N.eqb DQUOTE) s) as [|x u] eqn:E;
    [exact I|].
  destruct (py_strip_ends _ _ _ _ E) as [H1 H2].
  split.
  - intros ->. now rewrite N.eqb_refl in H1.
  - intros Hq. rewrite Hq in H2. now rewrite N.eqb_refl in H2.
Qed.

(** Property X11.
    No reported class name begins or ends with a double quote: neither
    [granular_prediction] nor a key of [granular_confidence_all]. *)
Theorem reported_names_unquoted text r t :
  engine text = (Return r, t) ->
  (forall gp, dict_get r (py "granular_prediction") = Some (PyStr gp) ->
              unquoted gp) /\
  (forall d, dict_get r (py "granular_confidence_all") = Some (PyFloatDict d) ->
             Forall unquoted (dict_keys d)).
Proof.
  intros Hr. split.
  - intros gp Hgp. apply engine_inv in Hr.
    destruct Hr as [(_ & -> & _)|(tc & pred & C & conf & tb & _ & _ & _ & Hr)];
      [discriminate|].
    destruct Hr as [(_ & -> & _)|(_ & ta & Ha & _)].
    + injection Hgp as <-. simpl. split; discriminate.
    + apply analysis_inv in Ha.
      destruct Ha as (lbl & top & all & ti & tg & gp' & tg' & tf
                      & _ & _ & Hs & _ & ->).
      injection Hgp as <-. eapply label_strip_unquoted; eassumption.
  - intros d Hd.
    destruct (mapping_response_inv _ _ _ _ Hr Hd)
      as (tc & lab & bc & ct & lbl & top & ti & tg & gp & tg' & Hg & Hs & ->).
    destruct (granular_mapping_inv _ _ _ _ _ Hg)
      as (row & idx & p & _ & _ & Hc & _ & _).
    destruct (confidences_into_entries _ _ _ Hc) as [_ Hk].
    apply Forall_forall. intros k Hin.
    destruct (Hk k Hin) as [[]|(s & ->)].
    apply (label_strip_unquoted (LStr s)). reflexivity.
Qed.

(** ** Runs that raise *)

(** Property X12.
    A binary model without [predict_proba] whose [decision_function]
    gives a vector of margins never leads to a response: the fallback
    returns no [C_True], and [round(None, 2)] at line 139 raises
    [TypeError] unless the fallback itself has raised. *)
Theorem margin_vector_binary_model_raises text text_clean f v rest :
  clean text = Return text_clean -> text_clean <> [] ->
  predict_proba matrix binary_model = None ->
  decision_function matrix binary_model = Some f ->
  f (bin_vec_of text_clean) = Margins v :: rest ->
  (exists e t, engine text = (Raise e, t)) /\
  (forall x tf,
      fallback binary_model (bin_vec_of text_clean) = (Return x, tf) ->
      engine text =
      (Raise TypeError,
       [vectorize; Call (clf_id matrix binary_model) M_decision_function])).
Proof.
  intros Hc Hne Hp Hf Hrows.
  assert (E : forall x tf,
             fallback binary_model (bin_vec_of text_clean) = (Return x, tf) ->
             engine text =
             (Raise TypeError,
              [vectorize; Call (clf_id matrix binary_model) M_decision_function])).
  { intros x tf Hx.
    destruct (fallback_vector_inv _ _ _ _ _ _ _ Hf Hrows Hx)
      as (idx & pred & p & d & _ & _ & _ & _ & -> & ->).
    unfold layered_predict. rewrite Hc.
    destruct text_clean as [|c s]; [congruence|].
    cbn [lift bind call]. unfold binary_stage. rewrite Hp, Hx. reflexivity. }
  split; [|exact E].
  destruct (fallback binary_model (bin_vec_of text_clean)) as [[x|e] tf] eqn:Hx.
  - eexists _, _. eapply E. reflexivity.
  - unfold layered_predict. rewrite Hc.
    destruct text_clean as [|c s]; [congruence|].
    cbn [lift bind call]. unfold binary_stage. rewrite Hp, Hx.
    eexists _, _. reflexivity.
Qed.

(** Property X13.
    A granular model without [predict_proba] whose [decision_function]
    gives a scalar margin never leads to a response on the escalated
    path: the fallback returns an integer prediction, and [strip] at
    line 202 raises [AttributeError] unless the attribution has raised
    before. *)
Theorem scalar_margin_granular_model_raises
        text text_clean pred C conf tb f s rest :
  clean text = Return text_clean -> text_clean <> [] ->
  binary (bin_vec_of text_clean) = (Return (pred, Some C, conf), tb) ->
  C < 60 ->
  predict_proba matrix granular_model = None ->
  decision_function matrix granular_model = Some f ->
  f (bin_vec_of text_clean) = Margin s :: rest ->
  (exists e t, engine text = (Raise e, t)) /\
  (coef_ matrix granular_model = None ->
   engine text =
   (Raise AttributeError,
    vectorize :: tb
    ++ [vectorize; Call (clf_id matrix granular_model) M_decision_function])).
Proof.
  intros Hc Hne Hb Hlt Hp Hf Hrows.
  assert (Hgate : Qle_bool 60 C = false).
  { destruct (Qle_bool 60 C) eqn:E; [|reflexivity].
    apply Qle_bool_iff in E. apply Qlt_not_le in Hlt. contradiction. }
  assert (Hfb : exists lbl cf,
             fallback granular_model (bin_vec_of text_clean)
             = (Return (LInt lbl, Some (1 / (1 + np_exp (- s)) * 100), cf, None),
                [Call (clf_id matrix granular_model) M_decision_function])).
  { unfold get_svc_confidence_fallback. rewrite Hf. simpl. rewrite Hrows.
    eexists _, _. reflexivity. }
  destruct Hfb as (lbl & cf & Hfb).
  assert (Hg : granular text_clean
               = (Return (LInt lbl, cf, PyNone),
                  [vectorize; Call (clf_id matrix granular_model) M_decision_function])).
  { unfold granular_stage. rewrite Hp. cbn [call bind].
    unfold granular_vectorizer. rewrite Hfb. reflexivity. }
  assert (Heng : engine text =
                 prefix_log (vectorize :: tb)
                   (analysis text_clean C (py_round conf 2) (py_round C 2))).
  { unfold layered_predict. rewrite Hc.
    destruct text_clean as [|c u]; [congruence|].
    cbn [lift bind call]. rewrite Hb. cbn [bind as_float ret]. rewrite Hgate.
    unfold prefix_log.
    destruct (analysis (c :: u) C (py_round conf 2) (py_round C 2)) as [o t].
    reflexivity. }
  rewrite Heng. unfold granular_analysis. rewrite Hg. cbn [bind].
  split.
  - destruct (attribution (LInt lbl) text_clean) as [[[ti tg]|e] ta];
      eexists _, _; reflexivity.
  - intros Hcoef. unfold feature_attribution. rewrite Hcoef. reflexivity.
Qed.

(** Property X14.
    A model with neither [predict_proba] nor [decision_function]
    makes the request fail with [AttributeError] (line 42): in the
    place of the binary model right after the vectorizer call, in the
    place of the granular model right after the second one. *)
Theorem model_without_scores_raises text text_clean :
  clean text = Return text_clean -> text_clean <> [] ->
  (predict_proba matrix binary_model = None ->
   decision_function matrix binary_model = None ->
   engine text = (Raise AttributeError, [vectorize])) /\
  (forall pred C conf tb,
      binary (bin_vec_of text_clean) = (Return (pred, Some C, conf), tb) ->
      C < 60 ->
      predict_proba matrix granular_model = None ->
      decision_function matrix granular_model = None ->
      engine text = (Raise AttributeError, vectorize :: tb ++ [vectorize])).
Proof.
  intros Hc Hne. split.
  - intros Hp Hd. unfold layered_predict. rewrite Hc.
    destruct text_clean as [|c s]; [congruence|].
    cbn [lift bind call]. unfold binary_stage, get_svc_confidence_fallback.
    rewrite Hp, Hd. reflexivity.
  - intros pred C conf tb Hb Hlt Hp Hd.
    rewrite (engine_escalates _ _ _ _ _ _ _ _ _ _ _ _ _ _ _ _ Hc Hne Hb Hlt).
    unfold prefix_log, granular_analysis, granular_stage,
      get_svc_confidence_fallback.
    rewrite Hp, Hd. reflexivity.
Qed.

(** ** The order of the external calls *)

Lemma bind_snd {A B} (m : M A) (f : A -> M B) :
  snd (bind m f)
  = snd m ++ match fst m with Return a => snd (f a) | Raise _ => [] end.
Proof.
  destruct m as [[a|e] t]; simpl.
  - now destruct (f a).
  - now rewrite app_nil_r.
Qed.

Lemma py_index_snd {A} (a : list A) i : snd (py_index a i) = [].
Proof. unfold py_index. now destruct (nth_error a i). Qed.

Lemma index_from_snd l x : forall i, snd (index_from i l x) = [].
Proof.
  induction l as [|y l IH]; intros i; simpl; [reflexivity|].
  destruct (label_eqb y x); [reflexivity | apply IH].
Qed.

Lemma mapM_snd {A B} (f : A -> M B) :
  (forall x, snd (f x) = []) -> forall l, snd (mapM f l) = [].
Proof.
  intros Hf. induction l as [|x l IH]; simpl; [reflexivity|].
  rewrite bind_snd, Hf. simpl. destruct (fst (f x)); [|reflexivity].
  rewrite bind_snd, IH. simpl. now destruct (fst (mapM f l)).
Qed.

Lemma feature_entry_snd names coefs i : snd (feature_entry names coefs i) = [].
Proof.
  unfold feature_entry. rewrite bind_snd, py_index_snd. simpl.
  destruct (fst (py_index names i)); [|reflexivity].
  rewrite bind_snd, py_index_snd. simpl.
  now destruct (fst (py_index coefs i)).
Qed.

Lemma input_entry_snd names coefs words i :
  snd (input_entry names coefs words i) = [].
Proof.
  unfold input_entry. rewrite bind_snd, py_index_snd. simpl.
  destruct (fst (py_index names i)) as [n|]; [|reflexivity].
  destruct (str_in n words); [|reflexivity].
  rewrite bind_snd, feature_entry_snd. simpl.
  now destruct (fst (feature_entry names coefs i)).
Qed.

Lemma is_prefix_nil {A} (l : list A) : is_prefix [] l.
Proof. now exists l. Qed.

Lemma is_prefix_refl {A} (l : list A) : is_prefix l l.
Proof. exists []. now rewrite app_nil_r. Qed.

Lemma is_prefix_cons {A} (x : A) t l : is_prefix t l -> is_prefix (x :: t) (x :: l).
Proof. intros [r ->]. now exists r. Qed.

Lemma is_prefix_app {A} (a t l : list A) :
  is_prefix t l -> is_prefix (a ++ t) (a ++ l).
Proof. intros [r ->]. exists r. now rewrite app_assoc. Qed.

Lemma is_prefix_weaken {A} (t l l' : list A) :
  is_prefix t l -> is_prefix t (l ++ l').
Proof. intros [r ->]. exists (r ++ l'). now rewrite app_assoc. Qed.

(** A step that logs [L1] when it returns, followed by steps that log
    a part of [L2]. *)
Lemma bind_prefix {A B} (m : M A) (f : A -> M B) L1 L2 :
  is_prefix (snd m) L1 ->
  (forall a t, m = (Return a, t) -> t = L1) ->
  (forall a, is_prefix (snd (f a)) L2) ->
  is_prefix (snd (bind m f)) (L1 ++ L2).
Proof.
  intros Hm Hret Hf. rewrite bind_snd. destruct m as [[a|e] t]; simpl in *.
  - rewrite (Hret a t eq_refl). apply is_prefix_app, Hf.
  - rewrite app_nil_r. now apply is_prefix_weaken.
Qed.

(** The fallback asks for [decision_function] once, if the model has
    it, and for nothing else. *)
Lemma fallback_snd model vector :
  snd (fallback model vector)
  = match decision_function matrix model with
    | Some _ => [Call (clf_id matrix model) M_decision_function]
    | None => []
    end.
Proof.
  unfold get_svc_confidence_fallback.
  destruct (decision_function matrix model) as [f|]; [|reflexivity].
  rewrite bind_snd. cbn [getattr ret fst snd app].
  rewrite bind_snd. cbn [call fst snd app]. f_equal.
  rewrite bind_snd, py_index_snd. cbn [app].
  destruct (fst (py_index (f vector) 0)) as [[s|v]|e]; [reflexivity| |reflexivity].
  rewrite bind_snd. cbn [lift fst snd app].
  destruct (np_argmax v) as [i|e]; [|reflexivity].
  rewrite bind_snd, py_index_snd. cbn [app].
  destruct (fst (py_index _ i)); [|reflexivity].
  rewrite bind_snd, py_index_snd. cbn [app].
  destruct (fst (py_index _ i)); [|reflexivity].
  rewrite bind_snd. cbn [lift fst snd app].
  now destruct (class_confidences _ _).
Qed.

Lemma binary_prefix bin_vec :
  is_prefix (snd (binary bin_vec)) (binary_calls matrix binary_model).
Proof.
  unfold binary_stage, binary_calls.
  destruct (predict_proba matrix binary_model) as [proba|].
  - rewrite bind_snd. cbn [call fst snd].
    rewrite bind_snd, py_index_snd. cbn [app].
    destruct (fst (py_index _ 0)); [|apply is_prefix_refl].
    rewrite bind_snd, py_index_snd. cbn [app].
    destruct (fst (py_index _ 1)); apply is_prefix_refl.
  - rewrite bind_snd, fallback_snd.
    destruct (decision_function matrix binary_model).
    + destruct (fst _) as [[[[p c] cp] all]|e]; apply is_prefix_refl.
    + destruct (fst _) as [[[[p c] cp] all]|e]; apply is_prefix_nil.
Qed.

Lemma granular_prefix text_clean :
  is_prefix (snd (granular text_clean))
            (vectorize :: granular_calls matrix granular_model).
Proof.
  unfold granular_stage, granular_calls, granular_vectorizer.
  rewrite bind_snd. cbn [call fst snd app]. apply is_prefix_cons.
  destruct (predict_proba matrix granular_model) as [proba|].
  - rewrite bind_snd. cbn [call fst snd app]. apply is_prefix_cons.
    rewrite bind_snd, py_index_snd. cbn [app].
    destruct (fst (py_index _ 0)) as [lbl|]; [|apply is_prefix_nil].
    rewrite bind_snd. cbn [call fst snd app]. apply is_prefix_cons.
    rewrite bind_snd, py_index_snd. cbn [app].
    destruct (fst (py_index _ 0)); [|apply is_prefix_nil].
    unfold list_index. rewrite bind_snd, index_from_snd. cbn [app].
    destruct (fst (index_from _ _ _)); [|apply is_prefix_nil].
    rewrite bind_snd, py_index_snd. cbn [app].
    destruct (fst (py_index _ _)); [|apply is_prefix_nil].
    rewrite bind_snd. cbn [lift fst snd app].
    destruct (class_confidences _ _); apply is_prefix_nil.
  - rewrite bind_snd, fallback_snd.
    destruct (decision_function matrix granular_model).
    + destruct (fst _) as [[[[p c] cp] all]|e]; apply is_prefix_refl.
    + destruct (fst _) as [[[[p c] cp] all]|e]; apply is_prefix_nil.
Qed.

Lemma attribution_prefix lbl text_clean :
  is_prefix (snd (attribution lbl text_clean))
            (attribution_calls matrix binary_vectorizer granular_model).
Proof.
  unfold feature_attribution, attribution_calls, granular_vectorizer.
  destruct (coef_ matrix granular_model) as [coef|]; [|apply is_prefix_nil].
  unfold list_index. rewrite bind_snd, index_from_snd. cbn [app].
  destruct (fst (index_from _ _ _)); [|apply is_prefix_nil].
  rewrite bind_snd, py_index_snd. cbn [app].
  destruct (fst (py_index _ _)) as [coefs|]; [|apply is_prefix_nil].
  rewrite bind_snd. cbn [call fst snd app]. apply is_prefix_cons.
  rewrite bind_snd, mapM_snd by apply input_entry_snd. cbn [app].
  destruct (fst (mapM _ _)); [|apply is_prefix_nil].
  rewrite bind_snd, mapM_snd by apply feature_entry_snd. cbn [app].
  destruct (fst (mapM _ _)); apply is_prefix_nil.
Qed.

Lemma analysis_prefix text_clean C bc ct :
  is_prefix (snd (analysis text_clean C bc ct))
            ((vectorize :: granular_calls matrix granular_model)
             ++ attribution_calls matrix binary_vectorizer granular_model).
Proof.
  unfold granular_analysis. apply bind_prefix.
  - apply granular_prefix.
  - intros a t. apply granular_log.
  - intros [[lbl top] all].
    rewrite <- (app_nil_r (attribution_calls _ _ _)). apply bind_prefix.
    + apply attribution_prefix.
    + intros a t. apply attribution_log.
    + intros [ti tg]. rewrite bind_snd. cbn [lift fst snd app].
      destruct (label_strip lbl); apply is_prefix_nil.
Qed.

(** Property X3.
    Whatever the outcome of a request, its external calls are an
    initial part of one fixed sequence: the vectorizer, the binary
    model, the vectorizer again, the granular model, the vocabulary.
    Nothing is called out of this order, and nothing else is called. *)
Theorem calls_in_order text :
  is_prefix (snd (engine text))
    (vectorize :: binary_calls matrix binary_model
     ++ vectorize :: granular_calls matrix granular_model
     ++ attribution_calls matrix binary_vectorizer granular_model).
Proof.
  unfold layered_predict. rewrite bind_snd. cbn [lift fst snd app].
  destruct (clean text) as [[|c s]|e]; try apply is_prefix_nil.
  rewrite bind_snd. cbn [call fst snd app]. apply is_prefix_cons.
  apply bind_prefix.
  - apply binary_prefix.
  - intros a t. apply binary_stage_log.
  - intros [[pred [C|]] conf]; [|apply is_prefix_nil].
    rewrite bind_snd. cbn [as_float ret fst snd app].
    destruct (Qle_bool 60 C); [apply is_prefix_nil|].
    apply (analysis_prefix (c :: s)).
Qed.

(** ** The reported features *)

Lemma split_from_words s : forall cur w,
  Forall (fun c => is_space c = false) cur ->
  In w (split_from is_space cur s) ->
  w <> [] /\ Forall (fun c => is_space c = false) w /\
  (forall c, In c w -> In c cur \/ In c s).
Proof.
  induction s as [|x s IH]; intros cur w Hcur; simpl.
  - destruct cur as [|y cur]; [intros []|]. intros [<-|[]].
    split; [|split].
    + intros E. apply (f_equal (@length _)) in E.
      rewrite length_rev in E. discriminate.
    + apply Forall_rev. exact Hcur.
    + intros c Hc. left. now apply in_rev.
  - destruct (is_space x) eqn:E.
    + assert (Hrest : In w (split_from is_space [] s) ->
                      w <> [] /\ Forall (fun c => is_space c = false) w /\
                      (forall c, In c w -> In c cur \/ In c (x :: s))).
      { intros H. destruct (IH [] w (Forall_nil _) H) as (H1 & H2 & H3).
        repeat split; auto. intros c Hc.
        destruct (H3 c Hc) as [[]|H']. right. now right. }
      destruct cur as [|y cur]; [exact Hrest|].
      intros [<-|H]; [|now apply Hrest].
      split; [|split].
      * intros E'. apply (f_equal (@length _)) in E'.
        rewrite length_rev in E'. discriminate.
      * apply Forall_rev. exact Hcur.
      * intros c Hc. left. now apply in_rev.
    + intros H. destruct (IH (x :: cur) w (Forall_cons _ E Hcur) H)
        as (H1 & H2 & H3).
      repeat split; auto. intros c Hc.
      destruct (H3 c Hc) as [[<-|H']|H'];
        [right; now left | now left | right; now right].
Qed.

(** The words of [split] are non-empty, hold no blank, and are made of
    characters of the text. *)
Lemma py_split_words s w :
  In w (py_split is_space s) ->
  w <> [] /\ Forall (fun c => is_space c = false) w /\
  (forall c, In c w -> In c s).
Proof.
  intros H. destruct (split_from_words s [] w (Forall_nil _) H) as (H1 & H2 & H3).
  repeat split; auto. intros c Hc. destruct (H3 c Hc) as [[]|H']. exact H'.
Qed.

(** Whatever the caller hands in, a normalized text has the canonical
    shape. *)
Lemma clean_canonical text text_clean :
  (forall s c, In c (str_lower s) -> is_ascii_upper c = false) ->
  is_space SPACE = true ->
  clean text = Return text_clean -> canonical text_clean = true.
Proof.
  intros Hlow Hsp H. destruct text as [v|items].
  - destruct v as [| |b|z|q|s];
      try (injection H as <-; reflexivity).
    destruct (clean_str_canonical str_lower is_space is_word is_digit
                Hlow Hsp s) as (out & Ho & Hcan).
    rewrite Ho in H. now injection H as <-.
  - unfold clean_text_harmonized in H. simpl in H.
    destruct items as [|a [|b l]]; simpl in H.
    + discriminate.
    + destruct (checknull a); now injection H as <-.
    + discriminate.
Qed.

(** A response that lists input features is a full response of a
    model with coefficients. *)
Lemma feature_response_inv text r t l :
  engine text = (Return r, t) ->
  dict_get r (py "top_features_input") = Some (PyPairs l) ->
  exists text_clean coef coefs g,
    clean text = Return text_clean /\
    coef_ matrix granular_model = Some coef /\ In coefs coef /\
    let entries :=
      map (ranked_entry (get_feature_names_out matrix binary_vectorizer) coefs)
          (ranked_window np_argsort coefs) in
    l = firstn 10
          (filter (fun e => str_in (fst e) (py_split is_space text_clean))
                  entries) /\
    g = firstn 10 entries /\
    dict_get r (py "top_features_overall") = Some (PyPairs g).
Proof.
  intros Hr Hl. apply engine_inv in Hr.
  destruct Hr as [(_ & -> & _)|(tc & pred & C & conf & tb & Hc & _ & _ & Hr)];
    [discriminate|].
  destruct Hr as [(_ & -> & _)|(_ & ta & Ha & _)]; [discriminate|].
  apply analysis_inv in Ha.
  destruct Ha as (lbl & top & all & ti & tg & gp & tg' & tf
                  & _ & Hattr & _ & _ & ->).
  injection Hl as ->.
  destruct (coef_ matrix granular_model) as [coef|] eqn:Hcoef.
  - destruct (attribution_coef _ _ _ _ _ _ _ _ _ _ _ Hcoef Hattr)
      as (idx & coefs & _ & Hrow & Hg & Hi).
    injection Hi as ->. exists tc, coef, coefs, (firstn 10
      (map (ranked_entry (get_feature_names_out matrix binary_vectorizer) coefs)
           (ranked_window np_argsort coefs))).
    split; [exact Hc|]. split; [reflexivity|].
    split; [eapply nth_error_In; eassumption|].
    cbv zeta. split; [reflexivity|]. split; [reflexivity|].
    simpl. now rewrite Hg.
  - unfold feature_attribution in Hattr. rewrite Hcoef in Hattr.
    apply ret_inv in Hattr. destruct Hattr as [E _]. discriminate.
Qed.

(** Property X17.
    Every term listed in [top_features_input] is a single word of
    lowercase ASCII letters: vocabulary entries with a blank (n-grams),
    a digit or any other character are never reported, however large
    their coefficient. *)
Theorem input_features_are_letter_words text r t l :
  (forall s c, In c (str_lower s) -> is_ascii_upper c = false) ->
  is_space SPACE = true ->
  engine text = (Return r, t) ->
  dict_get r (py "top_features_input") = Some (PyPairs l) ->
  Forall (fun e => fst e <> [] /\ forallb is_ascii_lower (fst e) = true) l.
Proof.
  intros Hlow Hsp Hr Hl.
  destruct (feature_response_inv _ _ _ _ Hr Hl)
    as (tc & coef & coefs & g & Hc & _ & _ & -> & _).
  pose proof (clean_canonical _ _ Hlow Hsp Hc) as Hcan.
  unfold canonical in Hcan. apply andb_prop in Hcan. destruct Hcan as [Hcan _].
  apply andb_prop in Hcan. destruct Hcan as [Hset _].
  unfold clean_charset in Hset. rewrite forallb_forall in Hset.
  apply Forall_forall. intros e He. apply firstn_In in He.
  apply filter_In in He. destruct He as [_ He].
  apply existsb_str_In in He.
  destruct (py_split_words _ _ He) as (Hne & Hns & Hin).
  split; [exact Hne|]. apply forallb_forall. intros c Hc'.
  specialize (Hset c (Hin c Hc')). rewrite Forall_forall in Hns.
  specialize (Hns c Hc'). apply orb_prop in Hset.
  destruct Hset as [H|H]; [exact H|].
  apply N.eqb_eq in H. subst c. congruence.
Qed.

Lemma StronglySorted_weaken {A} (R R' : A -> A -> Prop) l :
  (forall x y, R x y -> R' x y) -> StronglySorted R l -> StronglySorted R' l.
Proof.
  intros HR. induction 1 as [|a l Hs IH Hf]; constructor; [exact IH|].
  eapply Forall_impl; [|exact Hf]. intros y. apply HR.
Qed.

Lemma StronglySorted_map {A B} (f : A -> B) (R : B -> B -> Prop) l :
  StronglySorted (fun x y => R (f x) (f y)) l -> StronglySorted R (map f l).
Proof.
  induction 1 as [|a l Hs IH Hf]; simpl; constructor; [exact IH|].
  now apply Forall_map.
Qed.

Lemma StronglySorted_firstn {A} (R : A -> A -> Prop) n l :
  StronglySorted R l -> StronglySorted R (firstn n l).
Proof.
  intros H. rewrite <- (firstn_skipn n l) in H.
  now apply StronglySorted_app_inv in H.
Qed.

Lemma StronglySorted_filter {A} (R : A -> A -> Prop) (p : A -> bool) l :
  StronglySorted R l -> StronglySorted R (filter p l).
Proof.
  induction 1 as [|a l Hs IH Hf]; simpl; [constructor|].
  destruct (p a); [|exact IH]. constructor; [exact IH|].
  apply Forall_forall. intros y Hy. apply filter_In in Hy.
  rewrite Forall_forall in Hf. now apply Hf.
Qed.

(** Property X18.
    With a sorting [argsort], both feature lists of a response are in
    descending order of the reported weight, and
    [top_features_overall] has 10 entries, or as many as the model has
    features if those are fewer. *)
Theorem feature_lists_descending text r t l :
  argsort_spec np_argsort ->
  engine text = (Return r, t) ->
  dict_get r (py "top_features_input") = Some (PyPairs l) ->
  exists g coef coefs,
    dict_get r (py "top_features_overall") = Some (PyPairs g) /\
    coef_ matrix granular_model = Some coef /\ In coefs coef /\
    length g = Nat.min 10 (length coefs) /\
    StronglySorted (fun a b => snd b <= snd a) g /\
    StronglySorted (fun a b => snd b <= snd a) l.
Proof.
  intros Hsort Hr Hl.
  destruct (feature_response_inv _ _ _ _ Hr Hl)
    as (tc & coef & coefs & g & _ & Hcoef & Hin & -> & -> & Hg).
  exists (firstn 10
            (map (ranked_entry (get_feature_names_out matrix binary_vectorizer)
                               coefs)
                 (ranked_window np_argsort coefs))), coef, coefs.
  destruct (ranked_window_top _ Hsort coefs) as (Hlen & _ & _ & Hs & _).
  assert (Hentries :
            StronglySorted (fun a b : str * Q => snd b <= snd a)
              (map (ranked_entry (get_feature_names_out matrix binary_vectorizer)
                                 coefs)
                   (ranked_window np_argsort coefs))).
  { apply StronglySorted_map. eapply StronglySorted_weaken; [|exact Hs].
    intros i j Hij. simpl. now apply py_round_mono. }
  split; [exact Hg|]. split; [exact Hcoef|]. split; [exact Hin|].
  split; [|split].
  - rewrite length_firstn, length_map, Hlen. lia.
  - now apply StronglySorted_firstn.
  - now apply StronglySorted_firstn, StronglySorted_filter.
Qed.

(** ** The endpoint *)

(** Property X19.
    A validated request never fails in the normalizer: the endpoint
    either answers with the error payload without any call, or its
    run, whatever its outcome, begins with the call of the
    vectorizer. *)
Theorem endpoint_reaches_vectorizer (request : Api.TextRequest) :
  let run :=
    Api.predict str_lower is_space is_word is_digit matrix np_exp np_argsort
      binary_model binary_vectorizer granular_model request in
  (clean (InScalar (SStr (Api.text request))) = Return [] /\
   run = (Return error_payload, [])) \/
  (exists text_clean o t,
      clean (InScalar (SStr (Api.text request))) = Return text_clean /\
      text_clean <> [] /\
      run = (o, vectorize :: t)).
Proof.
  intros run. unfold run, Api.predict, layered_predict.
  rewrite clean_str.
  destruct (py_strip is_space _) as [|c s].
  - left. split; reflexivity.
  - right. cbn [lift bind call].
    destruct (bind (binary _) _) as [o t'].
    exists (c :: s), o, t'. split; [reflexivity|]. split; [discriminate|].
    reflexivity.
Qed.
End Further.

(* ================================================================= *)
(** * The further properties on concrete runs *)

Lemma exp2_nonneg x : 0 <= Demo.exp2 x.
Proof. apply Qlt_le_weak, exp2_positive. Qed.

Lemma exp2_monotone x y : x <= y -> Demo.exp2 x <= Demo.exp2 y.
Proof.
  intros H. unfold Demo.exp2. apply Qpower_le_compat_l.
  - now apply Qfloor_resp_le.
  - discriminate.
Qed.

(** A text of the [Fake] range, with both models calibrated. *)
Lemma response_shapes_witness :
  exists r t,
    Demo.run Demo.calibrated_binary Demo.calibrated_granular
      (Demo.text "shocking secret report") = (Return r, t) /\
    exists bc ct gp gt d a b,
      r = full_payload (py "Fake") bc ct gp gt (PyFloatDict d)
            (PyPairs a) (PyPairs b).
Proof.
  eexists _, _. split; [vm_compute; reflexivity|].
  destruct (response_shapes Ascii7.str_lower Ascii7.is_space Ascii7.is_word
              Ascii7.is_digit str Demo.exp2 Demo.argsort Demo.calibrated_binary
              Demo.tfidf Demo.calibrated_granular
              (Demo.text "shocking secret report") _ _
              ltac:(vm_compute; reflexivity))
    as [E|[(bc & ct & E)|(lab & bc & ct & gp & gt & ga & ti & tg & E & _)]];
    try discriminate E.
  injection E as <- <- <- <- <- <- <- <-.
  eexists _, _, _, _, _, _, _. reflexivity.
Defined.

(** The five calls of an escalated run with coefficients. *)
Lemma call_protocol_witness :
  exists r t,
    Demo.run Demo.calibrated_binary Demo.calibrated_granular
      (Demo.text "shocking secret report") = (Return r, t) /\
    t = [Call 1 M_transform; Call 2 M_predict_proba; Call 1 M_transform;
         Call 3 M_predict; Call 3 M_predict_proba;
         Call 1 M_get_feature_names_out].
Proof.
  eexists _, _. split; [vm_compute; reflexivity|].
  destruct (call_protocol Ascii7.str_lower Ascii7.is_space Ascii7.is_word
              Ascii7.is_digit str Demo.exp2 Demo.argsort Demo.calibrated_binary
              Demo.tfidf Demo.calibrated_granular
              (Demo.text "shocking secret report") _ _
              ltac:(vm_compute; reflexivity))
    as [(E & _)|[(_ & E)|(_ & _ & E)]]; reflexivity.
Defined.

(** A [C_True] of 40 is reported with a binary confidence of 60. *)
Lemma binary_confidence_at_least_half_witness :
  exists r t,
    Demo.run Demo.calibrated_binary Demo.calibrated_granular
      (Demo.text "shocking secret report") = (Return r, t) /\
    r <> error_payload /\
    exists bc ct,
      dict_get r (py "binary_confidence") = Some (PyFloat bc) /\
      dict_get r (py "C_True_confidence") = Some (PyFloat ct) /\
      50 <= bc /\ (50 < ct -> bc = ct).
Proof.
  eexists _, _. split; [vm_compute; reflexivity|].
  split; [discriminate|].
  eapply (binary_confidence_at_least_half Ascii7.str_lower Ascii7.is_space
           Ascii7.is_word Ascii7.is_digit str Demo.exp2 Demo.argsort
           Demo.calibrated_binary Demo.tfidf Demo.calibrated_granular
           (Demo.text "shocking secret report")).
  - vm_compute. reflexivity.
  - discriminate.
Defined.

(** A [C_True] of 85 is displayed with the verdict [True]. *)
Lemma displayed_confidence_ranges_witness :
  exists r t,
    Demo.run Demo.calibrated_binary Demo.calibrated_granular (Demo.text "a")
    = (Return r, t) /\
    r <> error_payload /\
    exists lab ct,
      dict_get r (py "binary_prediction") = Some (PyStr lab) /\
      dict_get r (py "C_True_confidence") = Some (PyFloat ct) /\
      ((lab = py "True" /\ 60 <= ct) \/
       (lab = py "Unknown / Borderline" /\ 50 <= ct <= 60) \/
       (lab = py "Fake" /\ ct <= 50)).
Proof.
  eexists _, _. split; [vm_compute; reflexivity|].
  split; [discriminate|].
  eapply (displayed_confidence_ranges Ascii7.str_lower Ascii7.is_space
           Ascii7.is_word Ascii7.is_digit str Demo.exp2 Demo.argsort
           Demo.calibrated_binary Demo.tfidf Demo.calibrated_granular
           (Demo.text "a")).
  - vm_compute. reflexivity.
  - discriminate.
Defined.

(** Two classes that differ only by their quotes share one key, which
    holds the percentage of the later one. *)
Lemma class_confidences_last_wins_witness :
  exists d,
    class_confidences (classes_ str Demo.calibrated_mixed_quotes)
      [3 # 10; 3 # 10; 4 # 10] = Return d /\
    dict_keys d = [py "satire"; py "propaganda"] /\
    dict_get d (py "satire") = Some (percent (4 # 10)).
Proof.
  destruct (class_confidences_last_wins
              (classes_ str Demo.calibrated_mixed_quotes)
              [py "satire"; py "propaganda"; py "satire"]
              [3 # 10; 3 # 10; 4 # 10])
    as (d & Hd & _ & Hget & _).
  - repeat (constructor; [vm_compute; reflexivity|]). constructor.
  - exists d. split; [exact Hd|]. split.
    + vm_compute in Hd. injection Hd as <-. reflexivity.
    + rewrite Hget. reflexivity.
Defined.

(** The raw two-class SVC at margin 0. *)
Lemma fallback_binary_range_witness :
  exists pred C conf all t,
    get_svc_confidence_fallback str Demo.exp2 Demo.svc_binary (py "abc")
    = (Return (pred, Some C, conf, all), t) /\
    0 <= C <= 100 /\ 50 <= conf <= 100.
Proof.
  eexists _, _, _, _, _. split; [vm_compute; reflexivity|].
  eapply (fallback_binary_range str Demo.exp2 Demo.svc_binary (py "abc")
           _ _ _ _ _ exp2_nonneg).
  vm_compute. reflexivity.
Defined.

(** The raw multi-class SVC with margins 0, -1, 1 predicts its third
    class. *)
Lemma fallback_predicts_first_maximum_witness :
  exists pred c conf all t,
    get_svc_confidence_fallback str Demo.exp2 Demo.svc_granular (py "abc")
    = (Return (pred, c, conf, all), t) /\
    exists idx m,
      nth_error (classes_ str Demo.svc_granular) idx = Some pred /\
      first_maximum [0; -1; 1] idx m.
Proof.
  eexists _, _, _, _, _. split; [vm_compute; reflexivity|].
  eapply (fallback_predicts_first_maximum str Demo.exp2 Demo.svc_granular
           (py "abc") (fun _ => [Margins [0; -1; 1]]) [0; -1; 1] []).
  - reflexivity.
  - reflexivity.
  - vm_compute. reflexivity.
Defined.

Lemma top_confidence_in_mapping_witness :
  exists r t d,
    Demo.run Demo.calibrated_binary Demo.calibrated_granular
      (Demo.text "shocking secret report") = (Return r, t) /\
    dict_get r (py "granular_confidence_all") = Some (PyFloatDict d) /\
    exists gp x,
      dict_get r (py "granular_prediction") = Some (PyStr gp) /\
      dict_get r (py "granular_confidence_top") = Some (PyFloat x) /\
      dict_get d gp = Some x.
Proof.
  eexists _, _, _. split; [vm_compute; reflexivity|].
  split; [vm_compute; reflexivity|].
  eapply (top_confidence_in_mapping Ascii7.str_lower Ascii7.is_space
           Ascii7.is_word Ascii7.is_digit str Demo.exp2 Demo.argsort
           Demo.calibrated_binary Demo.tfidf Demo.calibrated_granular
           (Demo.text "shocking secret report") _ _ _
           demo_categories_distinct).
  - vm_compute. reflexivity.
  - vm_compute. reflexivity.
Defined.

Lemma fallback_top_is_largest_witness :
  exists r t d,
    Demo.run Demo.calibrated_binary Demo.svc_granular
      (Demo.text "shocking secret report") = (Return r, t) /\
    dict_get r (py "granular_confidence_all") = Some (PyFloatDict d) /\
    exists x,
      dict_get r (py "granular_confidence_top") = Some (PyFloat x) /\
      Forall (fun y => y <= x) (dict_values d).
Proof.
  eexists _, _, _. split; [vm_compute; reflexivity|].
  split; [vm_compute; reflexivity|].
  eapply (fallback_top_is_largest Ascii7.str_lower Ascii7.is_space
           Ascii7.is_word Ascii7.is_digit str Demo.exp2 Demo.argsort
           Demo.calibrated_binary Demo.tfidf Demo.svc_granular
           (Demo.text "shocking secret report") _ _ _
           exp2_nonneg exp2_monotone).
  - reflexivity.
  - vm_compute. reflexivity.
  - vm_compute. reflexivity.
Defined.

(** The class stored with quotes is reported without them. *)
Lemma reported_names_unquoted_witness :
  exists r t,
    Demo.run Demo.calibrated_binary Demo.calibrated_granular
      (Demo.text "shocking secret report") = (Return r, t) /\
    dict_get r (py "granular_prediction") = Some (PyStr (py "satire")) /\
    unquoted (py "satire").
Proof.
  eexists _, _. split; [vm_compute; reflexivity|].
  split; [reflexivity|].
  apply (proj1 (reported_names_unquoted Ascii7.str_lower Ascii7.is_space
                  Ascii7.is_word Ascii7.is_digit str Demo.exp2 Demo.argsort
                  Demo.calibrated_binary Demo.tfidf Demo.calibrated_granular
                  (Demo.text "shocking secret report") _ _
                  ltac:(vm_compute; reflexivity))).
  reflexivity.
Defined.

(** A multi-class SVC in the place of the binary model. *)
Lemma margin_vector_binary_model_raises_witness :
  Demo.run Demo.svc_granular Demo.calibrated_granular (Demo.text "abc")
  = (Raise TypeError, [Call 1 M_transform; Call 3 M_decision_function]).
Proof.
  refine (proj2
    (margin_vector_binary_model_raises Ascii7.str_lower Ascii7.is_space
       Ascii7.is_word Ascii7.is_digit str Demo.exp2 Demo.argsort
       Demo.svc_granular Demo.tfidf Demo.calibrated_granular
       (Demo.text "abc") (py "abc") (fun _ => [Margins [0; -1; 1]])
       [0; -1; 1] [] _ _ _ _ _) _ _ _).
  - vm_compute. reflexivity.
  - discriminate.
  - reflexivity.
  - reflexivity.
  - reflexivity.
  - vm_compute. reflexivity.
Defined.

(** A two-category SVC in the place of the granular model. *)
Lemma scalar_margin_granular_model_raises_witness :
  Demo.run Demo.calibrated_binary Demo.svc_two_categories
    (Demo.text "shocking secret report")
  = (Raise AttributeError,
     [Call 1 M_transform; Call 2 M_predict_proba;
      Call 1 M_transform; Call 3 M_decision_function]).
Proof.
  refine (proj2
    (scalar_margin_granular_model_raises Ascii7.str_lower Ascii7.is_space
       Ascii7.is_word Ascii7.is_digit str Demo.exp2 Demo.argsort
       Demo.calibrated_binary Demo.tfidf Demo.svc_two_categories
       (Demo.text "shocking secret report") (py "shocking secret report")
       (LInt 0) (Demo.p_true (py "shocking secret report") * 100)
       (100 - Demo.p_true (py "shocking secret report") * 100)
       [Call 2 M_predict_proba] (fun _ => [Margin 2]) 2 [] _ _ _ _ _ _ _) _).
  - vm_compute. reflexivity.
  - discriminate.
  - vm_compute. reflexivity.
  - reflexivity.
  - reflexivity.
  - reflexivity.
  - reflexivity.
  - reflexivity.
Defined.

(** A model that only predicts, in the place of the binary model. *)
Lemma model_without_scores_raises_witness :
  Demo.run Demo.predict_only Demo.calibrated_granular (Demo.text "abc")
  = (Raise AttributeError, [Call 1 M_transform]).
Proof.
  refine (proj1
    (model_without_scores_raises Ascii7.str_lower Ascii7.is_space
       Ascii7.is_word Ascii7.is_digit str Demo.exp2 Demo.argsort
       Demo.predict_only Demo.tfidf Demo.calibrated_granular
       (Demo.text "abc") (py "abc") _ _) _ _).
  - vm_compute. reflexivity.
  - discriminate.
  - reflexivity.
  - reflexivity.
Defined.

(** The three vocabulary words of the text are reported. *)
Lemma input_features_are_letter_words_witness :
  exists r t l,
    Demo.run Demo.calibrated_binary Demo.calibrated_granular
      (Demo.text "shocking secret report") = (Return r, t) /\
    dict_get r (py "top_features_input") = Some (PyPairs l) /\
    length l = 3%nat /\
    Forall (fun e => fst e <> [] /\ forallb is_ascii_lower (fst e) = true) l.
Proof.
  eexists _, _, _. split; [vm_compute; reflexivity|].
  split; [vm_compute; reflexivity|]. split; [reflexivity|].
  eapply (input_features_are_letter_words Ascii7.str_lower Ascii7.is_space
           Ascii7.is_word Ascii7.is_digit str Demo.exp2 Demo.argsort
           Demo.calibrated_binary Demo.tfidf Demo.calibrated_granular
           (Demo.text "shocking secret report") _ _ _
           ascii_lower_no_upper).
  - reflexivity.
  - vm_compute. reflexivity.
  - vm_compute. reflexivity.
Defined.

Lemma feature_lists_descending_witness :
  exists r t l,
    Demo.run Demo.calibrated_binary Demo.calibrated_granular
      (Demo.text "shocking secret report") = (Return r, t) /\
    dict_get r (py "top_features_input") = Some (PyPairs l) /\
    exists g coef coefs,
      dict_get r (py "top_features_overall") = Some (PyPairs g) /\
      coef_ str Demo.calibrated_granular = Some coef /\ In coefs coef /\
      length g = Nat.min 10 (length coefs) /\
      StronglySorted (fun a b => snd b <= snd a) g /\
      StronglySorted (fun a b => snd b <= snd a) l.
Proof.
  eexists _, _, _. split; [vm_compute; reflexivity|].
  split; [vm_compute; reflexivity|].
  eapply (feature_lists_descending Ascii7.str_lower Ascii7.is_space
           Ascii7.is_word Ascii7.is_digit str Demo.exp2 Demo.argsort
           Demo.calibrated_binary Demo.tfidf Demo.calibrated_granular
           (Demo.text "shocking secret report") _ _ _ demo_argsort_spec).
  - vm_compute. reflexivity.
  - vm_compute. reflexivity.
Defined.
